(** * heatwave: an in-memory cache with pluggable eviction strategies

    A shallow embedding of the Go package [heatwave] (bucket, lru and fifo
    updaters) and the proofs of its specification. The bucket is the
    revision of heatwave.go with the [closed] flag and [ErrBucketClosed].

    Conventions of the embedding:
    - a Go pointer is an address into an explicit memory, a finite map from
      addresses to cells; [nil] is [None]; dereferencing [nil] or an
      unallocated address panics;
    - a computation that may panic returns [option]: [None] is the panic;
    - Go's [int] is a 64-bit two's complement integer, kept as a [Z] with
      its wrap-around written out ([GoInt.wrap]);
    - every exported method of [Bucket] runs under [b.mutex], so a method is
      one atomic transition of the bucket.

    Beside the bucket the development covers the older revision of
    heatwave.go (module [Older]), the two updaters of
    example/custom_strategies.go (modules [Random] and [Frequency]) with
    the contract a custom updater has to keep (module [Contract]), and the
    order in which the methods take the two locks (module [Locks]), where
    a method is the sequence of its lock operations. *)

From Stdlib Require Import ZArith Lia.
From stdpp Require Import gmap strings list fin_maps.

Local Open Scope Z_scope.
#[local] Set Warnings "-clear-no-such-hyp".

(** ** Machine integers *)

Module GoInt.

Definition min_int : Z := - 2 ^ 63.
Definition max_int : Z := 2 ^ 63 - 1.

(** The value an [int] holds after an arithmetic result [z]. *)
Definition wrap (z : Z) : Z := (z + 2 ^ 63) mod 2 ^ 64 - 2 ^ 63.

Definition in_range (z : Z) : Prop := min_int ≤ z ≤ max_int.

End GoInt.

(** ** Addresses *)

(** Address of an [lruNode] cell: a non-nil [*lruNode]. *)
Definition ptr := positive.

(** Address of a [CacheItem] cell: a non-nil [*CacheItem[T]]. *)
Definition loc := positive.

(** ** lru.go: the LRU updater, a doubly linked list with two sentinels *)

Module Lru.

(** [type lruNode struct { item *CacheItem; prev, next *lruNode }] *)
Record lruNode := LruNode {
  item : option loc;
  prev : option ptr;
  next : option ptr
}.

(** [type lru struct { head, tail *lruNode; size int; nodeMap map[*CacheItem]*lruNode }]
    together with [mem], the memory that holds the [lruNode] cells. Cells
    that are unlinked stay in [mem] (Go would collect them); a new cell
    gets an address outside [dom mem]. *)
Record lru := MkLru {
  head : ptr;
  tail : ptr;
  size : Z;
  nodeMap : gmap loc ptr;
  mem : gmap ptr lruNode
}.

Definition set_size (s : Z) (l : lru) : lru :=
  MkLru (head l) (tail l) s (nodeMap l) (mem l).
Definition set_nodeMap (nm : gmap loc ptr) (l : lru) : lru :=
  MkLru (head l) (tail l) (size l) nm (mem l).
Definition set_mem (m : gmap ptr lruNode) (l : lru) : lru :=
  MkLru (head l) (tail l) (size l) (nodeMap l) m.

(** [*p] for [p : *lruNode]. *)
Definition load (p : option ptr) (m : gmap ptr lruNode) : option lruNode :=
  a ← p; m !! a.

(** [p.prev = v] *)
Definition store_prev (p : option ptr) (v : option ptr) (l : lru) : option lru :=
  a ← p; nd ← mem l !! a;
  Some (set_mem (<[a := LruNode (item nd) v (next nd)]> (mem l)) l).

(** [p.next = v] *)
Definition store_next (p : option ptr) (v : option ptr) (l : lru) : option lru :=
  a ← p; nd ← mem l !! a;
  Some (set_mem (<[a := LruNode (item nd) (prev nd) v]> (mem l)) l).

(** [&lruNode{...}]: a new cell at an unused address. *)
Definition alloc (nd : lruNode) (m : gmap ptr lruNode) : ptr * gmap ptr lruNode :=
  let a := fresh (dom m) in (a, <[a := nd]> m).

(** The body shared by [newLRUUpdater] and [Clear]: two new sentinels that
    point at each other, size 0 and an empty [nodeMap]. *)
Definition reset (m : gmap ptr lruNode) : lru :=
  let '(h, m1) := alloc (LruNode None None None) m in
  let '(t, m2) := alloc (LruNode None None None) m1 in
  let m3 := <[h := LruNode None None (Some t)]> m2 in     (* head.next = tail *)
  let m4 := <[t := LruNode None (Some h) None]> m3 in     (* tail.prev = head *)
  MkLru h t 0 ∅ m4.

Definition newLRUUpdater : lru := reset ∅.

(** [func (l *lru) addNodeToHead(node *lruNode)] *)
Definition addNodeToHead (node : ptr) (l : lru) : option lru :=
  l1 ← store_prev (Some node) (Some (head l)) l;          (* node.prev = l.head *)
  h ← load (Some (head l1)) (mem l1);
  l2 ← store_next (Some node) (next h) l1;                (* node.next = l.head.next *)
  h ← load (Some (head l2)) (mem l2);
  l3 ← store_prev (next h) (Some node) l2;                (* l.head.next.prev = node *)
  l4 ← store_next (Some (head l3)) (Some node) l3;        (* l.head.next = node *)
  Some (set_size (GoInt.wrap (size l4 + 1)) l4).          (* l.size++ *)

(** [func (l *lru) removeNode(node *lruNode)] *)
Definition removeNode (node : option ptr) (l : lru) : option lru :=
  n ← load node (mem l);
  l1 ← store_next (prev n) (next n) l;                    (* node.prev.next = node.next *)
  n ← load node (mem l1);
  l2 ← store_prev (next n) (prev n) l1;                   (* node.next.prev = node.prev *)
  Some (set_size (GoInt.wrap (size l2 - 1)) l2).          (* l.size-- *)

(** [delete(l.nodeMap, item)]; [nil] is never a key of [nodeMap]. *)
Definition delete_item (it : option loc) (nm : gmap loc ptr) : gmap loc ptr :=
  match it with Some p => delete p nm | None => nm end.

(** [func (l *lru) removeTail() *CacheItem] *)
Definition removeTail (l : lru) : option (option loc * lru) :=
  if decide (size l = 0) then Some (None, l)
  else
    t ← load (Some (tail l)) (mem l);
    let lastNode := prev t in
    ln ← load lastNode (mem l);
    let it := item ln in
    l1 ← removeNode lastNode l;
    Some (it, set_nodeMap (delete_item it (nodeMap l1)) l1).

(** [func (l *lru) moveNodeToHead(node *lruNode)] *)
Definition moveNodeToHead (node : ptr) (l : lru) : option lru :=
  l1 ← removeNode (Some node) l;
  addNodeToHead node l1.

(** [func (l *lru) Add(item *CacheItem[T])] *)
Definition Add (it : loc) (l : lru) : option lru :=
  let '(node, m1) := alloc (LruNode (Some it) None None) (mem l) in
  let l1 := set_nodeMap (<[it := node]> (nodeMap l)) (set_mem m1 l) in
  addNodeToHead node l1.

(** [func (l *lru) Access(item *CacheItem[T])] *)
Definition Access (it : loc) (l : lru) : option lru :=
  match nodeMap l !! it with
  | Some node => moveNodeToHead node l
  | None => Some l
  end.

(** [func (l *lru) Remove(item *CacheItem[T])] *)
Definition Remove (it : loc) (l : lru) : option lru :=
  match nodeMap l !! it with
  | Some node =>
      l1 ← removeNode (Some node) l;
      Some (set_nodeMap (delete it (nodeMap l1)) l1)
  | None => Some l
  end.

(** [func (l *lru) Evict() *CacheItem[T]] *)
Definition Evict (l : lru) : option (option loc * lru) := removeTail l.

(** [func (l *lru) Size() int] *)
Definition Size (l : lru) : Z := size l.

(** [func (l *lru) Clear()] *)
Definition Clear (l : lru) : option lru := Some (reset (mem l)).

End Lru.

(** ** fifo.go: the FIFO updater, a slice of item pointers *)

Module Fifo.

(** [type fifo struct { items []*CacheItem[T] }]. The slice is private to
    the updater, so it is the list of its elements. *)
Record fifo := MkFifo { items : list loc }.

Definition newFIFO : fifo := MkFifo [].

(** [func (f *fifo) Add(item)]: [append(f.items, item)] *)
Definition Add (it : loc) (f : fifo) : option fifo := Some (MkFifo (items f ++ [it])).

(** [func (f *fifo) Access(item)]: no reordering *)
Definition Access (it : loc) (f : fifo) : option fifo := Some f.

(** The loop of [Remove]: the first [i] with [f.items[i] == item] is
    spliced out, then [break]. *)
Fixpoint splice (it : loc) (l : list loc) : list loc :=
  match l with
  | [] => []
  | x :: l' => if decide (x = it) then l' else x :: splice it l'
  end.

(** [func (f *fifo) Remove(item)] *)
Definition Remove (it : loc) (f : fifo) : option fifo := Some (MkFifo (splice it (items f))).

(** [func (f *fifo) Evict() *CacheItem[T]] *)
Definition Evict (f : fifo) : option (option loc * fifo) :=
  match items f with
  | [] => Some (None, f)
  | it :: rest => Some (Some it, MkFifo rest)
  end.

(** [func (f *fifo) Size() int]: [len(f.items)] *)
Definition Size (f : fifo) : Z := Z.of_nat (length (items f)).

(** [func (f *fifo) Clear()]: [f.items[:0]] *)
Definition Clear (f : fifo) : option fifo := Some (MkFifo []).

End Fifo.

(** ** updater.go: the strategy interface *)

Module Updater.

(** The method set of [type Updater[T] interface]; a method that panics
    returns [None]. [Evict] returns [nil] as [None]. *)
Record methods (C : Type) := Methods {
  mAdd : loc → C → option C;
  mAccess : loc → C → option C;
  mRemove : loc → C → option C;
  mEvict : C → option (option loc * C);
  mSize : C → Z;
  mClear : C → option C
}.
Arguments Methods {C}.
Arguments mAdd {C}.
Arguments mAccess {C}.
Arguments mRemove {C}.
Arguments mEvict {C}.
Arguments mSize {C}.
Arguments mClear {C}.

(** An interface value: a dynamic type, its methods and the receiver. *)
Record Updater := Pack {
  carrier : Type;
  impl : methods carrier;
  self : carrier
}.

Definition Add (it : loc) (u : Updater) : option Updater :=
  Pack (carrier u) (impl u) <$> mAdd (impl u) it (self u).
Definition Access (it : loc) (u : Updater) : option Updater :=
  Pack (carrier u) (impl u) <$> mAccess (impl u) it (self u).
Definition Remove (it : loc) (u : Updater) : option Updater :=
  Pack (carrier u) (impl u) <$> mRemove (impl u) it (self u).
Definition Evict (u : Updater) : option (option loc * Updater) :=
  prod_map id (Pack (carrier u) (impl u)) <$> mEvict (impl u) (self u).
Definition Size (u : Updater) : Z := mSize (impl u) (self u).
Definition Clear (u : Updater) : option Updater :=
  Pack (carrier u) (impl u) <$> mClear (impl u) (self u).

(** [*lru] and [*fifo] implement the interface. *)
Definition lru_methods : methods Lru.lru :=
  Methods Lru.Add Lru.Access Lru.Remove Lru.Evict Lru.Size Lru.Clear.
Definition fifo_methods : methods Fifo.fifo :=
  Methods Fifo.Add Fifo.Access Fifo.Remove Fifo.Evict Fifo.Size Fifo.Clear.

Definition of_lru (l : Lru.lru) : Updater := Pack Lru.lru lru_methods l.
Definition of_fifo (f : Fifo.fifo) : Updater := Pack Fifo.fifo fifo_methods f.

End Updater.

(** ** The [time] package, as far as the bucket uses it *)

(** [Time] is what [time.Now()] returns and [expiredAt] holds, [TTL] what
    [b.outdated] points to. *)
Class Expiration := {
  Time : Type;
  TTL : Type;
  ttl : Z → TTL;                     (* [&d] for a [time.Duration] [d] *)
  deadline : Time → TTL → Time;      (* [now.Add( *b.outdated)] *)
  after : Time → Time → bool         (* [now.After(expiredAt)] *)
}.

(** Go's [time]: instants and durations count nanoseconds. *)
Definition go_time : Expiration := {|
  Time := Z;
  TTL := Z;
  ttl d := d;
  deadline now d := now + d;
  after now t := t <? now
|}.

(** ** Channels, as far as [stopCleanup] needs them *)

Module Chan.

Record chan := MkChan { cap : nat; len : nat; closed : bool }.

(** [make(chan struct{}, n)] *)
Definition make (n : nat) : chan := MkChan n 0 false.

(** [select { case c <- v: default: }]: sending on a closed channel
    panics; a full buffer takes the [default] branch. *)
Definition try_send (c : chan) : option chan :=
  if closed c then None
  else if decide (len c < cap c)%nat then Some (MkChan (cap c) (S (len c)) false)
  else Some c.

(** [close(c)]: closing a closed channel panics. *)
Definition close (c : chan) : option chan :=
  if closed c then None else Some (MkChan (cap c) (len c) true).

End Chan.

(** ** heatwave.go: the bucket *)

Module Heatwave.

Definition defaultMaxSize : Z := 1000.
Definition minute : Z := 60 * 1000000000.
Definition defaultOutdated : Z := minute * 5.
Definition defaultCleanupInterval : Z := minute.

(** [var ErrBucketClosed = errors.New("bucket is closed")] *)
Inductive error := ErrBucketClosed.

Section Bucket.
Context {E : Expiration} {T : Type}.

(** [type CacheItem[T] struct { key string; value T; expiredAt time.Time }] *)
Record CacheItem := MkItem {
  key : string;
  value : T;
  expiredAt : Time
}.

(** [type Bucket[T] struct]. [heap] is the memory that holds the
    [CacheItem] cells; an item that left the table stays in it (Go would
    collect it) and a new item gets an address outside [dom heap].
    [outdated] is never [nil] ([NewBucket] and [WithBucketOutdated] both
    store an address), so it is the pointed-to value. The two mutexes are
    not fields of the model. *)
Record Bucket := MkBucket {
  name : string;
  maxSize : Z;
  outdated : TTL;
  cleanupInterval : Z;
  cache : gmap string loc;
  updater : Updater.Updater;
  stopCleanup : Chan.chan;
  closed : bool;
  heap : gmap loc CacheItem
}.

Definition set_name (x : string) (b : Bucket) : Bucket :=
  MkBucket x (maxSize b) (outdated b) (cleanupInterval b) (cache b)
           (updater b) (stopCleanup b) (closed b) (heap b).
Definition set_maxSize (x : Z) (b : Bucket) : Bucket :=
  MkBucket (name b) x (outdated b) (cleanupInterval b) (cache b)
           (updater b) (stopCleanup b) (closed b) (heap b).
Definition set_outdated (x : TTL) (b : Bucket) : Bucket :=
  MkBucket (name b) (maxSize b) x (cleanupInterval b) (cache b)
           (updater b) (stopCleanup b) (closed b) (heap b).
Definition set_cleanupInterval (x : Z) (b : Bucket) : Bucket :=
  MkBucket (name b) (maxSize b) (outdated b) x (cache b)
           (updater b) (stopCleanup b) (closed b) (heap b).
Definition set_cache (x : gmap string loc) (b : Bucket) : Bucket :=
  MkBucket (name b) (maxSize b) (outdated b) (cleanupInterval b) x
           (updater b) (stopCleanup b) (closed b) (heap b).
Definition set_updater (x : Updater.Updater) (b : Bucket) : Bucket :=
  MkBucket (name b) (maxSize b) (outdated b) (cleanupInterval b) (cache b)
           x (stopCleanup b) (closed b) (heap b).
Definition set_stopCleanup (x : Chan.chan) (b : Bucket) : Bucket :=
  MkBucket (name b) (maxSize b) (outdated b) (cleanupInterval b) (cache b)
           (updater b) x (closed b) (heap b).
Definition set_closed (x : bool) (b : Bucket) : Bucket :=
  MkBucket (name b) (maxSize b) (outdated b) (cleanupInterval b) (cache b)
           (updater b) (stopCleanup b) x (heap b).
Definition set_heap (x : gmap loc CacheItem) (b : Bucket) : Bucket :=
  MkBucket (name b) (maxSize b) (outdated b) (cleanupInterval b) (cache b)
           (updater b) (stopCleanup b) (closed b) x.

(** The options of [NewBucket]. The fields of [Bucket] are unexported,
    so these constructors are all the options a caller can build. *)
Inductive NewBucketOption :=
| WithBucketName (n : string)
| WithBucketOutdated (d : Z)
| WithMaxSize (m : Z)
| WithCleanupInterval (d : Z)
| WithUpdater (u : Updater.Updater)
| WithFIFOUpdater.

Definition apply_option (o : NewBucketOption) (b : Bucket) : Bucket :=
  match o with
  | WithBucketName n => set_name n b
  | WithBucketOutdated d => set_outdated (ttl d) b
  | WithMaxSize m => set_maxSize m b
  | WithCleanupInterval d => set_cleanupInterval d b
  | WithUpdater u => set_updater u b
  | WithFIFOUpdater => set_updater (Updater.of_fifo Fifo.newFIFO) b
  end.

(** [func NewBucket[T](opts ...NewBucketOption[T]) *Bucket[T]] *)
Definition NewBucket (opts : list NewBucketOption) : Bucket :=
  let b := MkBucket "" defaultMaxSize (ttl defaultOutdated) defaultCleanupInterval
                    ∅ (Updater.of_lru Lru.newLRUUpdater) (Chan.make 1) false ∅ in
  fold_left (λ b opt, apply_option opt b) opts b.

(** [func (b *Bucket[T]) isClosed() bool] *)
Definition isClosed (b : Bucket) : bool := closed b.

(** [func (b *Bucket[T]) IsClosed() bool] *)
Definition IsClosed (b : Bucket) : bool := isClosed b.

(** The capacity check of [Nail]: when the updater is full, evict and
    delete the evicted item's key from the table. *)
Definition makeRoom (b : Bucket) : option Bucket :=
  if decide (maxSize b ≤ Updater.Size (updater b)) then
    '(evictedItem, u) ← Updater.Evict (updater b);
    match evictedItem with
    | Some p =>
        it ← heap b !! p;
        Some (set_cache (delete (key it) (cache b)) (set_updater u b))
    | None => Some (set_updater u b)
    end
  else Some b.

(** [func (b *Bucket[T]) Nail(id string, data T) error], called when
    [time.Now()] is [now]. The result is the returned error ([None] is
    [nil]) and the bucket after the call. *)
Definition Nail (id : string) (data : T) (now : Time) (b : Bucket)
  : option (option error * Bucket) :=
  if isClosed b then Some (Some ErrBucketClosed, b)
  else
    let expiredAt' := deadline now (outdated b) in
    match cache b !! id with
    | Some p =>
        existingItem ← heap b !! p;
        let b1 := set_heap (<[p := MkItem (key existingItem) data expiredAt']> (heap b)) b in
        u ← Updater.Access p (updater b1);
        Some (None, set_updater u b1)
    | None =>
        b1 ← makeRoom b;
        let newItem := fresh (dom (heap b1)) in
        let b2 := set_heap (<[newItem := MkItem id data expiredAt']> (heap b1)) b1 in
        let b3 := set_cache (<[id := newItem]> (cache b2)) b2 in
        u ← Updater.Add newItem (updater b3);
        Some (None, set_updater u b3)
    end.

(** [func (b *Bucket[T]) Bring(id string) (T, bool)], called when
    [time.Now()] is [now]; [zero] is the zero value of [T]. *)
Definition Bring (zero : T) (id : string) (now : Time) (b : Bucket)
  : option ((T * bool) * Bucket) :=
  if isClosed b then Some ((zero, false), b)
  else
    match cache b !! id with
    | None => Some ((zero, false), b)
    | Some p =>
        it ← heap b !! p;
        if after now (expiredAt it) then
          u ← Updater.Remove p (updater b);
          Some ((zero, false), set_cache (delete id (cache b)) (set_updater u b))
        else
          u ← Updater.Access p (updater b);
          Some ((value it, true), set_updater u b)
    end.

(** First loop of [cleanupExpired]: [range b.cache] yields the entries
    of the table in an unspecified order; [order] is the order of the
    keys it yields. A key that is not in the table is not yielded. *)
Fixpoint collectExpired (now : Time) (b : Bucket) (order : list string)
  : option (list string) :=
  match order with
  | [] => Some []
  | k :: rest =>
      match cache b !! k with
      | None => collectExpired now b rest
      | Some p =>
          it ← heap b !! p;
          expiredKeys ← collectExpired now b rest;
          Some (if after now (expiredAt it) then k :: expiredKeys else expiredKeys)
      end
  end.

(** Second loop of [cleanupExpired]. *)
Fixpoint deleteExpired (expiredKeys : list string) (b : Bucket) : option Bucket :=
  match expiredKeys with
  | [] => Some b
  | k :: rest =>
      match cache b !! k with
      | Some p =>
          u ← Updater.Remove p (updater b);
          deleteExpired rest (set_cache (delete k (cache b)) (set_updater u b))
      | None => deleteExpired rest b
      end
  end.

(** [func (b *Bucket[T]) cleanupExpired()] *)
Definition cleanupExpired (now : Time) (order : list string) (b : Bucket)
  : option Bucket :=
  if closed b then Some b
  else
    expiredKeys ← collectExpired now b order;
    deleteExpired expiredKeys b.

(** One tick of the ticker in [startCleanup]. *)
Definition tick (now : Time) (order : list string) (b : Bucket) : option Bucket :=
  if isClosed b then Some b else cleanupExpired now order b.

(** [func (b *Bucket[T]) Close() error] *)
Definition Close (b : Bucket) : option (option error * Bucket) :=
  if closed b then Some (None, b)
  else
    let b1 := set_closed true b in
    c ← Chan.try_send (stopCleanup b1);
    c ← Chan.close c;
    let b2 := set_stopCleanup c b1 in
    let b3 := set_cache ∅ b2 in
    u ← Updater.Clear (updater b3);
    Some (None, set_updater u b3).

(** [func (b *Bucket[T]) Size() int] *)
Definition Size (b : Bucket) : Z :=
  if isClosed b then 0 else Updater.Size (updater b).

(** [func (b *Bucket[T]) Clear()] *)
Definition Clear (b : Bucket) : option Bucket :=
  if isClosed b then Some b
  else
    let b1 := set_cache ∅ b in
    u ← Updater.Clear (updater b1);
    Some (set_updater u b1).

(** *** Histories: the calls a bucket receives, one after the other *)

Inductive Call :=
| CallNail (id : string) (data : T) (now : Time)
| CallBring (id : string) (now : Time)
| CallClear
| CallClose
| CallTick (now : Time) (order : list string).

Definition call (zero : T) (c : Call) (b : Bucket) : option Bucket :=
  match c with
  | CallNail id data now => snd <$> Nail id data now b
  | CallBring id now => snd <$> Bring zero id now b
  | CallClear => Clear b
  | CallClose => snd <$> Close b
  | CallTick now order => tick now order b
  end.

Fixpoint calls (zero : T) (cs : list Call) (b : Bucket) : option Bucket :=
  match cs with
  | [] => Some b
  | c :: cs' => b' ← call zero c b; calls zero cs' b'
  end.

End Bucket.

Arguments CacheItem {E} T.
Arguments Bucket {E} T.
Arguments Call {E} T.

End Heatwave.

(** ** heatwave.go, the older revision *)

Module Legacy.

(** [func (b *Bucket[T]) Close()] of the older revision of heatwave.go,
    which has no [closed] flag: [close(b.stopCleanup)] and nothing else. *)
Definition Close (c : Chan.chan) : option Chan.chan := Chan.close c.

End Legacy.

(** ** What the structures represent *)

Module LruRepr.
Import Lru.

(** The three fields of the cell at an address, read through the memory. *)
Definition nxt (m : gmap ptr lruNode) (a : ptr) : option ptr := nd ← m !! a; next nd.
Definition prv (m : gmap ptr lruNode) (a : ptr) : option ptr := nd ← m !! a; prev nd.
Definition itm (m : gmap ptr lruNode) (a : ptr) : option loc := nd ← m !! a; item nd.

(** Consecutive cells of [cells] point at each other. *)
Fixpoint linked (m : gmap ptr lruNode) (cells : list ptr) : Prop :=
  match cells with
  | [] => True
  | a :: rest =>
      match rest with
      | [] => True
      | b :: _ => nxt m a = Some b ∧ prv m b = Some a
      end ∧ linked m rest
  end.

(** The cells of the list, sentinels included, for the nodes [ps] (address
    and item of each node, from the most recent to the least recent). *)
Definition cells (l : lru) (ps : list (ptr * loc)) : list ptr :=
  head l :: ps.*1 ++ [tail l].

(** The linked structure: distinct allocated cells, each pointing at its
    neighbours, and each node holding its item. *)
Definition shape (l : lru) (ps : list (ptr * loc)) : Prop :=
  NoDup (cells l ps) ∧
  linked (mem l) (cells l ps) ∧
  (∀ a, a ∈ cells l ps → is_Some (mem l !! a)) ∧
  (∀ n it, (n, it) ∈ ps → itm (mem l) n = Some it).

(** [repr l its]: [l] is a well-formed list that holds exactly the items
    [its], most recently used first; [nodeMap] finds the node of each
    item and [size] counts them. *)
Definition repr (l : lru) (its : list loc) : Prop :=
  ∃ ps : list (ptr * loc),
    its = ps.*2 ∧
    NoDup its ∧
    shape l ps ∧
    (∀ it n, nodeMap l !! it = Some n ↔ (n, it) ∈ ps) ∧
    size l = Z.of_nat (length its) ∧
    Z.of_nat (length its) ≤ GoInt.max_int.

End LruRepr.

(** [tracks u its]: the built-in updater [u] is well formed and tracks
    exactly the items [its], in its own order: most recently used first for
    the LRU list, oldest first for the FIFO slice. *)
Inductive tracks : Updater.Updater → list loc → Prop :=
| tracks_lru l its :
    LruRepr.repr l its → tracks (Updater.of_lru l) its
| tracks_fifo f :
    NoDup (Fifo.items f) → tracks (Updater.of_fifo f) (Fifo.items f).

Module Invariant.
Import Heatwave.

Section inv.
Context {E : Expiration} {T : Type}.
Implicit Types (b : Bucket T) (its : list loc).

(** The key table [c] and the tracked items [its] are in lock-step: the
    table maps each key to a tracked item that carries this key, and
    each tracked item is the table's entry for its key. *)
Definition lockstep (c : gmap string loc) (h : gmap loc (CacheItem T)) its : Prop :=
  (∀ k p, c !! k = Some p → p ∈ its ∧ key <$> h !! p = Some k) ∧
  (∀ p, p ∈ its → ∃ k, key <$> h !! p = Some k ∧ c !! k = Some p).

(** The invariant of a bucket with a built-in updater. *)
Definition inv b : Prop :=
  ∃ its,
    tracks (updater b) its ∧
    lockstep (cache b) (heap b) its ∧
    size (cache b) = length its ∧
    Z.of_nat (length its) ≤ Z.max (maxSize b) 1 ∧
    GoInt.in_range (maxSize b) ∧
    (closed b = false → Chan.closed (stopCleanup b) = false).

(** A bucket as [NewBucket] returns it: empty, open, with an empty
    built-in updater. *)
Definition initial b : Prop :=
  cache b = ∅ ∧ heap b = ∅ ∧ tracks (updater b) [] ∧
  GoInt.in_range (maxSize b) ∧ closed b = false ∧
  Chan.closed (stopCleanup b) = false.

(** Every item in the memory of a bucket was written by [Nail], with a
    deadline computed from the bucket's setting. *)
Definition written b : Prop :=
  ∀ p it, heap b !! p = Some it → ∃ now, expiredAt it = deadline now (outdated b).

(** The fields that are set at construction. *)
Definition config b : string * Z * TTL * Z :=
  (name b, maxSize b, outdated b, cleanupInterval b).

(** Options that keep a built-in updater; [WithMaxSize] takes an [int]. *)
Definition builtin_option (o : NewBucketOption) : Prop :=
  match o with
  | WithUpdater _ => False
  | WithMaxSize m => GoInt.in_range m
  | _ => True
  end.

(** Options that keep the default LRU updater. *)
Definition lru_option (o : NewBucketOption) : Prop :=
  match o with
  | WithUpdater _ | WithFIFOUpdater => False
  | WithMaxSize m => GoInt.in_range m
  | _ => True
  end.

End inv.

End Invariant.

(** ** The example history of the specification *)

Section example.
Context {E : Expiration} {T : Type}.

(** [Put(A), Put(B), Put(C)] at the times [t1], [t2], [t3]. *)
Definition three_puts (vA vB vC : T) (t1 t2 t3 : Time) : list (Heatwave.Call T) :=
  [Heatwave.CallNail "A" vA t1; Heatwave.CallNail "B" vB t2; Heatwave.CallNail "C" vC t3].

End example.

(** ** Never-expire mode *)

Module NeverExpire.
Import Heatwave.

(** Modelled from the spec: the deadline of an entry in never-expire mode.
    The option [WithBucketNeverExpire] and the code that assigns and tests
    such a deadline are not in the sources at hand; the specification says
    that [Put] "assigns an unbounded deadline". A deadline is an instant
    or unbounded. *)
Inductive Deadline := At (t : Z) | Unbounded.

(** Modelled from the spec: the expiry setting of the container, its
    "ttl-or-never-expire flag"; the flag is "mutually exclusive in effect
    with ttl (overrides it)". *)
Record Expiry := MkExpiry { duration : Z; neverExpire : bool }.

(** Modelled from the spec: the deadline that [Put] computes is "now +
    configured TTL (or never if never-expire mode is configured)", and
    [Get] and the sweeper ask whether "the deadline has passed", which an
    unbounded deadline never has. *)
Definition spec_time : Expiration := {|
  Time := Deadline;
  TTL := Expiry;
  ttl d := MkExpiry d false;
  deadline now x :=
    if neverExpire x then Unbounded
    else match now with At t => At (t + duration x) | Unbounded => Unbounded end;
  after now dl :=
    match now, dl with
    | At n, At t => t <? n
    | _, _ => false
    end
|}.

(** Modelled from the spec: the construction options of the version with
    never-expire mode. [WithBucketExpire] sets the TTL,
    [WithBucketNeverExpire] sets the flag, and neither undoes the other;
    [Keep o] is an option of the sources at hand. *)
Inductive BucketOption :=
| WithBucketExpire (d : Z)
| WithBucketNeverExpire
| Keep (o : NewBucketOption).

Section bucket.
Context {T : Type}.
Local Existing Instance spec_time.

Definition apply (o : BucketOption) (b : Bucket T) : Bucket T :=
  match o with
  | WithBucketExpire d =>
      set_outdated (MkExpiry d (neverExpire (outdated b))) b
  | WithBucketNeverExpire =>
      set_outdated (MkExpiry (duration (outdated b)) true) b
  | Keep o => apply_option o b
  end.

(** Modelled from the spec: [NewBucket] with the options above. *)
Definition NewBucket (opts : list BucketOption) : Bucket T :=
  fold_left (λ b o, apply o b) opts (Heatwave.NewBucket []).

(** The options this model covers: a built-in updater, and the TTL set
    through [WithBucketExpire]. *)
Definition covered (o : BucketOption) : Prop :=
  match o with
  | Keep (WithBucketOutdated _) => False
  | Keep o => Invariant.builtin_option o
  | _ => True
  end.

End bucket.

End NeverExpire.

(** ** A caller that empties an updater *)

(** [n] calls of [Evict] one after the other, as a caller that frees
    capacity would make them: the items returned, in the order they come
    out, and the updater left. The calls stop at the first [nil]. *)
Fixpoint evict_n (n : nat) (u : Updater.Updater) : option (list loc * Updater.Updater) :=
  match n with
  | O => Some ([], u)
  | S n' =>
      '(v, u1) ← Updater.Evict u;
      match v with
      | None => Some ([], u1)
      | Some p => '(ps, u2) ← evict_n n' u1; Some (p :: ps, u2)
      end
  end.

(** ** src/heatwave.go: the older revision of the bucket *)

(** The older revision has no [closed] flag and no [ErrBucketClosed];
    [outdated] is [nil] until an option or the end of [NewBucket] sets it;
    [stopCleanup] is an unbuffered [chan bool]. [CacheItem], the options
    and the updaters are those of the newer revision. *)
Module Older.
Import Heatwave.

Section Bucket.
Context {E : Expiration} {T : Type}.

(** [type Bucket[T] struct]; [heap] holds the [CacheItem] cells as in the
    newer revision, and [outdated] is [None] for [nil]. *)
Record Bucket := MkBucket {
  name : string;
  maxSize : Z;
  outdated : option TTL;
  cleanupInterval : Z;
  cache : gmap string loc;
  updater : Updater.Updater;
  stopCleanup : Chan.chan;
  heap : gmap loc (CacheItem T)
}.

Definition set_name (x : string) (b : Bucket) : Bucket :=
  MkBucket x (maxSize b) (outdated b) (cleanupInterval b) (cache b)
           (updater b) (stopCleanup b) (heap b).
Definition set_maxSize (x : Z) (b : Bucket) : Bucket :=
  MkBucket (name b) x (outdated b) (cleanupInterval b) (cache b)
           (updater b) (stopCleanup b) (heap b).
Definition set_outdated (x : option TTL) (b : Bucket) : Bucket :=
  MkBucket (name b) (maxSize b) x (cleanupInterval b) (cache b)
           (updater b) (stopCleanup b) (heap b).
Definition set_cleanupInterval (x : Z) (b : Bucket) : Bucket :=
  MkBucket (name b) (maxSize b) (outdated b) x (cache b)
           (updater b) (stopCleanup b) (heap b).
Definition set_cache (x : gmap string loc) (b : Bucket) : Bucket :=
  MkBucket (name b) (maxSize b) (outdated b) (cleanupInterval b) x
           (updater b) (stopCleanup b) (heap b).
Definition set_updater (x : Updater.Updater) (b : Bucket) : Bucket :=
  MkBucket (name b) (maxSize b) (outdated b) (cleanupInterval b) (cache b)
           x (stopCleanup b) (heap b).
Definition set_stopCleanup (x : Chan.chan) (b : Bucket) : Bucket :=
  MkBucket (name b) (maxSize b) (outdated b) (cleanupInterval b) (cache b)
           (updater b) x (heap b).
Definition set_heap (x : gmap loc (CacheItem T)) (b : Bucket) : Bucket :=
  MkBucket (name b) (maxSize b) (outdated b) (cleanupInterval b) (cache b)
           (updater b) (stopCleanup b) x.

Definition apply_option (o : NewBucketOption) (b : Bucket) : Bucket :=
  match o with
  | WithBucketName n => set_name n b
  | WithBucketOutdated d => set_outdated (Some (ttl d)) b
  | WithMaxSize m => set_maxSize m b
  | WithCleanupInterval d => set_cleanupInterval d b
  | WithUpdater u => set_updater u b
  | WithFIFOUpdater => set_updater (Updater.of_fifo Fifo.newFIFO) b
  end.

(** [func NewBucket[T](opts ...NewBucketOption[T]) *Bucket[T]]: the
    default TTL is set after the options, where none of them set one. *)
Definition NewBucket (opts : list NewBucketOption) : Bucket :=
  let b := MkBucket "" defaultMaxSize None defaultCleanupInterval
                    ∅ (Updater.of_lru Lru.newLRUUpdater) (Chan.make 0) ∅ in
  let b := fold_left (λ b opt, apply_option opt b) opts b in
  match outdated b with
  | None => set_outdated (Some (ttl defaultOutdated)) b
  | Some _ => b
  end.

(** The capacity check of [Nail]. *)
Definition makeRoom (b : Bucket) : option Bucket :=
  if decide (maxSize b ≤ Updater.Size (updater b)) then
    '(evictedItem, u) ← Updater.Evict (updater b);
    match evictedItem with
    | Some p =>
        it ← heap b !! p;
        Some (set_cache (delete (key it) (cache b)) (set_updater u b))
    | None => Some (set_updater u b)
    end
  else Some b.

(** [func (b *Bucket[T]) Nail(id string, data T) error]; [*b.outdated]
    panics on [nil]. *)
Definition Nail (id : string) (data : T) (now : Time) (b : Bucket)
  : option (option error * Bucket) :=
  od ← outdated b;
  let expiredAt' := deadline now od in
  match cache b !! id with
  | Some p =>
      existingItem ← heap b !! p;
      let b1 := set_heap (<[p := MkItem (key existingItem) data expiredAt']> (heap b)) b in
      u ← Updater.Access p (updater b1);
      Some (None, set_updater u b1)
  | None =>
      b1 ← makeRoom b;
      let newItem := fresh (dom (heap b1)) in
      let b2 := set_heap (<[newItem := MkItem id data expiredAt']> (heap b1)) b1 in
      let b3 := set_cache (<[id := newItem]> (cache b2)) b2 in
      u ← Updater.Add newItem (updater b3);
      Some (None, set_updater u b3)
  end.

(** [func (b *Bucket[T]) Bring(id string) (T, bool)] *)
Definition Bring (zero : T) (id : string) (now : Time) (b : Bucket)
  : option ((T * bool) * Bucket) :=
  match cache b !! id with
  | None => Some ((zero, false), b)
  | Some p =>
      it ← heap b !! p;
      if after now (expiredAt it) then
        u ← Updater.Remove p (updater b);
        Some ((zero, false), set_cache (delete id (cache b)) (set_updater u b))
      else
        u ← Updater.Access p (updater b);
        Some ((value it, true), set_updater u b)
  end.

(** The two loops of [cleanupExpired], with the order in which [range]
    yields the keys. *)
Fixpoint collectExpired (now : Time) (b : Bucket) (order : list string)
  : option (list string) :=
  match order with
  | [] => Some []
  | k :: rest =>
      match cache b !! k with
      | None => collectExpired now b rest
      | Some p =>
          it ← heap b !! p;
          expiredKeys ← collectExpired now b rest;
          Some (if after now (expiredAt it) then k :: expiredKeys else expiredKeys)
      end
  end.

Fixpoint deleteExpired (expiredKeys : list string) (b : Bucket) : option Bucket :=
  match expiredKeys with
  | [] => Some b
  | k :: rest =>
      match cache b !! k with
      | Some p =>
          u ← Updater.Remove p (updater b);
          deleteExpired rest (set_cache (delete k (cache b)) (set_updater u b))
      | None => deleteExpired rest b
      end
  end.

(** [func (b *Bucket[T]) cleanupExpired()] *)
Definition cleanupExpired (now : Time) (order : list string) (b : Bucket)
  : option Bucket :=
  expiredKeys ← collectExpired now b order;
  deleteExpired expiredKeys b.

(** [func (b *Bucket[T]) Close()]: [close(b.stopCleanup)] *)
Definition Close (b : Bucket) : option Bucket :=
  c ← Chan.close (stopCleanup b);
  Some (set_stopCleanup c b).

(** [func (b *Bucket[T]) Size() int] *)
Definition Size (b : Bucket) : Z := Updater.Size (updater b).

(** [func (b *Bucket[T]) Clear()] *)
Definition Clear (b : Bucket) : option Bucket :=
  let b1 := set_cache ∅ b in
  u ← Updater.Clear (updater b1);
  Some (set_updater u b1).

(** The calls of a history. A tick runs [cleanupExpired]; the goroutine
    of [startCleanup] that makes the ticks may run it after [Close] too,
    as long as its [select] has not taken the closed channel. *)
Definition call (zero : T) (c : Call T) (b : Bucket) : option Bucket :=
  match c with
  | CallNail id data now => snd <$> Nail id data now b
  | CallBring id now => snd <$> Bring zero id now b
  | CallClear => Clear b
  | CallClose => Close b
  | CallTick now order => cleanupExpired now order b
  end.

Fixpoint calls (zero : T) (cs : list (Call T)) (b : Bucket) : option Bucket :=
  match cs with
  | [] => Some b
  | c :: cs' => b' ← call zero c b; calls zero cs' b'
  end.

(** The bucket of the older revision that has the fields of [b], with
    the channel [c]. *)
Definition of_newer (c : Chan.chan) (b : Heatwave.Bucket T) : Bucket :=
  MkBucket (Heatwave.name b) (Heatwave.maxSize b) (Some (Heatwave.outdated b))
           (Heatwave.cleanupInterval b) (Heatwave.cache b) (Heatwave.updater b)
           c (Heatwave.heap b).

(** The fields other than the channel. *)
Definition content (b : Bucket)
  : string * Z * option TTL * Z * gmap string loc * Updater.Updater * gmap loc (CacheItem T) :=
  (name b, maxSize b, outdated b, cleanupInterval b, cache b, updater b, heap b).

End Bucket.

Arguments Bucket {E} T.

End Older.

(** ** src/example/custom_strategies.go: two updaters of a caller *)

Module Random.

(** [type randomStrategy[T] struct { items []*heatwave.CacheItem[T] }] *)
Record randomStrategy := MkRandom { items : list loc }.

Definition newRandomStrategy : randomStrategy := MkRandom [].

(** [func (r *randomStrategy[T]) Add(item)] *)
Definition Add (it : loc) (r : randomStrategy) : option randomStrategy :=
  Some (MkRandom (items r ++ [it])).

(** [func (r *randomStrategy[T]) Access(item)] *)
Definition Access (it : loc) (r : randomStrategy) : option randomStrategy := Some r.

(** [func (r *randomStrategy[T]) Remove(item)]: the loop of [fifo.Remove] *)
Definition Remove (it : loc) (r : randomStrategy) : option randomStrategy :=
  Some (MkRandom (Fifo.splice it (items r))).

(** [func (r *randomStrategy[T]) Evict()]: [idx := len(r.items) - 1],
    [item := r.items[idx]], [r.items = r.items[:idx]] *)
Definition Evict (r : randomStrategy) : option (option loc * randomStrategy) :=
  if decide (length (items r) = 0%nat) then Some (None, r)
  else
    let idx := (length (items r) - 1)%nat in
    item ← items r !! idx;
    Some (Some item, MkRandom (take idx (items r))).

(** [func (r *randomStrategy[T]) Size() int] *)
Definition Size (r : randomStrategy) : Z := Z.of_nat (length (items r)).

(** [func (r *randomStrategy[T]) Clear()] *)
Definition Clear (r : randomStrategy) : option randomStrategy := Some (MkRandom []).

Definition methods : Updater.methods randomStrategy :=
  Updater.Methods Add Access Remove Evict Size Clear.

Definition updater (r : randomStrategy) : Updater.Updater :=
  Updater.Pack randomStrategy methods r.

End Random.

Module Frequency.

(** [type frequencyStrategy[T] struct { items []*CacheItem[T];
    frequency map[*CacheItem[T]]int }] *)
Record frequencyStrategy := MkFrequency {
  items : list loc;
  frequency : gmap loc Z
}.

Definition newFrequencyStrategy : frequencyStrategy := MkFrequency [] ∅.

(** [func (f *frequencyStrategy[T]) Add(item)] *)
Definition Add (it : loc) (f : frequencyStrategy) : option frequencyStrategy :=
  Some (MkFrequency (items f ++ [it]) (<[it := 0]> (frequency f))).

(** [func (f *frequencyStrategy[T]) Access(item)]: [f.frequency[item]++]
    on an [int], where the item has an entry. *)
Definition Access (it : loc) (f : frequencyStrategy) : option frequencyStrategy :=
  match frequency f !! it with
  | Some fr => Some (MkFrequency (items f) (<[it := GoInt.wrap (fr + 1)]> (frequency f)))
  | None => Some f
  end.

(** [func (f *frequencyStrategy[T]) Remove(item)] *)
Definition Remove (it : loc) (f : frequencyStrategy) : option frequencyStrategy :=
  Some (MkFrequency (Fifo.splice it (items f)) (delete it (frequency f))).

(** The loop of [Evict] from index [i] on; the state is [minFreq],
    [leastFreqItem] and [leastFreqIndex]. *)
Fixpoint scan (freq : gmap loc Z) (l : list loc) (i : Z) (st : Z * option loc * Z)
  : Z * option loc * Z :=
  match l with
  | [] => st
  | item :: rest =>
      scan freq rest (i + 1)
        match freq !! item with
        | Some fr => if decide (fr < st.1.1) then (fr, Some item, i) else st
        | None => st
        end
  end.

(** [func (f *frequencyStrategy[T]) Evict()] *)
Definition Evict (f : frequencyStrategy) : option (option loc * frequencyStrategy) :=
  if decide (length (items f) = 0%nat) then Some (None, f)
  else
    let '(_, leastFreqItem, leastFreqIndex) :=
      scan (frequency f) (items f) 0 (GoInt.max_int, None, -1) in
    if decide (0 ≤ leastFreqIndex) then
      let i := Z.to_nat leastFreqIndex in
      Some (leastFreqItem,
            MkFrequency (take i (items f) ++ drop (S i) (items f))
                        match leastFreqItem with
                        | Some it => delete it (frequency f)
                        | None => frequency f
                        end)
    else Some (None, f).

(** [func (f *frequencyStrategy[T]) Size() int] *)
Definition Size (f : frequencyStrategy) : Z := Z.of_nat (length (items f)).

(** [func (f *frequencyStrategy[T]) Clear()] *)
Definition Clear (f : frequencyStrategy) : option frequencyStrategy :=
  Some (MkFrequency [] ∅).

Definition methods : Updater.methods frequencyStrategy :=
  Updater.Methods Add Access Remove Evict Size Clear.

Definition updater (f : frequencyStrategy) : Updater.Updater :=
  Updater.Pack frequencyStrategy methods f.

End Frequency.

(** ** The contract between the bucket and an updater *)

Module Contract.
Import Heatwave.

Section contract.
Context {E : Expiration} {T : Type}.

(** [tr u its]: the updater [u] is in a good state and tracks the items
    [its]. *)
Variable tr : Updater.Updater → list loc → Prop.

(** What the bucket relies on: no method panics on a good state, the
    tracked items change as the method's name says, and [Size] counts
    them. [Evict] may return [nil] and change nothing. *)
Record lawful : Prop := Lawful {
  law_NoDup : ∀ u its, tr u its → NoDup its;
  law_Size : ∀ u its, tr u its → Updater.Size u = Z.of_nat (length its);
  law_Add : ∀ u its it, tr u its → it ∉ its →
    ∃ u' its', Updater.Add it u = Some u' ∧ tr u' its' ∧ its' ≡ₚ it :: its;
  law_Access : ∀ u its it, tr u its →
    ∃ u' its', Updater.Access it u = Some u' ∧ tr u' its' ∧ its' ≡ₚ its;
  law_Remove : ∀ u its it, tr u its → it ∈ its →
    ∃ u' its', Updater.Remove it u = Some u' ∧ tr u' its' ∧ its ≡ₚ it :: its';
  law_Evict : ∀ u its, tr u its →
    ∃ v u', Updater.Evict u = Some (v, u') ∧
            match v with
            | None => tr u' its
            | Some x => ∃ its', tr u' its' ∧ its ≡ₚ x :: its'
            end;
  law_Clear : ∀ u its, tr u its → ∃ u', Updater.Clear u = Some u' ∧ tr u' []
}.

(** An updater that gives up an item whenever it tracks one. *)
Definition evicting : Prop :=
  ∀ u its, tr u its → its ≠ [] → ∃ x u', Updater.Evict u = Some (Some x, u').

(** The invariant of a bucket whose updater keeps the contract; the
    bound on the number of items holds for an evicting updater. *)
Definition inv (b : Bucket T) : Prop :=
  ∃ its,
    tr (updater b) its ∧
    Invariant.lockstep (cache b) (heap b) its ∧
    size (cache b) = length its ∧
    (closed b = false → Chan.closed (stopCleanup b) = false) ∧
    (evicting → Z.of_nat (length its) ≤ Z.max (maxSize b) 1).

End contract.

End Contract.

(** The good states of the two updaters of the example. *)
Definition tracks_random (u : Updater.Updater) (its : list loc) : Prop :=
  u = Random.updater (Random.MkRandom its) ∧ NoDup its.

Definition tracks_frequency (u : Updater.Updater) (its : list loc) : Prop :=
  ∃ fq, u = Frequency.updater (Frequency.MkFrequency its fq) ∧ NoDup its ∧
        ∀ it, it ∈ its → is_Some (fq !! it).

(** ** The kind of the updater of a bucket *)

Section kind_defs.
Import Heatwave.
Context {E : Expiration} {T : Type}.

(** The updater of [b] is an LRU list that holds [its], most recently
    used first. *)
Definition lru_kind (b : Bucket T) (its : list loc) : Prop :=
  ∃ l, updater b = Updater.of_lru l ∧ LruRepr.repr l its.

(** The updater of [b] is a FIFO slice that holds [its], oldest first. *)
Definition fifo_kind (b : Bucket T) (its : list loc) : Prop :=
  updater b = Updater.of_fifo (Fifo.MkFifo its).

End kind_defs.

(** ** The two locks of a bucket *)

(** The methods of the newer revision seen through their lock operations
    only: what a goroutine running a method does to [b.mutex] (a
    [sync.RWMutex]) and [b.closeMutex] (a [sync.Mutex]), in program order.
    A deferred unlock runs at the return. Nothing else in these methods
    blocks: the send of [Close] is in a [select] with a [default]. *)
Module Locks.

Inductive lock := mutex | closeMutex.

Inductive op :=
| Lock (m : lock)
| Unlock (m : lock)
| RLock (m : lock)
| RUnlock (m : lock).

#[global] Instance lock_eq_dec : EqDecision lock.
Proof. solve_decision. Defined.

#[global] Instance op_eq_dec : EqDecision op.
Proof. solve_decision. Defined.

(** [func (b *Bucket[T]) isClosed() bool] *)
Definition isClosed : list op := [Lock closeMutex; Unlock closeMutex].

(** [func (b *Bucket[T]) IsClosed() bool] *)
Definition IsClosed : list op := isClosed.

(** [Nail], [Bring] and [Clear]: [b.mutex.Lock()], [defer
    b.mutex.Unlock()], then [b.isClosed()]. *)
Definition Nail : list op := Lock mutex :: isClosed ++ [Unlock mutex].
Definition Bring : list op := Lock mutex :: isClosed ++ [Unlock mutex].
Definition Clear : list op := Lock mutex :: isClosed ++ [Unlock mutex].

(** [Size]: [b.mutex.RLock()], [defer b.mutex.RUnlock()], then
    [b.isClosed()]. *)
Definition Size : list op := RLock mutex :: isClosed ++ [RUnlock mutex].

(** [cleanupExpired]: [b.mutex.Lock()], [defer b.mutex.Unlock()]; it reads
    [b.closed] without a call of [isClosed]. *)
Definition cleanupExpired : list op := [Lock mutex; Unlock mutex].

(** A tick in [startCleanup]: [b.isClosed()], then [b.cleanupExpired()]. *)
Definition tick : list op := isClosed ++ cleanupExpired.

(** [Close] of an open bucket: [b.closeMutex.Lock()], [defer
    b.closeMutex.Unlock()], and further down [b.mutex.Lock()] ...
    [b.mutex.Unlock()]. *)
Definition Close : list op :=
  [Lock closeMutex; Lock mutex; Unlock mutex; Unlock closeMutex].

(** [Close] of a closed bucket returns after the test of [b.closed]. *)
Definition CloseAgain : list op := [Lock closeMutex; Unlock closeMutex].

(** A lock is held by one goroutine for writing or by some for reading. *)
Record held := MkHeld { writer : option nat; readers : list nat }.

(** The locks, and what each goroutine has still to do. *)
Record state := MkState { locks : lock → held; threads : list (list op) }.

Definition free : held := MkHeld None [].

Definition init (ths : list (list op)) : state := MkState (λ _, free) ths.

Definition upd (m : lock) (h : held) (f : lock → held) : lock → held :=
  λ m', if decide (m' = m) then h else f m'.

(** The goroutine [i] makes its next lock operation. [None]: it has
    finished, or the operation has to wait ([Lock] while the lock is held
    in any way, [RLock] while a writer holds it), or it unlocks what it
    does not hold. *)
Definition exec (i : nat) (st : state) : option state :=
  match threads st !! i with
  | Some (o :: rest) =>
      let next m h := Some (MkState (upd m h (locks st)) (<[i := rest]> (threads st))) in
      match o with
      | Lock m =>
          if decide (writer (locks st m) = None ∧ readers (locks st m) = [])
          then next m (MkHeld (Some i) []) else None
      | RLock m =>
          if decide (writer (locks st m) = None)
          then next m (MkHeld None (i :: readers (locks st m))) else None
      | Unlock m =>
          if decide (writer (locks st m) = Some i)
          then next m (MkHeld None (readers (locks st m))) else None
      | RUnlock m =>
          if decide (i ∈ readers (locks st m))
          then next m (MkHeld (writer (locks st m))
                              (filter (λ j, j ≠ i) (readers (locks st m))))
          else None
      end
  | _ => None
  end.

(** A schedule: which goroutine makes the next step. *)
Fixpoint run (sched : list nat) (st : state) : option state :=
  match sched with
  | [] => Some st
  | i :: sched' => st' ← exec i st; run sched' st'
  end.

(** The goroutine [i] waits for a lock that another goroutine holds. *)
Definition waits (st : state) (i : nat) : Prop :=
  ∃ m rest j, j ≠ i ∧
    ((threads st !! i = Some (Lock m :: rest) ∧
      (writer (locks st m) = Some j ∨ j ∈ readers (locks st m))) ∨
     (threads st !! i = Some (RLock m :: rest) ∧ writer (locks st m) = Some j)).

End Locks.

(** ** Goroutines that hold locks in the order of the methods *)

Module LockOrder.
Import Locks.

(** The methods other than the [Close] of an open bucket. *)
Definition methods : list (list op) :=
  [Nail; Bring; Clear; Size; IsClosed; cleanupExpired; tick; CloseAgain].

Definition lock_of (o : op) : lock :=
  match o with Lock m | Unlock m | RLock m | RUnlock m => m end.

(** A goroutine that has still to do [r] holds [m] for writing: the
    first operation on [m] in [r] is its [Unlock]. *)
Fixpoint holds (m : lock) (r : list op) : bool :=
  match r with
  | [] => false
  | o :: r' =>
      if decide (lock_of o = m)
      then match o with Unlock _ => true | _ => false end
      else holds m r'
  end.

(** It holds [m] for reading: the first operation on [m] is its
    [RUnlock]. *)
Fixpoint rholds (m : lock) (r : list op) : bool :=
  match r with
  | [] => false
  | o :: r' =>
      if decide (lock_of o = m)
      then match o with RUnlock _ => true | _ => false end
      else rholds m r'
  end.

Fixpoint tails (r : list op) : list (list op) :=
  r :: match r with [] => [] | _ :: r' => tails r' end.

(** What a goroutine that runs one of the methods may have still to do. *)
Definition allowed : list (list op) := methods ≫= tails.

(** The next operation [o] of a goroutine changes what it holds as the
    operation says, and the locks are taken in the order [mutex],
    [closeMutex]: who holds [closeMutex] unlocks it next, and who holds
    [mutex] takes [closeMutex] or gives [mutex] back. *)
Definition well_ordered (r : list op) : bool :=
  negb (rholds closeMutex r) &&
  match r with
  | [] => true
  | o :: r' =>
      bool_decide (r' ∈ allowed) &&
      match o with
      | Lock m => holds m r' && negb (rholds m r') &&
                  negb (holds closeMutex r) &&
                  (bool_decide (m = closeMutex) || negb (holds mutex r) && negb (rholds mutex r))
      | Unlock m => negb (holds m r') && negb (rholds m r') &&
                    (bool_decide (m = closeMutex) || negb (holds closeMutex r))
      | RLock m => rholds m r' && negb (holds m r') &&
                   bool_decide (m = mutex) &&
                   negb (holds closeMutex r) && negb (holds mutex r) && negb (rholds mutex r)
      | RUnlock m => negb (rholds m r') && negb (holds m r') &&
                     negb (holds closeMutex r)
      end
  end.

(** The locks are held by the goroutines that the rest of their method
    says hold them. *)
Definition consistent (st : state) : Prop :=
  (∀ i r, threads st !! i = Some r → r ∈ allowed) ∧
  (∀ m i, writer (locks st m) = Some i ↔
          ∃ r, threads st !! i = Some r ∧ holds m r = true) ∧
  (∀ m i, i ∈ readers (locks st m) ↔
          ∃ r, threads st !! i = Some r ∧ rholds m r = true).

(** The next operation takes a lock for writing. *)
Definition next_is_lock (r : list op) : bool :=
  match r with Lock _ :: _ => true | _ => false end.

(** A goroutine that makes a step if it is scheduled, also where an
    [RLock] waits for every goroutine that is about to take the lock for
    writing (a [sync.RWMutex] lets a waiting writer go first). *)
Definition ready (st : state) (i : nat) : Prop :=
  is_Some (exec i st) ∧
  ∀ m rest, threads st !! i = Some (RLock m :: rest) →
            ∀ j rest', threads st !! j = Some (Lock m :: rest') → False.

End LockOrder.

(** ** What a key holds, and calls that spare an entry *)

Section history_defs.
Import Heatwave.
Context {E : Expiration} {T : Type}.

(** [keeps b id it]: a reader of key [id] finds the item [it] or nothing:
    the bucket is closed, or the table has no entry for [id], or its entry
    points to [it]. *)
Definition keeps (b : Bucket T) (id : string) (it : CacheItem T) : Prop :=
  closed b = true ∨ cache b !! id = None ∨
  ∃ p, cache b !! id = Some p ∧ heap b !! p = Some it.

(** The calls that cannot take away an entry of key [id] whose deadline
    is [dl]: reads of other keys, and reads of [id] and sweeps at a time
    at which [dl] has not passed. *)
Definition spares (id : string) (dl : Time) (c : Call T) : Prop :=
  match c with
  | CallBring k t => k ≠ id ∨ after t dl = false
  | CallTick t _ => after t dl = false
  | _ => False
  end.

End history_defs.

(** * Proofs *)

(** ** Machine integers *)

Lemma wrap_in_range z : GoInt.in_range z → GoInt.wrap z = z.
Proof.
  unfold GoInt.in_range, GoInt.wrap, GoInt.min_int, GoInt.max_int. intros Hz.
  rewrite Z.mod_small; lia.
Qed.

(** In the older revision a second [Close] panics: the channel is closed
    already. The [closed] flag of the newer revision guards against it. *)
Lemma legacy_second_Close_panics c c' : Legacy.Close c = Some c' → Legacy.Close c' = None.
Proof.
  unfold Legacy.Close, Chan.close. destruct (Chan.closed c); [done|]. by intros [= <-].
Qed.

(** ** The doubly linked list *)

Section lru_memory.
Import Lru LruRepr.
Implicit Types (m : gmap ptr lruNode) (a b n : ptr) (l : lru).

Lemma nxt_insert m a nd x :
  nxt (<[a := nd]> m) x = if decide (x = a) then next nd else nxt m x.
Proof. unfold nxt. case_decide; simplify_map_eq; done. Qed.

Lemma prv_insert m a nd x :
  prv (<[a := nd]> m) x = if decide (x = a) then prev nd else prv m x.
Proof. unfold prv. case_decide; simplify_map_eq; done. Qed.

Lemma itm_insert m a nd x :
  itm (<[a := nd]> m) x = if decide (x = a) then item nd else itm m x.
Proof. unfold itm. case_decide; simplify_map_eq; done. Qed.

Lemma linked_cons m a b rest :
  linked m (a :: b :: rest) ↔ nxt m a = Some b ∧ prv m b = Some a ∧ linked m (b :: rest).
Proof. simpl. tauto. Qed.

Lemma linked_app m xs a ys :
  linked m (xs ++ a :: ys) ↔ linked m (xs ++ [a]) ∧ linked m (a :: ys).
Proof.
  induction xs as [|x xs IH].
  - simpl. tauto.
  - destruct xs as [|y xs].
    + simpl. destruct ys; tauto.
    + rewrite <- !app_comm_cons in *. rewrite !linked_cons. tauto.
Qed.

(** A memory that agrees with [m] on the links the list uses keeps it
    linked: [next] matters for all cells but the last, [prev] for all but
    the first. *)
Lemma linked_ext m m' cs :
  linked m cs →
  (∀ x, x ∈ removelast cs → nxt m' x = nxt m x) →
  (∀ x, x ∈ tl cs → prv m' x = prv m x) →
  linked m' cs.
Proof.
  induction cs as [|a cs IH]; [done|].
  destruct cs as [|b cs]; [done|].
  rewrite !linked_cons. intros (Hn & Hp & Hl) Hnxt Hprv. split_and!.
  - rewrite Hnxt; [done|]. change (a ∈ a :: removelast (b :: cs)). apply elem_of_cons; by left.
  - rewrite Hprv; [done|]. simpl. apply elem_of_cons; by left.
  - apply IH; [done| |].
    + intros x Hx. apply Hnxt. change (x ∈ a :: removelast (b :: cs)).
      apply elem_of_cons; by right.
    + intros x Hx. apply Hprv. simpl in *. apply elem_of_cons; by right.
Qed.

Lemma elem_of_removelast {A} (x : A) (xs : list A) : x ∈ removelast xs → x ∈ xs.
Proof.
  induction xs as [|y [|z xs] IH]; simpl; [done|by intros ?%elem_of_nil|].
  intros [->|H]%elem_of_cons; apply elem_of_cons; [by left|]. right. by apply IH.
Qed.

Lemma elem_of_tl {A} (x : A) (xs : list A) : x ∈ tl xs → x ∈ xs.
Proof. destruct xs; simpl; [done|]. set_solver. Qed.

(** Unlinking the cell [n] between [a] and [b]. *)
Lemma linked_unlink m m' xs a n b ys :
  NoDup (xs ++ a :: n :: b :: ys) →
  linked m (xs ++ a :: n :: b :: ys) →
  (∀ x, nxt m' x = if decide (x = a) then Some b else nxt m x) →
  (∀ x, prv m' x = if decide (x = b) then Some a else prv m x) →
  linked m' (xs ++ a :: b :: ys).
Proof.
  intros Hnd Hl Hn Hp.
  apply NoDup_app in Hnd as (Hxs & Hdisj & Hrest).
  apply NoDup_cons in Hrest as (Ha & Hrest).
  apply NoDup_cons in Hrest as (Hnn & Hrest).
  apply NoDup_cons in Hrest as (Hb & Hys).
  apply linked_app in Hl as (Hl1 & Hl2).
  rewrite !linked_cons in Hl2. destruct Hl2 as (_ & _ & _ & _ & Hl2).
  apply linked_app. split.
  - eapply linked_ext; [exact Hl1| |].
    + intros x Hx. rewrite removelast_last in Hx. rewrite Hn.
      case_decide; [|done]. subst. exfalso. eapply Hdisj; [done|set_solver].
    + intros x Hx%elem_of_tl. rewrite Hp. case_decide; [|done]. subst. exfalso.
      apply elem_of_app in Hx as [Hx|Hx%list_elem_of_singleton].
      * eapply Hdisj; [done|]. set_solver.
      * subst. set_solver.
  - rewrite linked_cons. split_and!.
    + rewrite Hn. by rewrite decide_True.
    + rewrite Hp. by rewrite decide_True.
    + eapply linked_ext; [exact Hl2| |].
      * intros x Hx%elem_of_removelast. rewrite Hn. case_decide; [|done].
        subst. set_solver.
      * intros x Hx. simpl in Hx. rewrite Hp. case_decide; [|done]. by subst.
Qed.

(** Linking the cell [n] right after the first cell [h]. *)
Lemma linked_link m m' h n f ys :
  NoDup (h :: f :: ys) → n ∉ h :: f :: ys →
  linked m (h :: f :: ys) →
  (∀ x, nxt m' x = if decide (x = h) then Some n
                   else if decide (x = n) then Some f else nxt m x) →
  (∀ x, prv m' x = if decide (x = f) then Some n
                   else if decide (x = n) then Some h else prv m x) →
  linked m' (h :: n :: f :: ys).
Proof.
  intros Hnd Hnin Hl Hn Hp.
  apply NoDup_cons in Hnd as (Hh & Hnd). apply NoDup_cons in Hnd as (Hf & Hys).
  rewrite linked_cons in Hl. destruct Hl as (_ & _ & Hl).
  rewrite !linked_cons. split_and!.
  - rewrite Hn. by rewrite decide_True.
  - rewrite Hp. rewrite decide_False by set_solver. by rewrite decide_True.
  - rewrite Hn. rewrite decide_False by set_solver. by rewrite decide_True.
  - rewrite Hp. by rewrite decide_True.
  - eapply linked_ext; [exact Hl| |].
    + intros x Hx%elem_of_removelast. rewrite Hn.
      rewrite !decide_False; [done|set_solver..].
    + intros x Hx. simpl in Hx. rewrite Hp.
      rewrite !decide_False; [done|set_solver..].
Qed.

Lemma cons_snoc {A} (x : A) (xs : list A) : ∃ ys y, x :: xs = ys ++ [y].
Proof.
  revert x. induction xs as [|z xs IH]; intros x.
  - by exists [], x.
  - destruct (IH z) as (ys & y & ->). by exists (x :: ys), y.
Qed.

Lemma cells_set s m l ps : cells (set_size s (set_mem m l)) ps = cells l ps.
Proof. done. Qed.

Lemma removeNode_eq l n nd a b na nb :
  mem l !! n = Some nd → prev nd = Some a → next nd = Some b →
  mem l !! a = Some na → mem l !! b = Some nb →
  a ≠ n → b ≠ n → a ≠ b →
  removeNode (Some n) l =
    Some (set_size (GoInt.wrap (size l - 1))
            (set_mem (<[b := LruNode (item nb) (Some a) (next nb)]>
                        (<[a := LruNode (item na) (prev na) (Some b)]> (mem l))) l)).
Proof.
  intros Hn Hp Hx Ha Hb Han Hbn Hab.
  unfold removeNode, store_next, store_prev, load. simpl.
  rewrite Hn. simpl. rewrite Hp. simpl. rewrite Ha. simpl.
  rewrite lookup_insert_ne by done. rewrite Hn. simpl. rewrite Hx. simpl.
  rewrite lookup_insert_ne by done. rewrite Hb. simpl. by rewrite Hp.
Qed.

Lemma addNodeToHead_eq l n nn hn f fn :
  mem l !! n = Some nn → mem l !! head l = Some hn → next hn = Some f →
  mem l !! f = Some fn →
  n ≠ head l → n ≠ f → f ≠ head l →
  addNodeToHead n l =
    Some (set_size (GoInt.wrap (size l + 1))
            (set_mem (<[head l := LruNode (item hn) (prev hn) (Some n)]>
                        (<[f := LruNode (item fn) (Some n) (next fn)]>
                           (<[n := LruNode (item nn) (Some (head l)) (Some f)]>
                              (<[n := LruNode (item nn) (Some (head l)) (next nn)]> (mem l))))) l)).
Proof.
  intros Hn Hh Hhf Hf Hnh Hnf Hfh.
  unfold addNodeToHead, store_next, store_prev, load. simpl.
  rewrite Hn. simpl. rewrite (lookup_insert_ne _ n (head l)) by done.
  rewrite Hh. simpl. rewrite lookup_insert_eq. simpl.
  rewrite !(lookup_insert_ne _ n (head l)) by done. rewrite Hh. simpl.
  rewrite Hhf. simpl. rewrite !(lookup_insert_ne _ n f) by done. rewrite Hf. simpl.
  rewrite (lookup_insert_ne _ f (head l)) by done.
  rewrite !(lookup_insert_ne _ n (head l)) by done. rewrite Hh. simpl. done.
Qed.

Lemma shape_unlink l ps1 n it ps2 :
  shape l (ps1 ++ (n, it) :: ps2) →
  ∃ l', (removeNode (Some n) l = Some l') ∧
        shape l' (ps1 ++ ps2) ∧
        (head l' = head l) ∧ (tail l' = tail l) ∧ (nodeMap l' = nodeMap l) ∧
        (size l' = GoInt.wrap (size l - 1)) ∧
        (n ∉ cells l' (ps1 ++ ps2)) ∧
        (itm (mem l') n = Some it).
Proof.
  intros (Hnd & Hl & Hal & Hit).
  destruct (cons_snoc (head l) ps1.*1) as (xs & a & Hxs).
  assert (∃ b ys, ps2.*1 ++ [tail l] = b :: ys) as (b & ys & Hys).
  { destruct ps2.*1; simpl; eauto. }
  assert (Hc : cells l (ps1 ++ (n, it) :: ps2) = xs ++ a :: n :: b :: ys).
  { unfold cells. rewrite fmap_app, fmap_cons. cbn [fst].
    rewrite <- app_assoc, <- app_comm_cons, Hys.
    rewrite app_comm_cons, Hxs. by rewrite <- app_assoc. }
  assert (Hc' : cells l (ps1 ++ ps2) = xs ++ a :: b :: ys).
  { unfold cells. rewrite fmap_app, <- app_assoc, Hys.
    rewrite app_comm_cons, Hxs. by rewrite <- app_assoc. }
  rewrite Hc in *.
  assert (a ≠ n ∧ b ≠ n ∧ a ≠ b ∧ n ∉ xs ++ a :: b :: ys) as (Han & Hbn & Hab & Hnin).
  { apply NoDup_app in Hnd as (_ & Hdisj & Hrest).
    apply NoDup_cons in Hrest as (Ha & Hrest).
    apply NoDup_cons in Hrest as (Hn' & Hrest).
    split_and!; [set_solver..|].
    intros [Hin|Hin]%elem_of_app; [apply (Hdisj n Hin)|]; set_solver. }
  destruct (Hal n) as [nd Hnd']; [set_solver|].
  destruct (Hal a) as [na Hna]; [set_solver|].
  destruct (Hal b) as [nb Hnb]; [set_solver|].
  pose proof Hl as Hl0.
  apply linked_app in Hl0 as (_ & Hl0). rewrite !linked_cons in Hl0.
  destruct Hl0 as (_ & Hpn & Hnn & _ & _).
  unfold prv in Hpn. unfold nxt in Hnn. rewrite Hnd' in Hpn, Hnn. simpl in *.
  eexists. split; [by eapply removeNode_eq|].
  rewrite !cells_set, Hc'. unfold shape. rewrite !cells_set, Hc'.
  cbn [mem head tail size nodeMap set_size set_mem]. split_and!; try done.
  - apply NoDup_app in Hnd as (? & Hdisj & Hrest). apply NoDup_app. split_and!; [done| |].
    + intros x Hx Hx'. apply (Hdisj x Hx). set_solver.
    + apply NoDup_cons in Hrest as (? & Hrest). apply NoDup_cons in Hrest as (? & Hrest).
      apply NoDup_cons. split; [set_solver|done].
  - eapply linked_unlink; [exact Hnd|exact Hl| |].
    + intros x. rewrite !nxt_insert. simpl.
      destruct (decide (x = b)) as [->|]; [|done].
      rewrite decide_False by done. unfold nxt. by rewrite Hnb.
    + intros x. rewrite !prv_insert. simpl.
      destruct (decide (x = b)) as [->|]; [done|].
      destruct (decide (x = a)) as [->|]; [|done]. unfold prv. by rewrite Hna.
  - intros x Hx. rewrite !lookup_insert. repeat case_decide; try done.
    apply Hal. set_solver.
  - intros n' it' Hin. rewrite !itm_insert. simpl.
    assert ((n', it') ∈ ps1 ++ (n, it) :: ps2) as Hin' by set_solver.
    specialize (Hit n' it' Hin'). unfold itm in Hit.
    repeat case_decide; subst; [by rewrite Hnb in Hit|by rewrite Hna in Hit|done].
  - rewrite !itm_insert. simpl. rewrite !decide_False by done. apply Hit. set_solver.
Qed.

Lemma shape_link l ps n nn it :
  shape l ps →
  mem l !! n = Some nn → item nn = Some it → n ∉ cells l ps →
  ∃ l', (addNodeToHead n l = Some l') ∧
        shape l' ((n, it) :: ps) ∧
        (head l' = head l) ∧ (tail l' = tail l) ∧ (nodeMap l' = nodeMap l) ∧
        (size l' = GoInt.wrap (size l + 1)).
Proof.
  intros (Hnd & Hl & Hal & Hit) Hn Hitn Hnin.
  assert (∃ f ys, ps.*1 ++ [tail l] = f :: ys) as (f & ys & Hys).
  { destruct ps.*1; simpl; eauto. }
  assert (Hc : cells l ps = head l :: f :: ys) by (unfold cells; by rewrite Hys).
  assert (Hc' : cells l ((n, it) :: ps) = head l :: n :: f :: ys).
  { unfold cells. rewrite fmap_cons. cbn [fst]. by rewrite <- app_comm_cons, Hys. }
  rewrite Hc in *.
  destruct (Hal (head l)) as [hn Hhn]; [set_solver|].
  destruct (Hal f) as [fn Hfn]; [set_solver|].
  pose proof Hl as Hl0. rewrite linked_cons in Hl0. destruct Hl0 as (Hhf & _ & _).
  unfold nxt in Hhf. rewrite Hhn in Hhf. simpl in Hhf.
  assert (n ≠ head l ∧ n ≠ f ∧ f ≠ head l) as (Hnh & Hnf & Hfh).
  { apply NoDup_cons in Hnd as (? & _). set_solver. }
  eexists. split; [by eapply addNodeToHead_eq|].
  unfold shape. rewrite !cells_set, Hc'.
  cbn [mem head tail size nodeMap set_size set_mem]. split_and!; try done.
  - apply NoDup_cons in Hnd as (? & Hnd). apply NoDup_cons. split; [set_solver|].
    apply NoDup_cons. split; [set_solver|done].
  - eapply linked_link; [exact Hnd|exact Hnin|exact Hl| |].
    + intros x. rewrite !nxt_insert. simpl.
      destruct (decide (x = head l)) as [->|]; [done|].
      destruct (decide (x = f)) as [->|]; [|by repeat case_decide].
      rewrite decide_False by done. unfold nxt. by rewrite Hfn.
    + intros x. rewrite !prv_insert. simpl.
      destruct (decide (x = head l)) as [->|].
      * rewrite !decide_False by done. unfold prv. by rewrite Hhn.
      * destruct (decide (x = f)) as [->|]; by repeat case_decide.
  - intros x Hx. rewrite !lookup_insert. repeat case_decide; try done.
    apply Hal. set_solver.
  - intros n' it' Hin. rewrite !itm_insert. simpl.
    apply elem_of_cons in Hin as [[= -> ->]|Hin].
    + by rewrite decide_False, decide_False, decide_True.
    + specialize (Hit n' it' Hin). unfold itm in Hit.
      assert (n' ≠ n).
      { intros ->. apply Hnin. apply elem_of_cons. right.
        rewrite <- Hys. apply elem_of_app. left.
        apply list_elem_of_fmap. by exists (n, it'). }
      repeat case_decide; subst; [by rewrite Hhn in Hit|by rewrite Hfn in Hit|done|done].
Qed.

(** A cell allocated at a new address leaves the list as it is. *)
Lemma shape_alloc l ps nd :
  shape l ps →
  let n := fresh (dom (mem l)) in
  shape (set_mem (<[n := nd]> (mem l)) l) ps ∧ n ∉ cells l ps.
Proof.
  intros (Hnd & Hl & Hal & Hit) n.
  assert (Hfresh : mem l !! n = None).
  { apply not_elem_of_dom. apply is_fresh. }
  assert (Hnin : n ∉ cells l ps).
  { intros [? Hx]%Hal. congruence. }
  split; [|done]. unfold shape.
  change (cells (set_mem _ l) ps) with (cells l ps).
  cbn [mem set_mem]. split_and!; [done| | |].
  - eapply linked_ext; [exact Hl| |].
    + intros x Hx%elem_of_removelast. rewrite nxt_insert. case_decide; [by subst|done].
    + intros x Hx%elem_of_tl. rewrite prv_insert. case_decide; [by subst|done].
  - intros x Hx. rewrite lookup_insert. case_decide; [done|by apply Hal].
  - intros n' it' Hin. rewrite itm_insert. case_decide; [|by apply Hit].
    subst. apply Hit in Hin. unfold itm in Hin. by rewrite Hfresh in Hin.
Qed.

End lru_memory.

(** ** The LRU updater keeps its representation *)

Section lru_repr.
Import Lru LruRepr.
Implicit Types (l : lru) (it : loc) (its : list loc).

Lemma repr_NoDup l its : repr l its → NoDup its.
Proof. by intros (ps & _ & ? & _). Qed.

Lemma Size_repr l its : repr l its → Size l = Z.of_nat (length its).
Proof. by intros (ps & _ & _ & _ & _ & ? & _). Qed.

Lemma reset_repr m : repr (reset m) [].
Proof.
  unfold reset, alloc.
  set (h := fresh (dom m)). set (t := fresh (dom (<[h := _]> m))).
  assert (Hht : h ≠ t).
  { intros Heq. pose proof (is_fresh (dom (<[h := LruNode None None None]> m))) as Hf.
    fold t in Hf. rewrite <- Heq in Hf. apply Hf. set_solver. }
  exists []. unfold shape, cells. cbn [fmap list_fmap app head tail mem size nodeMap length].
  split_and!; try done.
  - apply NoDup_nil_2.
  - apply NoDup_cons. split; [set_solver|]. apply NoDup_singleton.
  - simpl. split_and!; try done.
    + unfold nxt. rewrite lookup_insert_ne by done. by rewrite lookup_insert_eq.
    + unfold prv. by rewrite lookup_insert_eq.
  - intros a Ha. rewrite !lookup_insert. repeat case_decide; try done. set_solver.
  - intros n it Hin. set_solver.
  - intros it n. rewrite lookup_empty. set_solver.
Qed.

Lemma newLRUUpdater_repr : repr newLRUUpdater [].
Proof. apply reset_repr. Qed.

Lemma Clear_repr l : ∃ l', Clear l = Some l' ∧ repr l' [].
Proof. eexists. split; [done|]. apply reset_repr. Qed.

(** [Add] puts the new item in front. *)
Lemma Add_repr l its it :
  repr l its → it ∉ its → Z.of_nat (length its) < GoInt.max_int →
  ∃ l', Add it l = Some l' ∧ repr l' (it :: its).
Proof.
  intros (ps & -> & Hnd & Hsh & Hmap & Hsz & Hmax) Hit Hlt.
  unfold Add, alloc. set (n := fresh (dom (mem l))).
  destruct (shape_alloc l ps (LruNode (Some it) None None) Hsh) as (Hsh1 & Hnin).
  fold n in Hsh1, Hnin.
  set (l1 := set_nodeMap _ _).
  destruct (shape_link l1 ps n (LruNode (Some it) None None) it) as (l' & Hadd & Hsh' & Hh & Ht & Hnm & Hs).
  - exact Hsh1.
  - simpl. by rewrite lookup_insert_eq.
  - done.
  - exact Hnin.
  - exists l'. split; [done|]. exists ((n, it) :: ps). split_and!.
    + done.
    + simpl. apply NoDup_cons. by split.
    + done.
    + intros it' n'. rewrite Hnm. simpl. rewrite lookup_insert, elem_of_cons.
      case_decide as Hd.
      * subst it'. split; [intros [= <-]; by left|].
        intros [[= ->]|Hin]; [done|]. exfalso. apply Hit.
        apply list_elem_of_fmap. by exists (n', it).
      * rewrite Hmap. split; [by right|]. intros [[= _ ->]|]; done.
    + rewrite Hs. simpl. rewrite Hsz. rewrite wrap_in_range.
      * rewrite length_fmap in *. lia.
      * unfold GoInt.in_range, GoInt.min_int. lia.
    + simpl. rewrite length_fmap in *. simpl in *. lia.
Qed.

Lemma split_nodes (ps : list (ptr * loc)) its1 it its2 :
  ps.*2 = its1 ++ it :: its2 →
  ∃ ps1 n ps2, ps = ps1 ++ (n, it) :: ps2 ∧ ps1.*2 = its1 ∧ ps2.*2 = its2.
Proof.
  intros (ps1 & ps' & -> & H2 & ->)%fmap_app_inv.
  symmetry in H2. apply fmap_cons_inv in H2 as ([n it'] & ps2 & -> & -> & ->).
  by exists ps1, n, ps2.
Qed.

(** Membership in the node list after taking one node out, for a list
    without duplicate items. *)
Lemma elem_of_unlinked (ps1 ps2 : list (ptr * loc)) n it n' it' :
  NoDup (ps1 ++ (n, it) :: ps2).*2 →
  (n', it') ∈ ps1 ++ ps2 ↔ (n', it') ∈ ps1 ++ (n, it) :: ps2 ∧ it' ≠ it.
Proof.
  rewrite fmap_app, fmap_cons. cbn [snd]. intros Hnd.
  apply NoDup_app in Hnd as (_ & Hdisj & Hnd). apply NoDup_cons in Hnd as (Hnin & _).
  rewrite !elem_of_app, elem_of_cons. split.
  - intros [Hin|Hin]; (split; [tauto|]); intros ->.
    + apply (Hdisj it); [apply list_elem_of_fmap; by exists (n', it)|set_solver].
    + apply Hnin. apply list_elem_of_fmap. by exists (n', it).
  - intros ([Hin|[[= -> ->]|Hin]] & Hne); tauto.
Qed.

(** [Access] moves the item to the front. *)
Lemma Access_repr l its1 it its2 :
  repr l (its1 ++ it :: its2) →
  ∃ l', Access it l = Some l' ∧ repr l' (it :: its1 ++ its2).
Proof.
  intros (ps & Hps & Hnd & Hsh & Hmap & Hsz & Hmax).
  symmetry in Hps. destruct (split_nodes _ _ _ _ Hps) as (ps1 & n & ps2 & -> & <- & <-).
  unfold Access. rewrite (proj2 (Hmap it n)) by set_solver.
  unfold moveNodeToHead.
  destruct (shape_unlink l ps1 n it ps2 Hsh)
    as (l1 & -> & Hsh1 & Hh1 & Ht1 & Hnm1 & Hs1 & Hnin & Hitm).
  simpl. unfold itm in Hitm. destruct (mem l1 !! n) as [nn|] eqn:Hnn; [|done].
  simpl in Hitm.
  destruct (shape_link l1 (ps1 ++ ps2) n nn it Hsh1 Hnn Hitm Hnin)
    as (l' & -> & Hsh' & Hh' & Ht' & Hnm' & Hs').
  exists l'. split; [done|]. exists ((n, it) :: ps1 ++ ps2).
  rewrite length_app in Hsz, Hmax. simpl in Hsz, Hmax.
  split_and!.
  - by rewrite fmap_cons, fmap_app.
  - apply NoDup_app in Hnd as (? & Hdisj & Hnd'). apply NoDup_cons in Hnd' as (? & ?).
    apply NoDup_cons. split.
    + intros [Hin|Hin]%elem_of_app; [apply (Hdisj it Hin); set_solver|done].
    + apply NoDup_app. split_and!; [done| |done].
      intros x Hx Hx'. apply (Hdisj x Hx). set_solver.
  - done.
  - intros it' n'. rewrite Hnm', Hnm1, Hmap.
    rewrite elem_of_cons, !elem_of_app, elem_of_cons. tauto.
  - rewrite Hs', Hs1, Hsz. simpl. rewrite length_app.
    rewrite (wrap_in_range (_ - 1)), wrap_in_range;
      unfold GoInt.in_range, GoInt.min_int, GoInt.max_int in *; lia.
  - simpl. rewrite length_app. lia.
Qed.

(** [Access] of an item that is not tracked does nothing. *)
Lemma Access_untracked l its it :
  repr l its → it ∉ its → Access it l = Some l.
Proof.
  intros (ps & -> & Hnd & Hsh & Hmap & Hsz & Hmax) Hnin. unfold Access.
  destruct (nodeMap l !! it) as [n|] eqn:Hn; [|done].
  exfalso. apply Hnin. apply Hmap in Hn. apply list_elem_of_fmap. by exists (n, it).
Qed.

(** [Remove] takes the item out and keeps the order of the others. *)
Lemma Remove_repr l its1 it its2 :
  repr l (its1 ++ it :: its2) →
  ∃ l', Remove it l = Some l' ∧ repr l' (its1 ++ its2).
Proof.
  intros (ps & Hps & Hnd & Hsh & Hmap & Hsz & Hmax).
  symmetry in Hps. destruct (split_nodes _ _ _ _ Hps) as (ps1 & n & ps2 & -> & <- & <-).
  unfold Remove. rewrite (proj2 (Hmap it n)) by set_solver.
  destruct (shape_unlink l ps1 n it ps2 Hsh)
    as (l1 & -> & Hsh1 & Hh1 & Ht1 & Hnm1 & Hs1 & Hnin & Hitm).
  simpl. eexists. split; [done|]. exists (ps1 ++ ps2).
  pose proof Hnd as Hnd0. rewrite <- Hps in Hnd0.
  rewrite length_app in Hsz, Hmax. simpl in Hsz, Hmax.
  split_and!.
  - by rewrite fmap_app.
  - apply NoDup_app in Hnd as (? & Hdisj & Hnd'). apply NoDup_cons in Hnd' as (? & ?).
    apply NoDup_app. split_and!; [done| |done].
    intros x Hx Hx'. apply (Hdisj x Hx). set_solver.
  - done.
  - intros it' n'. cbn [nodeMap set_nodeMap]. rewrite Hnm1.
    rewrite (elem_of_unlinked ps1 ps2 n it n' it' Hnd0), <- Hmap.
    rewrite lookup_delete. case_decide; [subst|]; naive_solver.
  - cbn [size set_nodeMap]. rewrite Hs1, Hsz, length_app.
    rewrite wrap_in_range; unfold GoInt.in_range, GoInt.min_int, GoInt.max_int in *; lia.
  - rewrite length_app. lia.
Qed.

(** [Remove] of an item that is not tracked does nothing. *)
Lemma Remove_untracked l its it :
  repr l its → it ∉ its → Remove it l = Some l.
Proof.
  intros (ps & -> & Hnd & Hsh & Hmap & Hsz & Hmax) Hnin. unfold Remove.
  destruct (nodeMap l !! it) as [n|] eqn:Hn; [|done].
  exfalso. apply Hnin. apply Hmap in Hn. apply list_elem_of_fmap. by exists (n, it).
Qed.

(** [Evict] on an empty list returns [nil]. *)
Lemma Evict_repr_nil l : repr l [] → Evict l = Some (None, l).
Proof.
  intros (ps & Hps & Hnd & Hsh & Hmap & Hsz & Hmax).
  unfold Evict, removeTail. by rewrite decide_True.
Qed.

(** [Evict] takes out the last item, the least recently used one. *)
Lemma Evict_repr l its it :
  repr l (its ++ [it]) →
  ∃ l', Evict l = Some (Some it, l') ∧ repr l' its.
Proof.
  intros (ps & Hps & Hnd & Hsh & Hmap & Hsz & Hmax).
  symmetry in Hps. destruct (split_nodes _ _ _ _ Hps) as (ps1 & n & ps2 & -> & <- & Hnil).
  apply fmap_nil_inv in Hnil as ->.
  rewrite length_app in Hsz, Hmax. simpl in Hsz, Hmax.
  unfold Evict, removeTail. rewrite decide_False by lia.
  pose proof Hsh as (_ & Hl & Hal & Hit).
  assert (Hc : cells l (ps1 ++ [(n, it)]) = (head l :: ps1.*1) ++ n :: [tail l]).
  { unfold cells. rewrite fmap_app. simpl. by rewrite <- app_assoc. }
  rewrite Hc in Hl, Hal. apply linked_app in Hl as (_ & Hl). rewrite linked_cons in Hl.
  destruct Hl as (_ & Hpt & _).
  unfold prv in Hpt. unfold load. simpl.
  destruct (mem l !! tail l) as [tn|] eqn:Htn; [|done]. simpl in *. rewrite Hpt. simpl.
  assert (Hitn : itm (mem l) n = Some it) by (apply Hit; set_solver).
  unfold itm in Hitn. destruct (mem l !! n) as [nn|] eqn:Hnn; [|done].
  simpl in *. rewrite Hitn.
  destruct (shape_unlink l ps1 n it [] Hsh)
    as (l1 & -> & Hsh1 & Hh1 & Ht1 & Hnm1 & Hs1 & Hnin & Hitm).
  simpl. eexists. split; [done|]. exists ps1. rewrite app_nil_r in Hsh1.
  pose proof Hnd as Hnd0. rewrite <- Hps in Hnd0.
  split_and!.
  - done.
  - by apply NoDup_app in Hnd as (? & _ & _).
  - done.
  - intros it' n'. cbn [nodeMap set_nodeMap]. rewrite Hnm1.
    pose proof (elem_of_unlinked ps1 [] n it n' it' Hnd0) as He.
    rewrite app_nil_r in He. rewrite He, <- Hmap.
    rewrite lookup_delete. case_decide; [subst|]; naive_solver.
  - cbn [size set_nodeMap]. rewrite Hs1, Hsz.
    rewrite wrap_in_range; unfold GoInt.in_range, GoInt.min_int, GoInt.max_int in *; lia.
  - lia.
Qed.

End lru_repr.

(** ** The FIFO updater *)

Section fifo.
Import Fifo.

Lemma splice_notin it l : it ∉ l → splice it l = l.
Proof.
  induction l as [|x l IH]; [done|]. intros Hnin. simpl.
  rewrite decide_False by set_solver. f_equal. apply IH. set_solver.
Qed.

Lemma splice_app it l1 l2 : it ∉ l1 → splice it (l1 ++ it :: l2) = l1 ++ l2.
Proof.
  induction l1 as [|x l1 IH]; intros Hnin; simpl.
  - by rewrite decide_True.
  - rewrite decide_False by set_solver. f_equal. apply IH. set_solver.
Qed.

End fifo.

(** ** The laws of the built-in updaters *)

Section tracks.
Implicit Types (u : Updater.Updater) (it : loc) (its : list loc).

Lemma tracks_NoDup u its : tracks u its → NoDup its.
Proof. destruct 1; [by eapply repr_NoDup|done]. Qed.

Lemma tracks_Size u its : tracks u its → Updater.Size u = Z.of_nat (length its).
Proof. destruct 1; [by apply Size_repr|done]. Qed.

Lemma tracks_newLRU : tracks (Updater.of_lru Lru.newLRUUpdater) [].
Proof. constructor. apply newLRUUpdater_repr. Qed.

Lemma tracks_newFIFO : tracks (Updater.of_fifo Fifo.newFIFO) [].
Proof. apply (tracks_fifo Fifo.newFIFO). apply NoDup_nil_2. Qed.

Lemma tracks_Add u its it :
  tracks u its → it ∉ its → Z.of_nat (length its) < GoInt.max_int →
  ∃ u' its', Updater.Add it u = Some u' ∧ tracks u' its' ∧ its' ≡ₚ it :: its.
Proof.
  destruct 1 as [l its Hr|f Hnd]; intros Hnin Hlt.
  - destruct (Add_repr l its it Hr Hnin Hlt) as (l' & Hadd & Hr').
    exists (Updater.of_lru l'), (it :: its). split_and!; [|by constructor|done].
    unfold Updater.Add. simpl. by rewrite Hadd.
  - exists (Updater.of_fifo (Fifo.MkFifo (Fifo.items f ++ [it]))), (Fifo.items f ++ [it]).
    split_and!; [done| |].
    + apply (tracks_fifo (Fifo.MkFifo _)). simpl. apply NoDup_app. split_and!; [done| |].
      * intros x Hx ->%list_elem_of_singleton. done.
      * apply NoDup_singleton.
    + by rewrite Permutation_app_comm.
Qed.

Lemma tracks_Access u its it :
  tracks u its →
  ∃ u' its', Updater.Access it u = Some u' ∧ tracks u' its' ∧ its' ≡ₚ its.
Proof.
  destruct 1 as [l its Hr|f Hnd].
  - destruct (decide (it ∈ its)) as [Hin|Hnin].
    + apply list_elem_of_split in Hin as (its1 & its2 & ->).
      destruct (Access_repr l its1 it its2 Hr) as (l' & Hacc & Hr').
      exists (Updater.of_lru l'), (it :: its1 ++ its2). split_and!; [|by constructor|].
      * unfold Updater.Access. simpl. by rewrite Hacc.
      * by rewrite Permutation_middle.
    + exists (Updater.of_lru l), its. split_and!; [|by constructor|done].
      unfold Updater.Access. simpl. by rewrite (Access_untracked l its it).
  - exists (Updater.of_fifo f), (Fifo.items f). split_and!; [done|by constructor|done].
Qed.

Lemma tracks_Remove u its it :
  tracks u its → it ∈ its →
  ∃ u' its', Updater.Remove it u = Some u' ∧ tracks u' its' ∧ its ≡ₚ it :: its'.
Proof.
  destruct 1 as [l its Hr|f Hnd]; intros Hin.
  - apply list_elem_of_split in Hin as (its1 & its2 & ->).
    destruct (Remove_repr l its1 it its2 Hr) as (l' & Hrem & Hr').
    exists (Updater.of_lru l'), (its1 ++ its2). split_and!; [|by constructor|].
    + unfold Updater.Remove. simpl. by rewrite Hrem.
    + by rewrite Permutation_middle.
  - apply list_elem_of_split_l in Hin as (its1 & its2 & Heq & Hnin).
    exists (Updater.of_fifo (Fifo.MkFifo (its1 ++ its2))), (its1 ++ its2). split_and!.
    + unfold Updater.Remove, Fifo.Remove. simpl. rewrite Heq. by rewrite splice_app.
    + apply (tracks_fifo (Fifo.MkFifo _)). simpl. rewrite Heq in Hnd.
      apply NoDup_app in Hnd as (? & Hdisj & Hnd'). apply NoDup_cons in Hnd' as (? & ?).
      apply NoDup_app. split_and!; [done| |done].
      intros x Hx Hx'. apply (Hdisj x Hx). set_solver.
    + rewrite Heq. by rewrite Permutation_middle.
Qed.

Lemma tracks_Evict_nil u : tracks u [] → Updater.Evict u = Some (None, u).
Proof.
  intros H. inversion H as [l its Hr Hu Hits|f Hnd Hu Hits].
  - unfold Updater.Evict. simpl. by rewrite (Evict_repr_nil l Hr).
  - unfold Updater.Evict. simpl. unfold Fifo.Evict. by rewrite Hits.
Qed.

Lemma tracks_Evict u its :
  tracks u its → its ≠ [] →
  ∃ v u' its', Updater.Evict u = Some (Some v, u') ∧ tracks u' its' ∧ its ≡ₚ v :: its'.
Proof.
  destruct 1 as [l its Hr|f Hnd]; intros Hne.
  - destruct its as [|x its] using rev_ind; [done|]. clear IHits.
    destruct (Evict_repr l its x Hr) as (l' & Hev & Hr').
    exists x, (Updater.of_lru l'), its. split_and!; [|by constructor|].
    + unfold Updater.Evict. simpl. by rewrite Hev.
    + by rewrite Permutation_app_comm.
  - destruct f as [[|x its]]; [done|]. simpl in *.
    exists x, (Updater.of_fifo (Fifo.MkFifo its)), its. split_and!; [done| |done].
    apply (tracks_fifo (Fifo.MkFifo _)). simpl. by apply NoDup_cons in Hnd as (? & ?).
Qed.

Lemma tracks_Clear u its :
  tracks u its → ∃ u', Updater.Clear u = Some u' ∧ tracks u' [].
Proof.
  destruct 1 as [l its Hr|f Hnd].
  - exists (Updater.of_lru (Lru.reset (Lru.mem l))). split; [done|].
    constructor. apply reset_repr.
  - exists (Updater.of_fifo (Fifo.MkFifo [])). split; [done|].
    apply (tracks_fifo (Fifo.MkFifo [])). apply NoDup_nil_2.
Qed.

End tracks.

(** ** The bucket keeps its invariant *)

Section bucket_inv.
Import Heatwave Invariant.
Context {E : Expiration} {T : Type}.
Implicit Types (b : Bucket T) (its : list loc) (c : gmap string loc)
  (h : gmap loc (CacheItem T)) (p : loc) (k id : string).

Lemma lockstep_perm c h its its' :
  its ≡ₚ its' → lockstep c h its → lockstep c h its'.
Proof.
  intros Hp (H1 & H2). split.
  - intros k p Hk. destruct (H1 k p Hk) as (? & ?). split; [by rewrite <- Hp|done].
  - intros p Hin. apply H2. by rewrite Hp.
Qed.

(** Deleting an entry from the table and its item from the tracked list. *)
Lemma lockstep_delete c h its its' k p :
  lockstep c h its → NoDup its → c !! k = Some p → its ≡ₚ p :: its' →
  lockstep (delete k c) h its' ∧ size (delete k c) = pred (size c).
Proof.
  intros (H1 & H2) Hnd Hk Hp. rewrite Hp in Hnd.
  apply NoDup_cons in Hnd as (Hnin & _).
  split; [split|].
  - intros k' q. rewrite lookup_delete. case_decide as Hd; [done|]. intros Hq.
    destruct (H1 k' q Hq) as (Hin & Hkey). split; [|done].
    rewrite Hp in Hin. apply elem_of_cons in Hin as [->|]; [|done].
    destruct (H1 k p Hk) as (_ & Hkey'). congruence.
  - intros q Hq. destruct (H2 q) as (k' & Hkey & Hc); [rewrite Hp; set_solver|].
    exists k'. split; [done|]. rewrite lookup_delete_ne; [done|].
    intros <-. rewrite Hk in Hc. by simplify_eq.
  - by apply map_size_delete_Some.
Qed.

(** Inserting a new entry whose item lives at a new address. *)
Lemma lockstep_insert c h its its' id p (item : CacheItem T) :
  lockstep c h its → c !! id = None → h !! p = None → key item = id →
  its' ≡ₚ p :: its →
  lockstep (<[id := p]> c) (<[p := item]> h) its' ∧ size (<[id := p]> c) = S (size c).
Proof.
  intros (H1 & H2) Hid Hp Hkey Hperm. split; [split|].
  - intros k' q. rewrite lookup_insert. case_decide as Hd.
    + intros [= <-]. subst k'. split; [rewrite Hperm; set_solver|].
      by rewrite lookup_insert_eq, <- Hkey.
    + intros Hq. destruct (H1 k' q Hq) as (Hin & Hk). split; [rewrite Hperm; set_solver|].
      rewrite lookup_insert_ne; [done|]. intros <-. by rewrite Hp in Hk.
  - intros q Hq. rewrite Hperm in Hq. apply elem_of_cons in Hq as [->|Hq].
    + exists id. by rewrite !lookup_insert_eq, <- Hkey.
    + destruct (H2 q Hq) as (k' & Hk & Hc). exists k'.
      assert (q ≠ p) by (intros ->; by rewrite Hp in Hk).
      assert (k' ≠ id) by (intros ->; by rewrite Hid in Hc).
      by rewrite !lookup_insert_ne.
  - by apply map_size_insert_None.
Qed.

(** Overwriting the value and the deadline of an item in place. *)
Lemma lockstep_update c h its p (old new : CacheItem T) :
  lockstep c h its → h !! p = Some old → key new = key old →
  lockstep c (<[p := new]> h) its.
Proof.
  intros (H1 & H2) Hp Hkey.
  assert (Hh : ∀ q, key <$> <[p := new]> h !! q = key <$> h !! q).
  { intros q. rewrite lookup_insert. case_decide; [subst|done].
    by rewrite Hp; simpl; rewrite Hkey. }
  split.
  - intros k q Hq. rewrite Hh. by apply H1.
  - intros q Hq. setoid_rewrite Hh. by apply H2.
Qed.

(** One entry leaves the bucket: [Remove] on the updater and [delete] on
    the table. This is the path of [Bring] on an expired entry and of the
    sweeper. *)
Lemma inv_remove_entry b k p :
  inv b → cache b !! k = Some p →
  ∃ u', Updater.Remove p (updater b) = Some u' ∧
        inv (set_cache (delete k (cache b)) (set_updater u' b)) ∧
        Updater.Size u' = Updater.Size (updater b) - 1.
Proof.
  intros (its & Htr & Hls & Hsz & Hcap & Hrange & Hch) Hk.
  destruct (proj1 Hls k p Hk) as (Hin & _).
  destruct (tracks_Remove _ _ p Htr Hin) as (u' & its' & Hrem & Htr' & Hperm).
  exists u'. split; [done|].
  destruct (lockstep_delete _ _ _ _ _ _ Hls (tracks_NoDup _ _ Htr) Hk Hperm) as (Hls' & Hsz').
  pose proof (Permutation_length Hperm) as Hlen. simpl in Hlen.
  split.
  - exists its'. simpl. split_and!; try done; lia.
  - rewrite (tracks_Size _ _ Htr), (tracks_Size _ _ Htr'). lia.
Qed.

(** The capacity check of [Nail] leaves room for one more item: either
    the updater is below [maxSize] and nothing happens, or it is empty and
    [Evict] returns [nil], or [Evict] returns a tracked item, whose key is
    deleted from the table. *)
Lemma makeRoom_inv b :
  inv b →
  ∃ c1 u1 its1,
    makeRoom b = Some (set_cache c1 (set_updater u1 b)) ∧
    tracks u1 its1 ∧
    lockstep c1 (heap b) its1 ∧
    size c1 = length its1 ∧
    Z.of_nat (length its1) < Z.max (maxSize b) 1 ∧
    (∀ k, cache b !! k = None → c1 !! k = None) ∧
    ((Updater.Size (updater b) < maxSize b ∧ c1 = cache b ∧ u1 = updater b) ∨
     (maxSize b ≤ Updater.Size (updater b) ∧ Updater.Size (updater b) = 0 ∧
      Updater.Evict (updater b) = Some (None, u1) ∧ c1 = cache b) ∨
     (maxSize b ≤ Updater.Size (updater b) ∧
      ∃ v itv, Updater.Evict (updater b) = Some (Some v, u1) ∧
               heap b !! v = Some itv ∧ cache b !! key itv = Some v ∧
               c1 = delete (key itv) (cache b) ∧
               Updater.Size u1 = Updater.Size (updater b) - 1)).
Proof.
  intros (its & Htr & Hls & Hsz & Hcap & Hrange & Hch).
  unfold makeRoom. rewrite (tracks_Size _ _ Htr). case_decide as Hfull.
  - destruct its as [|x its0] eqn:Hits.
    + rewrite (tracks_Evict_nil _ Htr). simpl.
      exists (cache b), (updater b), [].
      split_and!; try done; try (simpl; lia).
      right. left. by split_and!.
    + rewrite <- Hits in *.
      destruct (tracks_Evict _ _ Htr) as (v & u' & its' & Hev & Htr' & Hperm);
        [by rewrite Hits|].
      rewrite Hev. simpl.
      destruct (proj2 Hls v) as (kv & Hkv & Hcv); [rewrite Hperm; set_solver|].
      destruct (heap b !! v) as [itv|] eqn:Hv; [|done]. simpl in *.
      injection Hkv as <-.
      destruct (lockstep_delete _ _ _ _ _ _ Hls (tracks_NoDup _ _ Htr) Hcv Hperm)
        as (Hls' & Hsz').
      pose proof (Permutation_length Hperm) as Hlen. simpl in Hlen.
      exists (delete (key itv) (cache b)), u', its'.
      split_and!; try done; try lia.
      * intros k Hk. rewrite lookup_delete. by case_decide.
      * right. right. split; [done|]. exists v, itv. split_and!; try done.
        rewrite (tracks_Size _ _ Htr'). lia.
  - exists (cache b), (updater b), its. split_and!; try done; try lia.
    + by destruct b.
    + left. split_and!; [lia|done..].
Qed.

(** [Nail] of a key that is in the table: the item is overwritten in
    place and the updater sees one [Access]. *)
Lemma Nail_existing id data now b p :
  inv b → closed b = false → cache b !! id = Some p →
  ∃ old u',
    heap b !! p = Some old ∧ key old = id ∧
    Updater.Access p (updater b) = Some u' ∧
    Updater.Size u' = Updater.Size (updater b) ∧
    let b' := set_updater u'
                (set_heap (<[p := MkItem id data (deadline now (outdated b))]> (heap b)) b) in
    Nail id data now b = Some (None, b') ∧ inv b'.
Proof.
  intros (its & Htr & Hls & Hsz & Hcap & Hrange & Hch) Hcl Hid.
  destruct (proj1 Hls id p Hid) as (Hin & Hkey).
  destruct (heap b !! p) as [old|] eqn:Hp; [|done]. simpl in Hkey.
  injection Hkey as Hkey.
  destruct (tracks_Access _ _ p Htr) as (u' & its' & Hacc & Htr' & Hperm).
  exists old, u'. split_and!; try done.
  { rewrite (tracks_Size _ _ Htr), (tracks_Size _ _ Htr').
    by rewrite (Permutation_length Hperm). }
  unfold Nail, isClosed. rewrite Hcl, Hid. simpl. rewrite Hp. simpl.
  rewrite Hacc. simpl. rewrite Hkey. split; [done|].
  exists its'. simpl. split_and!; try done.
  - eapply lockstep_perm; [by symmetry|]. by eapply lockstep_update.
  - by rewrite (Permutation_length Hperm).
  - by rewrite (Permutation_length Hperm).
Qed.

(** [Nail] of a key that is not in the table: room is made, a new item
    is allocated, entered in the table and added to the updater. *)
Lemma Nail_new id data now b :
  inv b → closed b = false → cache b !! id = None →
  ∃ c1 u1 u2,
    makeRoom b = Some (set_cache c1 (set_updater u1 b)) ∧
    let p := fresh (dom (heap b)) in
    let b' := set_updater u2
                (set_cache (<[id := p]> c1)
                   (set_heap (<[p := MkItem id data (deadline now (outdated b))]> (heap b))
                      (set_cache c1 (set_updater u1 b)))) in
    Updater.Add p u1 = Some u2 ∧
    Updater.Size u2 = Updater.Size u1 + 1 ∧
    Z.of_nat (size c1) = Updater.Size u1 ∧
    Updater.Size u1 < Z.max (maxSize b) 1 ∧
    Nail id data now b = Some (None, b') ∧ inv b'.
Proof.
  intros Hinv Hcl Hid.
  destruct (makeRoom_inv b Hinv)
    as (c1 & u1 & its1 & Hmr & Htr1 & Hls1 & Hsz1 & Hroom & Hnone & _).
  destruct Hinv as (its & Htr & Hls & Hsz & Hcap & Hrange & Hch).
  set (p := fresh (dom (heap b))).
  assert (Hp : heap b !! p = None) by (apply not_elem_of_dom, is_fresh).
  assert (Hnin : p ∉ its1).
  { intros Hin. destruct (proj2 Hls1 p Hin) as (? & Hk & _). by rewrite Hp in Hk. }
  destruct (tracks_Add u1 its1 p Htr1 Hnin) as (u2 & its2 & Hadd & Htr2 & Hperm).
  { unfold GoInt.in_range, GoInt.max_int in *. lia. }
  pose proof (Permutation_length Hperm) as Hlen. simpl in Hlen.
  exists c1, u1, u2. split; [done|]. fold p. cbv zeta. split_and!; try done.
  - rewrite (tracks_Size _ _ Htr1), (tracks_Size _ _ Htr2). lia.
  - rewrite (tracks_Size _ _ Htr1). lia.
  - rewrite (tracks_Size _ _ Htr1). lia.
  - unfold Nail, isClosed. rewrite Hcl, Hid, Hmr. simpl. fold p. by rewrite Hadd.
  - exists its2. simpl.
    destruct (lockstep_insert c1 (heap b) its1 its2 id p
                (MkItem id data (deadline now (outdated b))) Hls1) as (Hls2 & Hsz2);
      [by apply Hnone|done|done|done|].
    split_and!; try done; lia.
Qed.

Lemma Nail_inv id data now b :
  inv b → ∃ e b', Nail id data now b = Some (e, b') ∧ inv b'.
Proof.
  intros Hinv. destruct (closed b) eqn:Hcl.
  { unfold Nail, isClosed. rewrite Hcl. eauto. }
  destruct (cache b !! id) as [p|] eqn:Hid.
  - destruct (Nail_existing id data now b p Hinv Hcl Hid)
      as (old & u' & _ & _ & _ & _ & Hn & Hinv'). eauto.
  - destruct (Nail_new id data now b Hinv Hcl Hid)
      as (c1 & u1 & u2 & _ & _ & _ & _ & _ & Hn & Hinv'). eauto.
Qed.

Lemma Bring_inv zero id now b :
  inv b → ∃ r b', Bring zero id now b = Some (r, b') ∧ inv b'.
Proof.
  intros Hinv. unfold Bring, isClosed. destruct (closed b) eqn:Hcl; [by eauto|].
  destruct (cache b !! id) as [p|] eqn:Hid; [|by eauto].
  pose proof Hinv as (its & Htr & Hls & Hsz & Hcap & Hrange & Hch).
  destruct (proj1 Hls id p Hid) as (Hin & Hkey).
  destruct (heap b !! p) as [it|] eqn:Hp; [|done]. simpl.
  destruct (after now (expiredAt it)).
  - destruct (inv_remove_entry b id p Hinv Hid) as (u' & -> & Hinv' & _). simpl. eauto.
  - destruct (tracks_Access _ _ p Htr) as (u' & its' & -> & Htr' & Hperm). simpl.
    do 2 eexists. split; [done|]. exists its'. simpl. split_and!; try done.
    + eapply lockstep_perm; [by symmetry|done].
    + by rewrite (Permutation_length Hperm).
    + by rewrite (Permutation_length Hperm).
Qed.

Lemma collectExpired_inv now b order :
  inv b → is_Some (collectExpired now b order).
Proof.
  intros (its & Htr & Hls & _). induction order as [|k rest IH]; simpl; [done|].
  destruct (cache b !! k) as [p|] eqn:Hk; [|done].
  destruct (proj1 Hls k p Hk) as (_ & Hkey).
  destruct (heap b !! p); [|done]. simpl. destruct IH as [ks ->]. simpl. eauto.
Qed.

Lemma deleteExpired_inv keys b :
  inv b → ∃ b', deleteExpired keys b = Some b' ∧ inv b'.
Proof.
  revert b. induction keys as [|k rest IH]; intros b Hinv; simpl; [by eauto|].
  destruct (cache b !! k) as [p|] eqn:Hk; [|by apply IH].
  destruct (inv_remove_entry b k p Hinv Hk) as (u' & -> & Hinv' & _). simpl.
  by apply IH.
Qed.

Lemma cleanupExpired_inv now order b :
  inv b → ∃ b', cleanupExpired now order b = Some b' ∧ inv b'.
Proof.
  intros Hinv. unfold cleanupExpired. destruct (closed b); [by eauto|].
  destruct (collectExpired_inv now b order Hinv) as [ks ->]. simpl.
  by apply deleteExpired_inv.
Qed.

Lemma tick_inv now order b :
  inv b → ∃ b', tick now order b = Some b' ∧ inv b'.
Proof.
  intros Hinv. unfold tick, isClosed. destruct (closed b); [by eauto|].
  by apply cleanupExpired_inv.
Qed.

Lemma lockstep_empty h : lockstep ∅ h [].
Proof. split; [intros k p; by rewrite lookup_empty|intros p; set_solver]. Qed.

Lemma Clear_inv b : inv b → ∃ b', Clear b = Some b' ∧ inv b'.
Proof.
  intros Hinv. unfold Clear, isClosed. destruct (closed b) eqn:Hcl; [by eauto|].
  destruct Hinv as (its & Htr & Hls & Hsz & Hcap & Hrange & Hch).
  destruct (tracks_Clear _ _ Htr) as (u' & Hclr & Htr'). simpl. rewrite Hclr. simpl.
  eexists. split; [done|]. exists []. simpl. split_and!; try done.
  - apply lockstep_empty.
  - lia.
Qed.

Lemma Close_inv b : inv b → ∃ b', Close b = Some (None, b') ∧ inv b' ∧ closed b' = true.
Proof.
  intros Hinv. unfold Close. destruct (closed b) eqn:Hcl; [by eauto|].
  destruct Hinv as (its & Htr & Hls & Hsz & Hcap & Hrange & Hch).
  simpl. unfold Chan.try_send, Chan.close. rewrite (Hch Hcl).
  destruct (tracks_Clear _ _ Htr) as (u' & Hclr & Htr').
  case_decide; simpl; rewrite ?(Hch Hcl); simpl; rewrite Hclr; simpl.
  all: eexists; split; [done|]; split; [|done].
  all: exists []; simpl; split_and!; try done; try apply lockstep_empty; lia.
Qed.

Lemma call_inv zero (c : Call T) b :
  inv b → ∃ b', call zero c b = Some b' ∧ inv b'.
Proof.
  intros Hinv. destruct c as [id data now|id now| | |now order]; simpl.
  - destruct (Nail_inv id data now b Hinv) as (e & b' & -> & ?). simpl. eauto.
  - destruct (Bring_inv zero id now b Hinv) as (r & b' & -> & ?). simpl. eauto.
  - by apply Clear_inv.
  - destruct (Close_inv b Hinv) as (b' & -> & ? & _). simpl. eauto.
  - by apply tick_inv.
Qed.

Lemma calls_inv zero (cs : list (Call T)) b :
  inv b → ∃ b', calls zero cs b = Some b' ∧ inv b'.
Proof.
  revert b. induction cs as [|c cs IH]; intros b Hinv; simpl; [by eauto|].
  destruct (call_inv zero c b Hinv) as (b1 & -> & Hinv1). simpl. by apply IH.
Qed.

(** A new bucket with built-in options satisfies the invariant. *)
Lemma initial_inv b : initial b → inv b.
Proof.
  intros (Hc & Hh & Htr & Hr & Hcl & Hch). exists []. rewrite Hc.
  split_and!; try done; [apply lockstep_empty|simpl; lia].
Qed.

Lemma apply_option_initial o b :
  builtin_option o → initial b → initial (apply_option o b).
Proof.
  intros Ho (Hc & Hh & Htr & Hr & Hcl & Hch).
  destruct o; simpl in *; try done. split_and!; try done. apply tracks_newFIFO.
Qed.

Lemma set_outdated_initial x b : initial b → initial (set_outdated x b).
Proof. by intros (Hc & Hh & Htr & Hr & Hcl & Hch). Qed.

Lemma default_initial : initial (NewBucket (T:=T) []).
Proof. split_and!; try done. apply tracks_newLRU. Qed.

Lemma apply_options_initial opts b :
  Forall builtin_option opts → initial b →
  initial (fold_left (λ b opt, apply_option opt b) opts b).
Proof.
  intros Hopts. revert b. induction Hopts as [|o opts Ho _ IH]; intros b Hb; [done|].
  simpl. apply IH. by apply apply_option_initial.
Qed.

Lemma NewBucket_initial opts : Forall builtin_option opts → initial (NewBucket (T:=T) opts).
Proof. intros Hopts. apply (apply_options_initial opts _ Hopts default_initial). Qed.

Lemma NewBucket_inv opts : Forall builtin_option opts → inv (NewBucket (T:=T) opts).
Proof. intros Hopts. by apply initial_inv, NewBucket_initial. Qed.

Lemma lru_option_builtin (opts : list NewBucketOption) :
  Forall lru_option opts → Forall builtin_option opts.
Proof. intros H. eapply Forall_impl; [exact H|]. by intros []. Qed.

(** Every history of a new bucket with a built-in updater runs without a
    panic and ends in a state that satisfies the invariant. *)
Lemma history_inv zero opts (cs : list (Call T)) :
  Forall builtin_option opts →
  ∃ b, calls zero cs (NewBucket opts) = Some b ∧ inv b.
Proof. intros Hopts. apply calls_inv. by apply NewBucket_inv. Qed.

End bucket_inv.

(** ** The configuration of a bucket never changes *)

Section bucket_config.
Import Heatwave Invariant.
Context {E : Expiration} {T : Type}.
Implicit Types (b : Bucket T).

Lemma Nail_config id data now b e b' :
  Nail id data now b = Some (e, b') → config b' = config b.
Proof.
  unfold Nail, makeRoom, isClosed. intros H.
  repeat (case_match || case_decide || simplify_option_eq); done.
Qed.

Lemma Bring_config zero id now b r b' :
  Bring zero id now b = Some (r, b') → config b' = config b.
Proof.
  unfold Bring, isClosed. intros H.
  repeat (case_match || case_decide || simplify_option_eq); done.
Qed.

Lemma deleteExpired_config keys b b' :
  deleteExpired keys b = Some b' → config b' = config b.
Proof.
  revert b. induction keys as [|k rest IH]; intros b H; simpl in H; [by simplify_eq|].
  destruct (cache b !! k); [|by apply IH].
  destruct (Updater.Remove _ _); [|done]. simpl in H. by apply IH in H.
Qed.

Lemma tick_config now order b b' :
  tick now order b = Some b' → config b' = config b.
Proof.
  unfold tick, cleanupExpired, isClosed. intros H.
  destruct (closed b); [by simplify_eq|].
  destruct (collectExpired _ _ _); [|done]. by apply deleteExpired_config in H.
Qed.

Lemma Clear_config b b' : Clear b = Some b' → config b' = config b.
Proof.
  unfold Clear, isClosed. intros H.
  repeat (case_match || case_decide || simplify_option_eq); done.
Qed.

Lemma Close_config b e b' : Close b = Some (e, b') → config b' = config b.
Proof.
  unfold Close. intros H.
  repeat (case_match || case_decide || simplify_option_eq); done.
Qed.

Lemma call_config zero (c : Call T) b b' :
  call zero c b = Some b' → config b' = config b.
Proof.
  destruct c; simpl; intros H.
  - destruct (Nail _ _ _ _) as [[e b1]|] eqn:Hn; simplify_eq/=. by eapply Nail_config.
  - destruct (Bring _ _ _ _) as [[r b1]|] eqn:Hn; simplify_eq/=. by eapply Bring_config.
  - by apply Clear_config.
  - destruct (Close _) as [[e b1]|] eqn:Hn; simplify_eq/=. by eapply Close_config.
  - by eapply tick_config.
Qed.

Lemma calls_config zero (cs : list (Call T)) b b' :
  calls zero cs b = Some b' → config b' = config b.
Proof.
  revert b. induction cs as [|c cs IH]; intros b H; simpl in H; [by simplify_eq|].
  destruct (call zero c b) as [b1|] eqn:Hc; [|done]. simpl in H.
  rewrite (IH _ H). by eapply call_config.
Qed.

End bucket_config.

(** ** Reads *)

Section bucket_reads.
Import Heatwave Invariant.
Context {E : Expiration} {T : Type}.
Implicit Types (b : Bucket T).

(** [Bring] of an entry whose deadline has not passed. *)
Lemma Bring_hit zero id now b p it :
  inv b → closed b = false → cache b !! id = Some p → heap b !! p = Some it →
  after now (expiredAt it) = false →
  ∃ u', Updater.Access p (updater b) = Some u' ∧
        Updater.Size u' = Updater.Size (updater b) ∧
        Bring zero id now b = Some ((value it, true), set_updater u' b).
Proof.
  intros (its & Htr & _) Hcl Hid Hp Hlive.
  destruct (tracks_Access _ _ p Htr) as (u' & its' & Hacc & Htr' & Hperm).
  exists u'. split_and!; [done| |].
  - rewrite (tracks_Size _ _ Htr), (tracks_Size _ _ Htr').
    by rewrite (Permutation_length Hperm).
  - unfold Bring, isClosed. rewrite Hcl, Hid. simpl. rewrite Hp. simpl.
    rewrite Hlive, Hacc. done.
Qed.

(** [Bring] of an entry whose deadline has passed removes it the way the
    sweeper does: [cleanupExpired] at the same time, with [range] yielding
    this key, gives the same bucket. *)
Lemma Bring_expired zero id now b p it :
  inv b → closed b = false → cache b !! id = Some p → heap b !! p = Some it →
  after now (expiredAt it) = true →
  ∃ u', Updater.Remove p (updater b) = Some u' ∧
        Updater.Size u' = Updater.Size (updater b) - 1 ∧
        let b' := set_cache (delete id (cache b)) (set_updater u' b) in
        Bring zero id now b = Some ((zero, false), b') ∧
        cleanupExpired now [id] b = Some b' ∧
        inv b'.
Proof.
  intros Hinv Hcl Hid Hp Hdead.
  destruct (inv_remove_entry b id p Hinv Hid) as (u' & Hrem & Hinv' & Hsz).
  exists u'. cbv zeta. split_and!; try done.
  - unfold Bring, isClosed. rewrite Hcl, Hid. simpl. rewrite Hp. simpl.
    by rewrite Hdead, Hrem.
  - unfold cleanupExpired. rewrite Hcl. simpl. rewrite Hid. simpl. rewrite Hp. simpl.
    rewrite Hdead. simpl. by rewrite Hid, Hrem.
Qed.

(** Every call on a closed bucket leaves it as it is. *)
Lemma call_closed zero (c : Call T) b : closed b = true → call zero c b = Some b.
Proof.
  intros Hcl. destruct c; simpl.
  - unfold Nail, isClosed. by rewrite Hcl.
  - unfold Bring, isClosed. by rewrite Hcl.
  - unfold Clear, isClosed. by rewrite Hcl.
  - unfold Close. by rewrite Hcl.
  - unfold tick, isClosed. by rewrite Hcl.
Qed.

Lemma calls_closed zero (cs : list (Call T)) b : closed b = true → calls zero cs b = Some b.
Proof.
  intros Hcl. induction cs as [|c cs IH]; simpl; [done|].
  by rewrite call_closed.
Qed.

End bucket_reads.

(** * The claims of the specification *)

Section claims.
Import Heatwave Invariant.
Context {E : Expiration} {T : Type}.
Implicit Types (b : Bucket T) (zero : T).

(** C1. Table/strategy parity: every history of [Nail], [Bring], [Clear],
    [Close] and sweeper ticks on a bucket with the default LRU updater
    runs to a state where the key table has as many entries as the
    updater counts, [len(cache) == updater.Size()]. The two structures
    hold the same items: the updater tracks a duplicate-free list [its],
    an item is in [its] exactly when it is the table's entry for some
    key, and each entry carries the key it is filed under. *)
Theorem C1_table_strategy_parity zero (opts : list NewBucketOption) (cs : list (Call T)) :
  Forall lru_option opts →
  ∃ b its,
    calls zero cs (NewBucket opts) = Some b ∧
    Z.of_nat (size (cache b)) = Updater.Size (updater b) ∧
    tracks (updater b) its ∧ NoDup its ∧
    (∀ p, p ∈ its ↔ ∃ k, cache b !! k = Some p) ∧
    (∀ k p, cache b !! k = Some p → key <$> heap b !! p = Some k).
Proof.
  intros Hopts.
  destruct (history_inv zero opts cs (lru_option_builtin _ Hopts))
    as (b & Hrun & its & Htr & (Hl1 & Hl2) & Hsz & _).
  exists b, its. split_and!; try done.
  - rewrite (tracks_Size _ _ Htr). by rewrite Hsz.
  - by eapply tracks_NoDup.
  - intros p. split.
    + intros Hin. destruct (Hl2 p Hin) as (k & _ & Hk). eauto.
    + intros (k & Hk). by destruct (Hl1 k p Hk).
  - intros k p Hk. by destruct (Hl1 k p Hk).
Qed.

(** C2. Capacity invariant: on a bucket with a positive [maxSize] and the
    default LRU updater, every history (of [Nail] calls, and of the other
    calls as well) ends with [updater.Size() <= maxSize]. When [Nail] of
    a new key finds the updater at [maxSize], [Evict] returns a tracked
    item, its key is deleted from the table, and only then the new item
    is entered in the table and added to the updater; the size stays at
    [maxSize]. *)
Theorem C2_capacity_invariant zero (opts : list NewBucketOption) (cs : list (Call T)) :
  Forall lru_option opts → 0 < maxSize (NewBucket (T:=T) opts) →
  ∃ b,
    calls zero cs (NewBucket opts) = Some b ∧
    maxSize b = maxSize (NewBucket (T:=T) opts) ∧
    Updater.Size (updater b) ≤ maxSize b ∧
    ∀ id data now,
      closed b = false → cache b !! id = None →
      Updater.Size (updater b) = maxSize b →
      ∃ victim it u1 u2 b',
        Updater.Evict (updater b) = Some (Some victim, u1) ∧
        heap b !! victim = Some it ∧ cache b !! key it = Some victim ∧
        Updater.Add (fresh (dom (heap b))) u1 = Some u2 ∧
        Nail id data now b = Some (None, b') ∧
        cache b' = <[id := fresh (dom (heap b))]> (delete (key it) (cache b)) ∧
        updater b' = u2 ∧
        Updater.Size (updater b') = maxSize b.
Proof.
  intros Hopts Hpos.
  destruct (history_inv zero opts cs (lru_option_builtin _ Hopts)) as (b & Hrun & Hinv).
  pose proof (calls_config _ _ _ _ Hrun) as Hcfg. injection Hcfg as _ Hmax _ _.
  exists b. split_and!; try done.
  - destruct Hinv as (its & Htr & _ & _ & Hcap & _).
    rewrite (tracks_Size _ _ Htr). lia.
  - intros id data now Hcl Hid Hfull.
    destruct (Nail_new id data now b Hinv Hcl Hid)
      as (c1 & u1 & u2 & Hmr & Hadd & Hsz2 & Hsz1 & Hroom & Hnail & Hinv').
    destruct (makeRoom_inv b Hinv)
      as (c1' & u1' & its1 & Hmr' & _ & _ & _ & _ & _ & Hcase).
    rewrite Hmr in Hmr'. injection Hmr' as <- <-.
    destruct Hcase as [(Hlt & _)|[(_ & H0 & _)|(_ & v & itv & Hev & Hv & Hcv & -> & Hsz)]];
      [lia|lia|].
    exists v, itv, u1, u2. eexists. split_and!; try done. simpl. lia.
Qed.

(** C5. Overwrite semantics: on an open bucket, [Nail] of a key that is
    in the table overwrites the value and the deadline of the item in
    place (same address, same key), gives the updater one [Access] and
    nothing else (no [Evict], no [Add]), leaves the table and [Size()] as
    they are, and a following [Bring] of the key before the new deadline
    returns the new value. *)
Theorem C5_overwrite_semantics zero (opts : list NewBucketOption) (cs : list (Call T))
    b id p data now :
  Forall builtin_option opts →
  calls zero cs (NewBucket opts) = Some b →
  closed b = false → cache b !! id = Some p →
  ∃ old u',
    heap b !! p = Some old ∧ key old = id ∧
    Updater.Access p (updater b) = Some u' ∧
    let b' := set_updater u'
                (set_heap (<[p := MkItem id data (deadline now (outdated b))]> (heap b)) b) in
    Nail id data now b = Some (None, b') ∧
    cache b' = cache b ∧
    Size b' = Size b ∧
    ∀ now', after now' (deadline now (outdated b)) = false →
            ∃ b'', Bring zero id now' b' = Some ((data, true), b'').
Proof.
  intros Hopts Hrun Hcl Hid.
  destruct (history_inv zero opts cs Hopts) as (b0 & Hrun0 & Hinv).
  rewrite Hrun in Hrun0. injection Hrun0 as <-.
  destruct (Nail_existing id data now b p Hinv Hcl Hid)
    as (old & u' & Hp & Hkey & Hacc & Hsz & Hnail & Hinv').
  exists old, u'. cbv zeta. split_and!; try done.
  - unfold Size, isClosed. simpl. by rewrite Hcl.
  - intros now' Hlive.
    destruct (Bring_hit zero id now' _ p
                (MkItem id data (deadline now (outdated b))) Hinv')
      as (u'' & _ & _ & Hb); [done|done|apply lookup_insert_eq|done|eauto].
Qed.

(** C7. Closed-state behaviour: once [Close] has returned, [Nail] fails
    with [ErrBucketClosed], [Bring] misses, [Size] is 0 and [Clear] does
    nothing; none of them panics or changes the bucket. This holds for
    every updater. [ErrBucketClosed] is the only error: [Nail] returns an
    error only on a closed bucket, and [Close] never returns one. *)
Theorem C7_closed_state_behaviour zero (b0 b : Bucket T) e :
  Close b0 = Some (e, b) →
  closed b = true ∧
  (∀ id data now, Nail id data now b = Some (Some ErrBucketClosed, b)) ∧
  (∀ id now, Bring zero id now b = Some ((zero, false), b)) ∧
  Size b = 0 ∧
  Clear b = Some b ∧
  (∀ b1 id data now err b2,
      Nail id data now b1 = Some (Some err, b2) →
      err = ErrBucketClosed ∧ closed b1 = true ∧ b2 = b1) ∧
  (∀ b1 e1 b2, Close b1 = Some (e1, b2) → e1 = None).
Proof.
  intros Hclose.
  assert (Hcl : closed b = true).
  { unfold Close in Hclose. destruct (closed b0) eqn:Hcl0; [by simplify_eq|].
    repeat (case_match || simplify_option_eq); done. }
  split_and!; try done.
  - intros. unfold Nail, isClosed. by rewrite Hcl.
  - intros. unfold Bring, isClosed. by rewrite Hcl.
  - unfold Size, isClosed. by rewrite Hcl.
  - unfold Clear, isClosed. by rewrite Hcl.
  - intros b1 id data now err b2 Hn. unfold Nail, isClosed in Hn.
    destruct (closed b1); [by destruct err; simplify_eq|].
    repeat (case_match || simplify_option_eq); done.
  - intros b1 e1 b2 Hc. unfold Close in Hc.
    repeat (case_match || simplify_option_eq); done.
Qed.

(** C8. Idempotent close: on every reachable state of a bucket with a
    built-in updater [Close] returns [nil] and leaves the bucket closed;
    the first [Close] empties the key table and the updater; a [Close]
    of a closed bucket changes nothing and returns [nil]; after any
    number of calls the bucket is still closed and [Size()] is 0. *)
Theorem C8_idempotent_close zero (opts : list NewBucketOption) (cs : list (Call T)) b :
  Forall builtin_option opts →
  calls zero cs (NewBucket opts) = Some b →
  ∃ b1,
    Close b = Some (None, b1) ∧ closed b1 = true ∧
    (closed b = false →
       cache b1 = ∅ ∧ tracks (updater b1) [] ∧ Updater.Size (updater b1) = 0) ∧
    (closed b = true → b1 = b) ∧
    Close b1 = Some (None, b1) ∧
    Size b1 = 0 ∧
    ∀ cs', calls zero cs' b1 = Some b1.
Proof.
  intros Hopts Hrun.
  destruct (history_inv zero opts cs Hopts) as (b0 & Hrun0 & Hinv).
  rewrite Hrun in Hrun0. injection Hrun0 as <-.
  destruct (Close_inv b Hinv) as (b1 & Hclose & Hinv1 & Hcl1).
  exists b1. split_and!; try done.
  - intros Hcl. destruct Hinv as (its & Htr & _ & _ & _ & _ & Hch).
    destruct (tracks_Clear _ _ Htr) as (u' & Hclr & Htr').
    unfold Close, Chan.try_send, Chan.close in Hclose. rewrite Hcl in Hclose.
    simpl in Hclose. rewrite (Hch Hcl) in Hclose.
    case_decide; simpl in Hclose; rewrite ?(Hch Hcl) in Hclose; simpl in Hclose;
      rewrite Hclr in Hclose; simpl in Hclose; injection Hclose as <-; simpl;
      by rewrite (tracks_Size _ _ Htr').
  - intros Hcl. unfold Close in Hclose. rewrite Hcl in Hclose. by simplify_eq.
  - unfold Close. by rewrite Hcl1.
  - unfold Size, isClosed. by rewrite Hcl1.
  - intros cs'. by apply calls_closed.
Qed.

(** C10. Non-positive capacity: [WithMaxSize] stores any [int] as it is.
    On a bucket with [maxSize <= 0] and the default LRU updater every
    history ends with at most one tracked item, and [Nail] of a new key
    on an open bucket succeeds: the entry that is there, if any, is
    evicted first, so the table then holds the new key alone and the size
    is 1, above [maxSize]. *)
Theorem C10_nonpositive_capacity zero (opts : list NewBucketOption) (cs : list (Call T)) :
  Forall lru_option opts → maxSize (NewBucket (T:=T) opts) ≤ 0 →
  (∀ m b0, maxSize (apply_option (WithMaxSize m) b0) = m) ∧
  ∃ b,
    calls zero cs (NewBucket opts) = Some b ∧
    maxSize b = maxSize (NewBucket (T:=T) opts) ∧
    Updater.Size (updater b) ≤ 1 ∧
    ∀ id data now,
      closed b = false → cache b !! id = None →
      ∃ b', Nail id data now b = Some (None, b') ∧
            cache b' = {[ id := fresh (dom (heap b)) ]} ∧
            Updater.Size (updater b') = 1 ∧
            maxSize b' < Updater.Size (updater b').
Proof.
  intros Hopts Hnp. split; [done|].
  destruct (history_inv zero opts cs (lru_option_builtin _ Hopts)) as (b & Hrun & Hinv).
  pose proof (calls_config _ _ _ _ Hrun) as Hcfg. injection Hcfg as _ Hmax _ _.
  exists b. split_and!; try done.
  - destruct Hinv as (its & Htr & _ & _ & Hcap & _).
    rewrite (tracks_Size _ _ Htr). lia.
  - intros id data now Hcl Hid.
    destruct (Nail_new id data now b Hinv Hcl Hid)
      as (c1 & u1 & u2 & Hmr & Hadd & Hsz2 & Hsz1 & Hroom & Hnail & Hinv').
    assert (Hc1 : c1 = ∅).
    { apply map_size_empty_inv. lia. }
    subst c1. eexists. split; [exact Hnail|]. simpl. split_and!; [done|lia|lia].
Qed.

End claims.

(** ** Eviction order on the example history *)

Section eviction_order.
Import Heatwave.
Context {E : Expiration} {T : Type}.
Implicit Types (b : Bucket T) (zero : T).

Lemma Bring_unfold zero id now b p it :
  closed b = false → cache b !! id = Some p → heap b !! p = Some it →
  Bring zero id now b =
    if after now (expiredAt it) then
      u ← Updater.Remove p (updater b);
      Some ((zero, false), set_cache (delete id (cache b)) (set_updater u b))
    else
      u ← Updater.Access p (updater b);
      Some ((value it, true), set_updater u b).
Proof. intros Hcl Hid Hp. unfold Bring, isClosed. by rewrite Hcl, Hid; simpl; rewrite Hp. Qed.

Lemma Bring_absent zero id now b :
  cache b !! id = None → Bring zero id now b = Some ((zero, false), b).
Proof. intros Hid. unfold Bring, isClosed. rewrite Hid. by destruct (closed b). Qed.

(** The example history on the LRU bucket: [Get(A)] hits and moves [A] to
    the front, so [Put(D)] evicts [B]. *)
Lemma lru_example zero (vA vB vC vD : T) (d : Z) (t1 t2 t3 t4 t5 t6 t7 t8 t9 : Time) :
  after t4 (deadline t1 (ttl d)) = false →
  after t7 (deadline t1 (ttl d)) = false →
  after t8 (deadline t3 (ttl d)) = false →
  after t9 (deadline t5 (ttl d)) = false →
  ∃ b3 b4 b5,
    calls zero (three_puts vA vB vC t1 t2 t3)
          (NewBucket [WithMaxSize 3; WithBucketOutdated d]) = Some b3 ∧
    Bring zero "A" t4 b3 = Some ((vA, true), b4) ∧
    Nail "D" vD t5 b4 = Some (None, b5) ∧
    fst <$> Bring zero "B" t6 b5 = Some (zero, false) ∧
    fst <$> Bring zero "A" t7 b5 = Some (vA, true) ∧
    fst <$> Bring zero "C" t8 b5 = Some (vC, true) ∧
    fst <$> Bring zero "D" t9 b5 = Some (vD, true).
Proof.
  intros H4 H7 H8 H9.
  (* the state after the three puts *)
  assert (F3 :
    (b ← calls zero (three_puts vA vB vC t1 t2 t3)
           (NewBucket [WithMaxSize 3; WithBucketOutdated d]);
     Some (closed b, cache b !! "A", heap b !! 1%positive,
           const () <$> Updater.Access 1%positive (updater b)))
    = Some (false, Some 1%positive, Some (MkItem "A" vA (deadline t1 (ttl d))), Some ()))
    by (vm_compute; reflexivity).
  (* the state after the touch of A and the put of D *)
  assert (F5 :
    (b ← calls zero (three_puts vA vB vC t1 t2 t3)
           (NewBucket [WithMaxSize 3; WithBucketOutdated d]);
     u ← Updater.Access 1%positive (updater b);
     r ← Nail "D" vD t5 (set_updater u b);
     Some (fst r, closed (snd r), cache (snd r) !! "B",
           (cache (snd r) !! "A", heap (snd r) !! 1%positive,
            const () <$> Updater.Access 1%positive (updater (snd r))),
           (cache (snd r) !! "C", heap (snd r) !! 3%positive,
            const () <$> Updater.Access 3%positive (updater (snd r))),
           (cache (snd r) !! "D", heap (snd r) !! 4%positive,
            const () <$> Updater.Access 4%positive (updater (snd r)))))
    = Some (None, false, None,
            (Some 1%positive, Some (MkItem "A" vA (deadline t1 (ttl d))), Some ()),
            (Some 3%positive, Some (MkItem "C" vC (deadline t3 (ttl d))), Some ()),
            (Some 4%positive, Some (MkItem "D" vD (deadline t5 (ttl d))), Some ())))
    by (vm_compute; reflexivity).
  destruct (calls zero _ _) as [b3|]; [|done]. simpl in F3, F5.
  destruct (Updater.Access 1%positive (updater b3)) as [u4|] eqn:Hu4; [|done].
  simpl in F5.
  destruct (Nail "D" vD t5 _) as [[e5 b5]|] eqn:Hn5; [|done]. simpl in F5.
  injection F3 as Hcl3 HA3 HhA3.
  injection F5 as -> Hcl5 HB5 HA5 HhA5 HaA5 HC5 HhC5 HaC5 HD5 HhD5 HaD5.
  exists b3, (set_updater u4 b3), b5. split_and!; try done.
  - rewrite (Bring_unfold zero "A" t4 b3 _ _ Hcl3 HA3 HhA3). simpl.
    by rewrite H4, Hu4.
  - by rewrite Bring_absent.
  - rewrite (Bring_unfold zero "A" t7 b5 _ _ Hcl5 HA5 HhA5). simpl. rewrite H7.
    by destruct (Updater.Access 1%positive (updater b5)).
  - rewrite (Bring_unfold zero "C" t8 b5 _ _ Hcl5 HC5 HhC5). simpl. rewrite H8.
    by destruct (Updater.Access 3%positive (updater b5)).
  - rewrite (Bring_unfold zero "D" t9 b5 _ _ Hcl5 HD5 HhD5). simpl. rewrite H9.
    by destruct (Updater.Access 4%positive (updater b5)).
Qed.

(** The same history on the FIFO bucket: [Get(A)] hits and reorders
    nothing, so [Put(D)] evicts [A], the oldest entry. *)
Lemma fifo_example zero (vA vB vC vD : T) (d : Z) (t1 t2 t3 t4 t5 t6 : Time) :
  after t4 (deadline t1 (ttl d)) = false →
  ∃ b3 b4 b5,
    calls zero (three_puts vA vB vC t1 t2 t3)
          (NewBucket [WithMaxSize 3; WithFIFOUpdater; WithBucketOutdated d]) = Some b3 ∧
    Bring zero "A" t4 b3 = Some ((vA, true), b4) ∧
    Nail "D" vD t5 b4 = Some (None, b5) ∧
    fst <$> Bring zero "A" t6 b5 = Some (zero, false) ∧
    cache b5 !! "A" = None ∧
    is_Some (cache b5 !! "B") ∧ is_Some (cache b5 !! "C") ∧ is_Some (cache b5 !! "D").
Proof.
  intros H4.
  assert (F3 :
    (b ← calls zero (three_puts vA vB vC t1 t2 t3)
           (NewBucket [WithMaxSize 3; WithFIFOUpdater; WithBucketOutdated d]);
     Some (closed b, cache b !! "A", heap b !! 1%positive,
           const () <$> Updater.Access 1%positive (updater b)))
    = Some (false, Some 1%positive, Some (MkItem "A" vA (deadline t1 (ttl d))), Some ()))
    by (vm_compute; reflexivity).
  assert (F5 :
    (b ← calls zero (three_puts vA vB vC t1 t2 t3)
           (NewBucket [WithMaxSize 3; WithFIFOUpdater; WithBucketOutdated d]);
     u ← Updater.Access 1%positive (updater b);
     r ← Nail "D" vD t5 (set_updater u b);
     Some (fst r, cache (snd r) !! "A", cache (snd r) !! "B",
           cache (snd r) !! "C", cache (snd r) !! "D"))
    = Some (None, None, Some 2%positive, Some 3%positive, Some 4%positive))
    by (vm_compute; reflexivity).
  destruct (calls zero _ _) as [b3|]; [|done]. simpl in F3, F5.
  destruct (Updater.Access 1%positive (updater b3)) as [u4|] eqn:Hu4; [|done].
  simpl in F5.
  destruct (Nail "D" vD t5 _) as [[e5 b5]|] eqn:Hn5; [|done]. simpl in F5.
  injection F3 as Hcl3 HA3 HhA3.
  injection F5 as -> HA5 HB5 HC5 HD5.
  exists b3, (set_updater u4 b3), b5. split_and!; try done.
  - rewrite (Bring_unfold zero "A" t4 b3 _ _ Hcl3 HA3 HhA3). simpl.
    by rewrite H4, Hu4.
  - by rewrite Bring_absent.
Qed.

End eviction_order.

(** ** Expiration *)

Section expiration.
Import Heatwave Invariant.
Context {E : Expiration} {T : Type}.
Implicit Types (b : Bucket T) (zero : T).

(** After [Nail] on an open bucket the table has an entry for the key,
    with the value and the deadline of this call. *)
Lemma Nail_stores id data now b :
  inv b → closed b = false →
  ∃ b1 p,
    Nail id data now b = Some (None, b1) ∧ inv b1 ∧ closed b1 = false ∧
    cache b1 !! id = Some p ∧
    heap b1 !! p = Some (MkItem id data (deadline now (outdated b))).
Proof.
  intros Hinv Hcl. destruct (cache b !! id) as [p|] eqn:Hid.
  - destruct (Nail_existing id data now b p Hinv Hcl Hid)
      as (old & u' & _ & _ & _ & _ & Hn & Hinv').
    do 2 eexists. split; [exact Hn|]. simpl. split_and!; try done.
    apply lookup_insert_eq.
  - destruct (Nail_new id data now b Hinv Hcl Hid)
      as (c1 & u1 & u2 & _ & _ & _ & _ & _ & Hn & Hinv').
    do 2 eexists. split; [exact Hn|]. simpl. split_and!; try done.
    + apply lookup_insert_eq.
    + apply lookup_insert_eq.
Qed.

(** A write followed by a read: a hit with the written value as long as
    the deadline has not passed; after that a miss that removes the entry
    from the table and from the updater, as the sweeper would. *)
Lemma write_then_read zero id data now b :
  inv b → closed b = false →
  ∃ b1 p,
    Nail id data now b = Some (None, b1) ∧
    cache b1 !! id = Some p ∧
    (∀ now', after now' (deadline now (outdated b)) = false →
       ∃ b2, Bring zero id now' b1 = Some ((data, true), b2) ∧
             cache b2 = cache b1 ∧ Size b2 = Size b1) ∧
    (∀ now', after now' (deadline now (outdated b)) = true →
       ∃ u',
         Updater.Remove p (updater b1) = Some u' ∧
         let b2 := set_cache (delete id (cache b1)) (set_updater u' b1) in
         Bring zero id now' b1 = Some ((zero, false), b2) ∧
         cleanupExpired now' [id] b1 = Some b2 ∧
         Size b2 = Size b1 - 1 ∧
         ∃ its, tracks (updater b2) its ∧ p ∉ its).
Proof.
  intros Hinv Hcl.
  destruct (Nail_stores id data now b Hinv Hcl) as (b1 & p & Hn & Hinv1 & Hcl1 & Hid & Hp).
  exists b1, p. split_and!; try done.
  - intros now' Hlive.
    destruct (Bring_hit zero id now' b1 p _ Hinv1 Hcl1 Hid Hp Hlive) as (u' & _ & Hsz & Hb).
    eexists. split; [exact Hb|]. split; [done|].
    unfold Size, isClosed. simpl. by rewrite Hcl1.
  - intros now' Hdead.
    destruct (Bring_expired zero id now' b1 p _ Hinv1 Hcl1 Hid Hp Hdead)
      as (u' & Hrem & Hsz & Hb & Hsweep & Hinv2).
    exists u'. cbv zeta. split_and!; try done.
    + unfold Size, isClosed. simpl. by rewrite Hcl1.
    + destruct Hinv2 as (its & Htr & (_ & Hl2) & _). exists its. split; [done|].
      intros Hin. destruct (Hl2 p Hin) as (k & Hk & Hc). simpl in Hk, Hc.
      rewrite Hp in Hk. simpl in Hk. injection Hk as <-.
      by rewrite lookup_delete_eq in Hc.
Qed.

End expiration.

(** * The claims that speak of time, for Go's clock *)

Section go_clock.
Import Heatwave Invariant.
Context {T : Type}.
Local Existing Instance go_time.
Implicit Types (b : Bucket T) (zero : T).

Lemma go_after_false (now dl : Z) : now ≤ dl → after (Expiration:=go_time) now dl = false.
Proof. intros H. simpl. by apply Z.ltb_ge. Qed.

Lemma go_after_true (now dl : Z) : dl < now → after (Expiration:=go_time) now dl = true.
Proof. intros H. simpl. by apply Z.ltb_lt. Qed.

(** C3. Recency order: on a new bucket with [maxSize] 3, the default LRU
    updater and a TTL [d], [Put(A), Put(B), Put(C)] run without a panic;
    [Get(A)], no later than A's deadline, is a hit; [Put(D)] succeeds;
    then [Get(B)] is a miss while [Get(A)], [Get(C)] and [Get(D)], each no
    later than the deadline of its entry, are hits with the stored
    values: the touch made [B] the least recently used entry. *)
Theorem C3_lru_recency_order zero (vA vB vC vD : T) (d t1 t2 t3 t4 t5 t6 t7 t8 t9 : Z) :
  t4 ≤ t1 + d → t7 ≤ t1 + d → t8 ≤ t3 + d → t9 ≤ t5 + d →
  ∃ b3 b4 b5,
    calls zero (three_puts vA vB vC t1 t2 t3)
          (NewBucket [WithMaxSize 3; WithBucketOutdated d]) = Some b3 ∧
    Bring zero "A" t4 b3 = Some ((vA, true), b4) ∧
    Nail "D" vD t5 b4 = Some (None, b5) ∧
    fst <$> Bring zero "B" t6 b5 = Some (zero, false) ∧
    fst <$> Bring zero "A" t7 b5 = Some (vA, true) ∧
    fst <$> Bring zero "C" t8 b5 = Some (vC, true) ∧
    fst <$> Bring zero "D" t9 b5 = Some (vD, true).
Proof. intros. by apply lru_example; apply go_after_false. Qed.

(** C4. Arrival order: the same history on a bucket with the FIFO updater.
    [Get(A)], no later than A's deadline, is a hit, yet it reorders
    nothing: [Put(D)] evicts [A], the oldest entry, and [Get(A)] is then a
    miss at any time, while [B], [C] and [D] are in the table. *)
Theorem C4_fifo_arrival_order zero (vA vB vC vD : T) (d t1 t2 t3 t4 t5 t6 : Z) :
  t4 ≤ t1 + d →
  ∃ b3 b4 b5,
    calls zero (three_puts vA vB vC t1 t2 t3)
          (NewBucket [WithMaxSize 3; WithFIFOUpdater; WithBucketOutdated d]) = Some b3 ∧
    Bring zero "A" t4 b3 = Some ((vA, true), b4) ∧
    Nail "D" vD t5 b4 = Some (None, b5) ∧
    fst <$> Bring zero "A" t6 b5 = Some (zero, false) ∧
    cache b5 !! "A" = None ∧
    is_Some (cache b5 !! "B") ∧ is_Some (cache b5 !! "C") ∧ is_Some (cache b5 !! "D").
Proof. intros. by apply fifo_example; apply go_after_false. Qed.

(** C6. TTL expiration discovered on read: on every reachable open state
    of a bucket with a built-in updater and TTL [outdated b], [Nail] at
    time [t0] succeeds; a [Bring] of the key at a time [t <= t0 + TTL]
    returns the written value and leaves the table and [Size()] as they
    are; a [Bring] at a time [t > t0 + TTL] is a miss that deletes the
    key from the table and calls [Remove] on the updater, which is the
    state [cleanupExpired] reaches at that time when [range] yields this
    key; [Size()] drops by one and the item is no longer tracked. *)
Theorem C6_ttl_expiration_on_read zero (opts : list NewBucketOption) (cs : list (Call T))
    b id data (t0 : Z) :
  Forall builtin_option opts →
  calls zero cs (NewBucket opts) = Some b →
  closed b = false →
  ∃ b1 p,
    Nail id data t0 b = Some (None, b1) ∧
    cache b1 !! id = Some p ∧
    (∀ t : Z, t ≤ t0 + outdated b →
       ∃ b2, Bring zero id t b1 = Some ((data, true), b2) ∧
             cache b2 = cache b1 ∧ Size b2 = Size b1) ∧
    (∀ t : Z, t0 + outdated b < t →
       ∃ u',
         Updater.Remove p (updater b1) = Some u' ∧
         let b2 := set_cache (delete id (cache b1)) (set_updater u' b1) in
         Bring zero id t b1 = Some ((zero, false), b2) ∧
         cleanupExpired t [id] b1 = Some b2 ∧
         cache b2 !! id = None ∧
         Size b2 = Size b1 - 1 ∧
         ∃ its, tracks (updater b2) its ∧ p ∉ its).
Proof.
  intros Hopts Hrun Hcl.
  destruct (history_inv zero opts cs Hopts) as (b' & Hrun' & Hinv).
  rewrite Hrun in Hrun'. injection Hrun' as <-.
  destruct (write_then_read (E:=go_time) zero id data t0 b Hinv Hcl)
    as (b1 & p & Hn & Hid & Hlive & Hdead).
  exists b1, p. split_and!; try done.
  - intros t Ht. apply Hlive. by apply go_after_false.
  - intros t Ht. destruct (Hdead t (go_after_true _ _ Ht)) as (u' & Hrem & Hb & Hsw & Hsz & Hits).
    exists u'. cbv zeta. split_and!; try done. simpl. apply lookup_delete_eq.
Qed.

End go_clock.

(** ** Never-expire mode *)

Section heap_history.
Import Heatwave Invariant.
Context {E : Expiration} {T : Type}.
Implicit Types (b : Bucket T) (zero : T).

Lemma Nail_written id data now b e b' :
  Nail id data now b = Some (e, b') → written b → written b'.
Proof.
  unfold Nail, makeRoom, isClosed, written. intros H Hw p it.
  repeat (case_match || case_decide || simplify_option_eq); simpl;
    try apply Hw;
    (rewrite lookup_insert; case_decide; [intros [= <-]; simpl; eauto|apply Hw]).
Qed.

Lemma Bring_heap zero id now b r b' :
  Bring zero id now b = Some (r, b') → heap b' = heap b ∧ outdated b' = outdated b.
Proof.
  unfold Bring, isClosed. intros H.
  repeat (case_match || case_decide || simplify_option_eq); done.
Qed.

Lemma deleteExpired_heap keys b b' :
  deleteExpired keys b = Some b' → heap b' = heap b ∧ outdated b' = outdated b.
Proof.
  revert b. induction keys as [|k rest IH]; intros b H; simpl in H; [by simplify_eq|].
  destruct (cache b !! k); [|by apply IH].
  destruct (Updater.Remove _ _); [|done]. simpl in H. by apply IH in H.
Qed.

Lemma call_written zero (c : Call T) b b' :
  call zero c b = Some b' → written b → written b'.
Proof.
  destruct c; simpl; intros H Hw.
  - destruct (Nail _ _ _ _) as [[e b1]|] eqn:Hn; simplify_eq/=. by eapply Nail_written.
  - destruct (Bring _ _ _ _) as [[r b1]|] eqn:Hn; simplify_eq/=.
    apply Bring_heap in Hn as (Hh & Ho). unfold written. by rewrite Hh, Ho.
  - unfold Clear, isClosed in H.
    repeat (case_match || simplify_option_eq); done.
  - unfold Close in H.
    repeat (case_match || simplify_option_eq); done.
  - unfold tick, cleanupExpired, isClosed in H.
    destruct (closed b); [by simplify_eq|].
    destruct (collectExpired _ _ _); [|done]. simpl in H.
    apply deleteExpired_heap in H as (Hh & Ho). unfold written. by rewrite Hh, Ho.
Qed.

Lemma calls_written zero (cs : list (Call T)) b b' :
  calls zero cs b = Some b' → written b → written b'.
Proof.
  revert b. induction cs as [|c cs IH]; intros b H Hw; simpl in H; [by simplify_eq|].
  destruct (call zero c b) as [b1|] eqn:Hc; [|done]. simpl in H.
  eapply IH; [done|]. by eapply call_written.
Qed.

(** A sweep that finds no deadline passed changes nothing. *)
Lemma collectExpired_none now b order :
  inv b →
  (∀ p it, heap b !! p = Some it → after now (expiredAt it) = false) →
  collectExpired now b order = Some [].
Proof.
  intros (its & _ & (Hl1 & _) & _) Hlive.
  induction order as [|k rest IH]; simpl; [done|].
  destruct (cache b !! k) as [p|] eqn:Hk; [|done].
  destruct (Hl1 k p Hk) as (_ & Hkey).
  destruct (heap b !! p) as [it|] eqn:Hp; [|done]. simpl.
  rewrite IH. simpl. by rewrite (Hlive p it Hp).
Qed.

End heap_history.

Section never_expire.
Import Heatwave Invariant NeverExpire.
Context {T : Type}.
Local Existing Instance spec_time.
Implicit Types (b : Bucket T) (zero : T).

Lemma apply_options_never (opts : list BucketOption) b :
  Forall covered opts →
  neverExpire (outdated b) = true ∨ WithBucketNeverExpire ∈ opts →
  neverExpire (outdated (fold_left (λ b o, apply o b) opts b)) = true.
Proof.
  intros Hopts. revert b. induction Hopts as [|o opts Ho _ IH]; intros b Hn; simpl.
  - destruct Hn as [?|Hn]; [done|]. by apply elem_of_nil in Hn.
  - apply IH. destruct Hn as [Hn|Hn].
    + left. destruct o as [d| |[]]; simpl in *; done.
    + apply elem_of_cons in Hn as [<-|Hn]; [by left|by right].
Qed.

Lemma apply_options_covered (opts : list BucketOption) b :
  Forall covered opts → initial b →
  initial (fold_left (λ b o, apply o b) opts b).
Proof.
  intros Hopts. revert b. induction Hopts as [|o opts Ho _ IH]; intros b Hb; [done|].
  simpl. apply IH. destruct o as [d| |o]; simpl.
  - by apply set_outdated_initial.
  - by apply set_outdated_initial.
  - apply apply_option_initial; [by destruct o|done].
Qed.

Lemma NewBucket_never (opts : list BucketOption) :
  Forall covered opts → WithBucketNeverExpire ∈ opts →
  initial (NewBucket (T:=T) opts) ∧
  neverExpire (outdated (NewBucket (T:=T) opts)) = true.
Proof.
  intros Hopts Hin. split.
  - apply apply_options_covered; [done|apply default_initial].
  - apply apply_options_never; [done|by right].
Qed.

Lemma never_deadline (now : Deadline) (x : Expiry) :
  neverExpire x = true → deadline (Expiration:=spec_time) now x = Unbounded.
Proof. intros H. simpl. by rewrite H. Qed.

Lemma never_after (now : Deadline) : after (Expiration:=spec_time) now Unbounded = false.
Proof. by destruct now. Qed.

(** C9. Never-expire mode: on a bucket built with [WithBucketNeverExpire]
    (with a built-in updater, whatever TTL [WithBucketExpire] sets, before
    or after it) every history runs to a state where the flag is still
    set and where: [Nail] on the open bucket stores the entry with an
    unbounded deadline; [Bring] at any time leaves the table as it is and
    is a hit for every key in the table; a sweeper tick at any time, in
    any order, leaves the bucket as it is. So entries leave only by
    eviction, [Clear] or [Close]. *)
Theorem C9_never_expire_mode zero (opts : list BucketOption) (cs : list (Call T)) :
  Forall covered opts → WithBucketNeverExpire ∈ opts →
  ∃ b,
    calls zero cs (NewBucket opts) = Some b ∧
    neverExpire (outdated b) = true ∧
    (∀ id data now,
       closed b = false →
       ∃ b' p, Nail id data now b = Some (None, b') ∧
               cache b' !! id = Some p ∧
               heap b' !! p = Some (MkItem id data Unbounded)) ∧
    (∀ id now,
       ∃ r b', Bring zero id now b = Some (r, b') ∧
               cache b' = cache b ∧
               (closed b = false → is_Some (cache b !! id) → r.2 = true)) ∧
    (∀ now order,
       tick now order b = Some b ∧ cleanupExpired now order b = Some b).
Proof.
  intros Hopts Hin.
  destruct (NewBucket_never opts Hopts Hin) as (Hinit & Hnever0).
  destruct (calls_inv zero cs _ (initial_inv _ Hinit)) as (b & Hrun & Hinv).
  pose proof (calls_config _ _ _ _ Hrun) as Hcfg. injection Hcfg as _ _ Hout _.
  assert (Hnever : neverExpire (outdated b) = true) by (by rewrite Hout).
  assert (Hunb : ∀ p it, heap b !! p = Some it → expiredAt it = Unbounded).
  { intros p it Hp.
    assert (Hw : written b).
    { eapply calls_written; [exact Hrun|]. intros q it' Hq.
      destruct Hinit as (_ & Hh & _). rewrite Hh in Hq. by rewrite lookup_empty in Hq. }
    destruct (Hw p it Hp) as (now & ->). by apply never_deadline. }
  assert (Hlive : ∀ now p it, heap b !! p = Some it → after now (expiredAt it) = false).
  { intros now p it Hp. rewrite (Hunb p it Hp). apply never_after. }
  exists b. split_and!; try done.
  - intros id data now Hcl.
    destruct (Nail_stores id data now b Hinv Hcl) as (b' & p & Hn & _ & _ & Hid & Hp).
    exists b', p. split_and!; try done. by rewrite never_deadline in Hp.
  - intros id now. destruct (closed b) eqn:Hcl.
    { unfold Bring, isClosed. rewrite Hcl. by eauto. }
    destruct (cache b !! id) as [p|] eqn:Hid.
    + destruct Hinv as (its & Htr & (Hl1 & Hl2) & Hrest).
      destruct (Hl1 id p Hid) as (_ & Hkey).
      destruct (heap b !! p) as [it|] eqn:Hp; [|done].
      destruct (Bring_hit zero id now b p it) as (u' & _ & _ & Hb); try done.
      { by exists its. }
      { by eapply Hlive. }
      do 2 eexists. split; [exact Hb|]. by split.
    + rewrite Bring_absent by done. do 2 eexists. split; [done|].
      split; [done|]. by intros _ [? ?].
  - intros now order.
    assert (cleanupExpired now order b = Some b) as Hsweep.
    { unfold cleanupExpired. destruct (closed b); [done|].
      rewrite (collectExpired_none now b order Hinv); [done|]. intros p it. apply Hlive. }
    split; [|done]. unfold tick, isClosed. by destruct (closed b).
Qed.

End never_expire.

(** * The theorems at concrete inputs *)

Section witnesses.
Import Heatwave Invariant.

Local Abbreviation nail := (@CallNail go_time nat).
Local Abbreviation bring := (@CallBring go_time nat).

Lemma in_range_small (z : Z) : -1000 ≤ z ≤ 1000 → GoInt.in_range z.
Proof. unfold GoInt.in_range, GoInt.min_int, GoInt.max_int. lia. Defined.

Lemma C1_witness :
  Forall lru_option [WithMaxSize 2] ∧
  ∃ b, calls (E:=go_time) 0%nat [nail "a" 1%nat 0; bring "a" 1; nail "b" 2%nat 2]
             (NewBucket [WithMaxSize 2]) = Some b ∧
       Z.of_nat (size (cache b)) = Updater.Size (updater b).
Proof.
  assert (Hopts : Forall lru_option [WithMaxSize 2]).
  { repeat constructor; apply in_range_small; lia. }
  split; [exact Hopts|].
  destruct (C1_table_strategy_parity (E:=go_time) 0%nat [WithMaxSize 2]
              [nail "a" 1%nat 0; bring "a" 1; nail "b" 2%nat 2] Hopts)
    as (b & its & Hrun & Hpar & _).
  exists b. by split.
Defined.

Lemma C2_witness :
  Forall lru_option [WithMaxSize 2] ∧
  0 < maxSize (NewBucket (E:=go_time) (T:=nat) [WithMaxSize 2]) ∧
  ∃ b, calls (E:=go_time) 0%nat [nail "a" 1%nat 0; nail "b" 2%nat 1; nail "c" 3%nat 2]
             (NewBucket [WithMaxSize 2]) = Some b ∧
       Updater.Size (updater b) ≤ maxSize b.
Proof.
  assert (Hopts : Forall lru_option [WithMaxSize 2]).
  { repeat constructor; apply in_range_small; lia. }
  assert (Hpos : 0 < maxSize (NewBucket (E:=go_time) (T:=nat) [WithMaxSize 2])).
  { simpl. lia. }
  split; [exact Hopts|]. split; [exact Hpos|].
  destruct (C2_capacity_invariant (E:=go_time) 0%nat [WithMaxSize 2]
              [nail "a" 1%nat 0; nail "b" 2%nat 1; nail "c" 3%nat 2] Hopts Hpos)
    as (b & Hrun & _ & Hcap & _).
  exists b. by split.
Defined.

Lemma C3_witness :
  ∃ b3 b4 b5,
    calls (E:=go_time) 0%nat (three_puts (E:=go_time) 1%nat 2%nat 3%nat 0 1 2)
          (NewBucket [WithMaxSize 3; WithBucketOutdated 10]) = Some b3 ∧
    Bring (E:=go_time) 0%nat "A" 3 b3 = Some ((1%nat, true), b4) ∧
    Nail (E:=go_time) "D" 4%nat 4 b4 = Some (None, b5) ∧
    fst <$> Bring (E:=go_time) 0%nat "B" 5 b5 = Some (0%nat, false) ∧
    fst <$> Bring (E:=go_time) 0%nat "A" 6 b5 = Some (1%nat, true) ∧
    fst <$> Bring (E:=go_time) 0%nat "C" 7 b5 = Some (3%nat, true) ∧
    fst <$> Bring (E:=go_time) 0%nat "D" 8 b5 = Some (4%nat, true).
Proof.
  apply (C3_lru_recency_order 0%nat 1%nat 2%nat 3%nat 4%nat 10 0 1 2 3 4 5 6 7 8); lia.
Defined.

Lemma C4_witness :
  ∃ b3 b4 b5,
    calls (E:=go_time) 0%nat (three_puts (E:=go_time) 1%nat 2%nat 3%nat 0 1 2)
          (NewBucket [WithMaxSize 3; WithFIFOUpdater; WithBucketOutdated 10]) = Some b3 ∧
    Bring (E:=go_time) 0%nat "A" 3 b3 = Some ((1%nat, true), b4) ∧
    Nail (E:=go_time) "D" 4%nat 4 b4 = Some (None, b5) ∧
    fst <$> Bring (E:=go_time) 0%nat "A" 5 b5 = Some (0%nat, false) ∧
    cache b5 !! "A" = None ∧
    is_Some (cache b5 !! "B") ∧ is_Some (cache b5 !! "C") ∧ is_Some (cache b5 !! "D").
Proof.
  apply (C4_fifo_arrival_order 0%nat 1%nat 2%nat 3%nat 4%nat 10 0 1 2 3 4 5); lia.
Defined.

Lemma C5_witness :
  ∃ b b',
    calls (E:=go_time) 0%nat [nail "k" 1%nat 0] (NewBucket []) = Some b ∧
    closed b = false ∧ cache b !! "k" = Some 1%positive ∧
    Nail (E:=go_time) "k" 2%nat 5 b = Some (None, b') ∧
    Size b' = Size b ∧
    ∃ b'', Bring (E:=go_time) 0%nat "k" 6 b' = Some ((2%nat, true), b'').
Proof.
  assert (Hopts : Forall builtin_option []) by constructor.
  assert (F :
    (b ← calls (E:=go_time) 0%nat [nail "k" 1%nat 0] (NewBucket []);
     Some (closed b, cache b !! "k", outdated b))
    = Some (false, Some 1%positive, defaultOutdated)) by (vm_compute; reflexivity).
  destruct (calls (E:=go_time) 0%nat [nail "k" 1%nat 0] (NewBucket [])) as [b|] eqn:Hrun;
    [|discriminate F].
  simpl in F. injection F as Hcl Hk Hout.
  destruct (C5_overwrite_semantics (E:=go_time) 0%nat [] [nail "k" 1%nat 0]
              b "k" 1%positive 2%nat 5 Hopts Hrun Hcl Hk)
    as (old & u' & _ & _ & _ & Hn & _ & Hsz & Hb).
  exists b. eexists. split_and!; [reflexivity|exact Hcl|exact Hk|exact Hn|exact Hsz|].
  apply (Hb 6). rewrite Hout. reflexivity.
Defined.

Lemma C6_witness :
  ∃ b1,
    Nail (E:=go_time) "k" 7%nat 100 (NewBucket [WithBucketOutdated 2]) = Some (None, b1) ∧
    (∃ b2, Bring (E:=go_time) 0%nat "k" 101 b1 = Some ((7%nat, true), b2)) ∧
    (∃ b2, Bring (E:=go_time) 0%nat "k" 103 b1 = Some ((0%nat, false), b2) ∧ Size b2 = Size b1 - 1).
Proof.
  assert (Hopts : Forall builtin_option [WithBucketOutdated 2])
    by (repeat constructor).
  destruct (C6_ttl_expiration_on_read 0%nat [WithBucketOutdated 2] []
              (NewBucket [WithBucketOutdated 2]) "k" 7%nat 100 Hopts eq_refl eq_refl)
    as (b1 & p & Hn & _ & Hlive & Hdead).
  exists b1. split; [exact Hn|]. split.
  - destruct (Hlive 101) as (b2 & Hb & _); [simpl; lia|]. by exists b2.
  - destruct (Hdead 103) as (u' & _ & Hb & _ & _ & Hsz & _); [simpl; lia|].
    eexists. split; [exact Hb|exact Hsz].
Defined.

Lemma C7_witness :
  ∃ b,
    Close (NewBucket (E:=go_time) (T:=nat) []) = Some (None, b) ∧
    Nail (E:=go_time) "k" 1%nat 0 b = Some (Some ErrBucketClosed, b) ∧
    Bring (E:=go_time) 0%nat "k" 0 b = Some ((0%nat, false), b) ∧
    Size b = 0 ∧ Clear b = Some b.
Proof.
  eexists. split; [reflexivity|].
  destruct (C7_closed_state_behaviour (E:=go_time) 0%nat (NewBucket []) _ None eq_refl)
    as (_ & Hn & Hb & Hs & Hc & _).
  split; [apply Hn|]. split; [apply Hb|]. split; [exact Hs|exact Hc].
Defined.

Lemma C8_witness :
  ∃ b1,
    Close (NewBucket (E:=go_time) (T:=nat) []) = Some (None, b1) ∧
    Close b1 = Some (None, b1) ∧ Size b1 = 0.
Proof.
  assert (Hopts : Forall builtin_option []) by constructor.
  destruct (C8_idempotent_close (E:=go_time) 0%nat [] [] (NewBucket []) Hopts eq_refl)
    as (b1 & Hc & _ & _ & _ & Hc' & Hs & _).
  exists b1. split; [exact Hc|]. split; [exact Hc'|exact Hs].
Defined.

Lemma C9_witness :
  ∃ b,
    calls (E:=NeverExpire.spec_time) 0%nat
          [@CallNail NeverExpire.spec_time nat "k" 1%nat (NeverExpire.At 0)]
          (NeverExpire.NewBucket
             [NeverExpire.WithBucketNeverExpire; NeverExpire.WithBucketExpire 2]) = Some b ∧
    (∀ now order, tick now order b = Some b).
Proof.
  assert (Hopts : Forall (NeverExpire.covered)
            [NeverExpire.WithBucketNeverExpire; NeverExpire.WithBucketExpire 2])
    by (repeat constructor).
  assert (Hin : NeverExpire.WithBucketNeverExpire ∈
            [NeverExpire.WithBucketNeverExpire; NeverExpire.WithBucketExpire 2])
    by (apply elem_of_cons; by left).
  destruct (C9_never_expire_mode 0%nat _
              [@CallNail NeverExpire.spec_time nat "k" 1%nat (NeverExpire.At 0)] Hopts Hin)
    as (b & Hrun & _ & _ & _ & Hsweep).
  exists b. split; [exact Hrun|]. intros now order. exact (proj1 (Hsweep now order)).
Defined.

Lemma C10_witness :
  Forall lru_option [WithMaxSize 0] ∧
  maxSize (NewBucket (E:=go_time) (T:=nat) [WithMaxSize 0]) ≤ 0 ∧
  ∃ b, calls (E:=go_time) 0%nat [nail "a" 1%nat 0; nail "b" 2%nat 1]
             (NewBucket [WithMaxSize 0]) = Some b ∧
       Updater.Size (updater b) ≤ 1.
Proof.
  assert (Hopts : Forall lru_option [WithMaxSize 0]).
  { repeat constructor; apply in_range_small; lia. }
  assert (Hnp : maxSize (NewBucket (E:=go_time) (T:=nat) [WithMaxSize 0]) ≤ 0).
  { simpl. lia. }
  split; [exact Hopts|]. split; [exact Hnp|].
  destruct (C10_nonpositive_capacity (E:=go_time) 0%nat [WithMaxSize 0]
              [nail "a" 1%nat 0; nail "b" 2%nat 1] Hopts Hnp)
    as (_ & b & Hrun & _ & Hcap & _).
  exists b. by split.
Defined.

End witnesses.

(** * More of lru.go *)

Section lru_more.
Import Lru LruRepr.
Implicit Types (l : lru) (it : loc) (its : list loc).

(** X1. [Add] of an item that is not tracked puts it in front of the list,
    as the most recently used one, and [Size()] grows by one. It needs
    room below the largest [int]. *)
Theorem X1_lru_Add_puts_in_front l its it :
  repr l its → it ∉ its → Z.of_nat (length its) < GoInt.max_int →
  ∃ l', Add it l = Some l' ∧ repr l' (it :: its) ∧ Size l' = Size l + 1.
Proof.
  intros Hr Hnin Hlt. destruct (Add_repr l its it Hr Hnin Hlt) as (l' & Hadd & Hr').
  exists l'. split_and!; [done..|].
  rewrite (Size_repr _ _ Hr), (Size_repr _ _ Hr'). simpl. lia.
Qed.

Lemma X1_witness :
  ∃ l', Add 7%positive newLRUUpdater = Some l' ∧ repr l' [7%positive] ∧
        Size l' = Size newLRUUpdater + 1.
Proof.
  apply (X1_lru_Add_puts_in_front newLRUUpdater [] 7%positive newLRUUpdater_repr).
  - apply not_elem_of_nil.
  - unfold GoInt.max_int. simpl length. lia.
Defined.

(** X2. [Access] of a tracked item moves it to the front and keeps the
    order of the others and [Size()]; [Access] of an item that is not
    tracked changes nothing. It never panics on a well-formed list. *)
Theorem X2_lru_Access_moves_to_front l its it :
  repr l its →
  ∃ l', Access it l = Some l' ∧ Size l' = Size l ∧
        (((it ∉ its) ∧ (l' = l)) ∨
         ∃ its1 its2, its = its1 ++ it :: its2 ∧ repr l' (it :: its1 ++ its2)).
Proof.
  intros Hr. destruct (decide (it ∈ its)) as [Hin|Hnin].
  - apply list_elem_of_split in Hin as (its1 & its2 & ->).
    destruct (Access_repr l its1 it its2 Hr) as (l' & Hacc & Hr').
    exists l'. split_and!; [done| |right; by exists its1, its2].
    rewrite (Size_repr _ _ Hr), (Size_repr _ _ Hr'). simpl.
    rewrite !length_app. simpl. lia.
  - exists l. split_and!; [by eapply Access_untracked|done|by left].
Qed.

(** X3. [Remove] of a tracked item takes it out, keeps the order of the
    others and lowers [Size()] by one; [Remove] of an item that is not
    tracked changes nothing. *)
Theorem X3_lru_Remove_keeps_order l its it :
  repr l its →
  ∃ l', Remove it l = Some l' ∧
        (((it ∉ its) ∧ (l' = l)) ∨
         ∃ its1 its2, its = its1 ++ it :: its2 ∧ repr l' (its1 ++ its2) ∧
                      Size l' = Size l - 1).
Proof.
  intros Hr. destruct (decide (it ∈ its)) as [Hin|Hnin].
  - apply list_elem_of_split in Hin as (its1 & its2 & ->).
    destruct (Remove_repr l its1 it its2 Hr) as (l' & Hrem & Hr').
    exists l'. split; [done|]. right. exists its1, its2. split_and!; [done..|].
    rewrite (Size_repr _ _ Hr), (Size_repr _ _ Hr').
    rewrite !length_app. simpl. lia.
  - exists l. split; [by eapply Remove_untracked|by left].
Qed.

(** X4. [Evict] on an empty list returns [nil] and changes nothing; on a
    list with items it returns the last one, the least recently used,
    takes it out and lowers [Size()] by one. *)
Theorem X4_lru_Evict_least_recent l its :
  repr l its →
  (its = [] ∧ Evict l = Some (None, l)) ∨
  ∃ its' it l', its = its' ++ [it] ∧ Evict l = Some (Some it, l') ∧
                repr l' its' ∧ Size l' = Size l - 1.
Proof.
  intros Hr. destruct its as [|x its0] using rev_ind.
  - left. split; [done|]. by apply Evict_repr_nil.
  - right. destruct (Evict_repr l its0 x Hr) as (l' & Hev & Hr').
    exists its0, x, l'. split_and!; [done..|].
    rewrite (Size_repr _ _ Hr), (Size_repr _ _ Hr'). rewrite length_app. simpl. lia.
Qed.

Lemma lru_witness_list :
  ∃ l, Add 8%positive newLRUUpdater ≫= Add 9%positive = Some l ∧
       repr l [9%positive; 8%positive].
Proof.
  destruct (Add_repr newLRUUpdater [] 8%positive newLRUUpdater_repr) as (l1 & H1 & Hr1).
  { apply not_elem_of_nil. }
  { unfold GoInt.max_int. simpl length. lia. }
  destruct (Add_repr l1 [8%positive] 9%positive Hr1) as (l2 & H2 & Hr2).
  { intros H%list_elem_of_singleton. discriminate H. }
  { unfold GoInt.max_int. simpl length. lia. }
  exists l2. split; [|done]. rewrite H1. simpl. exact H2.
Defined.

Lemma X2_witness :
  ∃ l l', Add 8%positive newLRUUpdater ≫= Add 9%positive = Some l ∧
          Access 8%positive l = Some l' ∧ Size l' = Size l.
Proof.
  destruct lru_witness_list as (l & Hl & Hr).
  destruct (X2_lru_Access_moves_to_front l _ 8%positive Hr) as (l' & Hacc & Hsz & _).
  exists l, l'. split; [exact Hl|]. split; [exact Hacc|exact Hsz].
Defined.

Lemma X3_witness :
  ∃ l l', Add 8%positive newLRUUpdater ≫= Add 9%positive = Some l ∧
          Remove 8%positive l = Some l'.
Proof.
  destruct lru_witness_list as (l & Hl & Hr).
  destruct (X3_lru_Remove_keeps_order l _ 8%positive Hr) as (l' & Hrem & _).
  exists l, l'. split; [exact Hl|exact Hrem].
Defined.

Lemma X4_witness :
  ∃ l l', Add 8%positive newLRUUpdater ≫= Add 9%positive = Some l ∧
          Evict l = Some (Some 8%positive, l').
Proof.
  destruct lru_witness_list as (l & Hl & Hr).
  destruct (X4_lru_Evict_least_recent l _ Hr)
    as [(Hnil & _)|(its' & it & l' & Heq & Hev & _)]; [done|].
  assert (it = 8%positive) as ->.
  { change [9%positive; 8%positive] with ([9%positive] ++ [8%positive]) in Heq.
    by apply app_inj_tail in Heq as (_ & <-). }
  exists l, l'. split; [exact Hl|exact Hev].
Defined.

(** X5. Emptying an LRU list by [Evict] alone returns the items from the
    least recently used to the most recently used, which is the list in
    reverse, and leaves a well-formed empty list, on which [Evict] returns
    [nil]. *)
Theorem X5_lru_evict_order l its :
  repr l its →
  ∃ l', evict_n (length its) (Updater.of_lru l) = Some (reverse its, Updater.of_lru l') ∧
        repr l' [] ∧
        Updater.Evict (Updater.of_lru l') = Some (None, Updater.of_lru l').
Proof.
  revert l. induction its as [|x its0 IH] using rev_ind; intros l Hr.
  - exists l. split_and!; [done..|].
    unfold Updater.Evict. simpl. by rewrite (Evict_repr_nil l Hr).
  - destruct (Evict_repr l its0 x Hr) as (l1 & Hev & Hr1).
    destruct (IH l1 Hr1) as (l' & Hn & Hr' & Hnil).
    exists l'. split_and!; [|done..].
    rewrite length_app, Nat.add_1_r. cbn [evict_n].
    unfold Updater.Evict at 1. cbn [Updater.impl Updater.self Updater.of_lru
      Updater.lru_methods Updater.mEvict Updater.carrier].
    rewrite Hev. cbn [fmap option_fmap option_map prod_map mbind option_bind id fst snd].
    change (Updater.Pack lru Updater.lru_methods l1) with (Updater.of_lru l1).
    rewrite Hn. cbn [mbind option_bind]. by rewrite reverse_snoc.
Qed.

Lemma X5_witness :
  ∃ l l', Add 8%positive newLRUUpdater ≫= Add 9%positive = Some l ∧
          evict_n 2 (Updater.of_lru l) = Some ([8%positive; 9%positive], Updater.of_lru l').
Proof.
  destruct lru_witness_list as (l & Hl & Hr).
  destruct (X5_lru_evict_order l _ Hr) as (l' & Hn & _).
  exists l, l'. split; [exact Hl|exact Hn].
Defined.

(** X6. [Add] followed by [Remove] of the same item gives back a list that
    tracks the items it tracked before, in the same order. *)
Theorem X6_lru_Add_Remove_round_trip l its it :
  repr l its → it ∉ its → Z.of_nat (length its) < GoInt.max_int →
  ∃ l1 l2, Add it l = Some l1 ∧ Remove it l1 = Some l2 ∧
           repr l2 its ∧ Size l2 = Size l.
Proof.
  intros Hr Hnin Hlt. destruct (Add_repr l its it Hr Hnin Hlt) as (l1 & Hadd & Hr1).
  destruct (Remove_repr l1 [] it its Hr1) as (l2 & Hrem & Hr2).
  exists l1, l2. split_and!; [done..|].
  by rewrite (Size_repr _ _ Hr), (Size_repr _ _ Hr2).
Qed.

Lemma X6_witness :
  ∃ l1 l2, Add 7%positive newLRUUpdater = Some l1 ∧ Remove 7%positive l1 = Some l2 ∧
           repr l2 [] ∧ Size l2 = Size newLRUUpdater.
Proof.
  apply (X6_lru_Add_Remove_round_trip newLRUUpdater [] 7%positive newLRUUpdater_repr).
  - apply not_elem_of_nil.
  - unfold GoInt.max_int. simpl length. lia.
Defined.

(** X7. [Add] does not look whether the item is tracked already. [Add] of
    a tracked item links a second node for it and counts it twice; a
    [Remove] then unlinks the new node and forgets the item in [nodeMap],
    while the old node stays in the list: the list holds the same nodes as
    before the two calls and [Size()] is what it was, but [Access] and
    [Remove] of the item now do nothing. *)
Theorem X7_lru_Add_of_tracked_item l its it :
  repr l its → it ∈ its → Z.of_nat (length its) < GoInt.max_int →
  ∃ l1 l2 ps,
    Add it l = Some l1 ∧ Size l1 = Size l + 1 ∧
    Remove it l1 = Some l2 ∧ Size l2 = Size l ∧
    its = ps.*2 ∧ shape l2 ps ∧
    nodeMap l2 !! it = None ∧
    Access it l2 = Some l2 ∧ Remove it l2 = Some l2.
Proof.
  intros (ps & -> & Hnd & Hsh & Hmap & Hsz & Hmax) Hin Hlt.
  unfold Add, alloc. set (n := fresh (dom (mem l))).
  destruct (shape_alloc l ps (LruNode (Some it) None None) Hsh) as (Hsh0 & Hnin).
  fold n in Hsh0, Hnin. set (l0 := set_nodeMap _ _).
  destruct (shape_link l0 ps n (LruNode (Some it) None None) it)
    as (l1 & Hadd & Hsh1 & Hh1 & Ht1 & Hnm1 & Hs1); [exact Hsh0| |done|exact Hnin|].
  { simpl. by rewrite lookup_insert_eq. }
  destruct (shape_unlink l1 [] n it ps Hsh1)
    as (l2 & Hrem & Hsh2 & Hh2 & Ht2 & Hnm2 & Hs2 & _ & _).
  assert (Hsize1 : size l1 = size l + 1).
  { rewrite Hs1. simpl. rewrite wrap_in_range; [done|].
    unfold GoInt.in_range, GoInt.min_int, GoInt.max_int in *. lia. }
  assert (Hsize2 : size l2 = size l).
  { rewrite Hs2, Hsize1. rewrite wrap_in_range; [lia|].
    unfold GoInt.in_range, GoInt.min_int, GoInt.max_int in *. lia. }
  assert (Hnone : nodeMap (set_nodeMap (delete it (nodeMap l2)) l2) !! it = None).
  { simpl. apply lookup_delete_eq. }
  exists l1, (set_nodeMap (delete it (nodeMap l2)) l2), ps.
  split_and!; try done.
  - unfold Remove. rewrite Hnm1. simpl. rewrite lookup_insert_eq. simpl in Hrem.
    by rewrite Hrem.
  - unfold Access. by rewrite Hnone.
  - unfold Remove. by rewrite Hnone.
Qed.

Lemma X7_witness :
  ∃ l l1 l2,
    Add 8%positive newLRUUpdater ≫= Add 9%positive = Some l ∧
    Add 8%positive l = Some l1 ∧ Remove 8%positive l1 = Some l2 ∧
    Size l2 = Size l ∧ nodeMap l2 !! 8%positive = None.
Proof.
  destruct lru_witness_list as (l & Hl & Hr).
  destruct (X7_lru_Add_of_tracked_item l _ 8%positive Hr)
    as (l1 & l2 & ps & Hadd & _ & Hrem & Hsz & _ & _ & Hnone & _).
  - apply elem_of_cons. right. apply elem_of_cons. by left.
  - unfold GoInt.max_int. simpl length. lia.
  - exists l, l1, l2. split; [exact Hl|]. split; [exact Hadd|].
    split; [exact Hrem|]. split; [exact Hsz|exact Hnone].
Defined.

(** X8. [Clear] works on every list, well formed or not: it never panics
    and leaves a well-formed empty list with [Size()] 0, on which [Evict]
    returns [nil]. *)
Theorem X8_lru_Clear_from_any_state l :
  ∃ l', Clear l = Some l' ∧ repr l' [] ∧ Size l' = 0 ∧ Evict l' = Some (None, l').
Proof.
  exists (reset (mem l)). pose proof (reset_repr (mem l)) as Hr.
  split_and!; [done|done| |by apply Evict_repr_nil].
  by rewrite (Size_repr _ _ Hr).
Qed.

End lru_more.

(** * More of fifo.go *)

Section fifo_more.
Import Fifo.
Implicit Types (f : fifo) (it : loc).

(** X9. Emptying a FIFO updater by [Evict] alone returns the items in the
    order in which [Add] received them, oldest first, and leaves it empty:
    whatever items are [Add]ed one after the other to a new FIFO updater,
    as many calls of [Evict] return exactly that list. *)
Theorem X9_fifo_evict_order (added : list loc) :
  ∃ u, foldl (λ o it, o ≫= Updater.Add it) (Some (Updater.of_fifo newFIFO)) added = Some u ∧
       Updater.Size u = Z.of_nat (length added) ∧
       evict_n (length added) u = Some (added, Updater.of_fifo (MkFifo [])).
Proof.
  assert (Hadd : ∀ added its,
    foldl (λ o it, o ≫= Updater.Add it) (Some (Updater.of_fifo (MkFifo its))) added
    = Some (Updater.of_fifo (MkFifo (its ++ added)))).
  { clear. induction added as [|x added IH]; intros its; simpl.
    - by rewrite app_nil_r.
    - unfold Updater.Add at 2. simpl.
      change (Updater.Pack fifo Updater.fifo_methods (MkFifo (its ++ [x])))
        with (Updater.of_fifo (MkFifo (its ++ [x]))).
      rewrite IH. by rewrite <- app_assoc. }
  assert (Hdrain : ∀ l, evict_n (length l) (Updater.of_fifo (MkFifo l))
                        = Some (l, Updater.of_fifo (MkFifo []))).
  { clear. induction l as [|x l IH]; [done|]. simpl length. cbn [evict_n].
    unfold Updater.Evict at 1. simpl.
    change (Updater.Pack fifo Updater.fifo_methods (MkFifo l))
      with (Updater.of_fifo (MkFifo l)).
    by rewrite IH. }
  exists (Updater.of_fifo (MkFifo added)). split_and!.
  - apply (Hadd added []).
  - done.
  - apply Hdrain.
Qed.

(** X10. [Remove] takes out the first occurrence of the item and nothing
    else: a later occurrence stays, and an item that is not in the slice
    leaves it as it is. *)
Theorem X10_fifo_Remove_first_occurrence f it :
  ∃ f', Remove it f = Some f' ∧
        (it ∉ items f → items f' = items f) ∧
        (∀ l1 l2, items f = l1 ++ it :: l2 → it ∉ l1 → items f' = l1 ++ l2).
Proof.
  eexists. split; [done|]. simpl. split.
  - apply splice_notin.
  - intros l1 l2 -> Hnin. by apply splice_app.
Qed.

End fifo_more.

(** * More of heatwave.go *)

Section bucket_more.
Import Heatwave Invariant.
Context {E : Expiration} {T : Type}.
Implicit Types (b : Bucket T) (zero : T) (id k : string) (p : loc).

Lemma calls_app zero (cs1 cs2 : list (Call T)) b :
  calls zero (cs1 ++ cs2) b = calls zero cs1 b ≫= calls zero cs2.
Proof.
  revert b. induction cs1 as [|c cs1 IH]; intros b; simpl; [done|].
  destruct (call zero c b); simpl; [apply IH|done].
Qed.

(** The keys that the first loop of [cleanupExpired] collects. *)
Lemma collectExpired_spec now b order keys :
  collectExpired now b order = Some keys →
  ∀ k, k ∈ keys ↔
       k ∈ order ∧ ∃ p it, cache b !! k = Some p ∧ heap b !! p = Some it ∧
                           after now (expiredAt it) = true.
Proof.
  revert keys. induction order as [|k0 rest IH]; intros keys H k; simpl in H.
  - simplify_eq. split; [by intros ?%elem_of_nil|by intros [?%elem_of_nil _]].
  - destruct (cache b !! k0) as [p0|] eqn:Hk0.
    + destruct (heap b !! p0) as [it0|] eqn:Hp0; [|done]. simpl in H.
      destruct (collectExpired now b rest) as [ks|]; [|done]. simpl in H.
      specialize (IH ks eq_refl k). simplify_eq.
      destruct (after now (expiredAt it0)) eqn:Ha.
      * rewrite !elem_of_cons, IH. split.
        -- intros [->|[? ?]]; [|by auto]. split; [by left|]. by exists p0, it0.
        -- intros [[->|?] ?]; [by left|by right].
      * rewrite elem_of_cons, IH. split.
        -- intros [? ?]; by auto.
        -- intros [[->|?] Hx]; [|done].
           destruct Hx as (p & it & Hk & Hp & Hx). simplify_eq. congruence.
    + rewrite elem_of_cons, (IH keys H k). split.
      * intros [? ?]; by auto.
      * intros [[->|?] Hx]; [|done].
        destruct Hx as (p & it & Hk & _). congruence.
Qed.

(** The second loop deletes the collected keys and nothing else. *)
Lemma deleteExpired_spec keys b :
  inv b →
  ∃ b', deleteExpired keys b = Some b' ∧ inv b' ∧
        heap b' = heap b ∧ closed b' = closed b ∧
        ∀ k, cache b' !! k = if decide (k ∈ keys) then None else cache b !! k.
Proof.
  revert b. induction keys as [|k0 rest IH]; intros b Hinv; simpl.
  - exists b. split_and!; done.
  - destruct (cache b !! k0) as [p0|] eqn:Hk0.
    + destruct (inv_remove_entry b k0 p0 Hinv Hk0) as (u' & -> & Hinv' & _). simpl.
      destruct (IH _ Hinv') as (b' & Hd & Hinv'' & Hh & Hcl & Hc).
      exists b'. split_and!; try done. intros k. rewrite Hc. simpl.
      destruct (decide (k = k0)) as [->|Hne]; repeat case_decide;
        rewrite ?lookup_delete_eq, ?lookup_delete_ne by done; try done;
        exfalso; set_solver.
    + destruct (IH _ Hinv) as (b' & Hd & Hinv'' & Hh & Hcl & Hc).
      exists b'. split_and!; try done. intros k. rewrite Hc.
      destruct (decide (k = k0)) as [->|Hne]; repeat case_decide; try done;
        exfalso; set_solver.
Qed.

Lemma sweep_exact now order b :
  inv b → closed b = false →
  (∀ k, is_Some (cache b !! k) → k ∈ order) →
  ∃ b', cleanupExpired now order b = Some b' ∧ inv b' ∧
        heap b' = heap b ∧ closed b' = false ∧
        (∀ k p it, cache b !! k = Some p → heap b !! p = Some it →
           cache b' !! k = if after now (expiredAt it) then None else Some p) ∧
        (∀ k, cache b !! k = None → cache b' !! k = None).
Proof.
  intros Hinv Hcl Hall. unfold cleanupExpired. rewrite Hcl.
  destruct (collectExpired_inv now b order Hinv) as [keys Hkeys]. rewrite Hkeys. simpl.
  pose proof (collectExpired_spec now b order keys Hkeys) as Hspec.
  destruct (deleteExpired_spec keys b Hinv) as (b' & Hd & Hinv' & Hh & Hcl' & Hc).
  exists b'. split_and!; try done; [congruence| |].
  - intros k p it Hk Hp. rewrite Hc. case_decide as Hin.
    + apply Hspec in Hin as (_ & p1 & it1 & ? & ? & Ha). simplify_eq. by rewrite Ha.
    + destruct (after now (expiredAt it)) eqn:Ha; [|done].
      exfalso. apply Hin, Hspec. split; [by apply Hall|]. by exists p, it.
  - intros k Hk. rewrite Hc. by case_decide.
Qed.

(** X11. A sweep over the whole table removes exactly the entries whose
    deadline has passed, in whatever order [range] yields the keys: every
    other entry stays with its item, no item is changed, every entry that
    is left is a hit for a read at the time of the sweep, and table and
    updater have the same size afterwards. *)
Theorem X11_sweep_removes_exactly_expired zero (opts : list NewBucketOption)
    (cs : list (Call T)) b now order :
  Forall builtin_option opts →
  calls zero cs (NewBucket opts) = Some b →
  closed b = false →
  (∀ k, is_Some (cache b !! k) → k ∈ order) →
  ∃ b', cleanupExpired now order b = Some b' ∧
        heap b' = heap b ∧
        (∀ k p it, cache b !! k = Some p → heap b !! p = Some it →
           cache b' !! k = if after now (expiredAt it) then None else Some p) ∧
        (∀ k, cache b !! k = None → cache b' !! k = None) ∧
        (∀ k, is_Some (cache b' !! k) →
           ∃ v b'', Bring zero k now b' = Some ((v, true), b'')) ∧
        Z.of_nat (size (cache b')) = Updater.Size (updater b').
Proof.
  intros Hopts Hrun Hcl Hall.
  destruct (history_inv zero opts cs Hopts) as (b0 & Hrun0 & Hinv).
  rewrite Hrun in Hrun0. injection Hrun0 as <-.
  destruct (sweep_exact now order b Hinv Hcl Hall)
    as (b' & Hsw & Hinv' & Hh & Hcl' & Hsome & Hnone).
  exists b'. split_and!; try done.
  - intros k [p Hk'].
    destruct (cache b !! k) as [p0|] eqn:Hk; [|by rewrite (Hnone k Hk) in Hk'].
    pose proof Hinv as (its & _ & (Hl1 & _) & _).
    destruct (Hl1 k p0 Hk) as (_ & Hkey).
    destruct (heap b !! p0) as [it|] eqn:Hp; [|done].
    pose proof (Hsome k p0 it Hk Hp) as Hk''. rewrite Hk' in Hk''.
    destruct (after now (expiredAt it)) eqn:Ha; [done|]. simplify_eq.
    destruct (Bring_hit zero k now b' p0 it Hinv' Hcl' Hk') as (u' & _ & _ & Hb);
      [by rewrite Hh|done|]. eauto.
  - destruct Hinv' as (its & Htr & _ & Hsz & _).
    rewrite (tracks_Size _ _ Htr). lia.
Qed.

(** *** What the calls do to the entries they are not about *)

Lemma keeps_shrink b b' id it :
  heap b' = heap b →
  (∀ k, cache b' !! k = None ∨ cache b' !! k = cache b !! k) →
  keeps b id it → closed b = false → keeps b' id it.
Proof.
  intros Hh Hc [Hk|[Hk|(p & Hk & Hp)]] Hcl; [congruence| |].
  - right; left. destruct (Hc id) as [?|?]; congruence.
  - right. destruct (Hc id) as [?|Heq]; [by left|]. right. exists p.
    rewrite Heq, Hh. done.
Qed.

Local Ltac same_table := split_and!; try done; try (intros ?; by right).

Lemma makeRoom_shrink b b1 :
  makeRoom b = Some b1 →
  heap b1 = heap b ∧ closed b1 = closed b ∧
  ∀ k, cache b1 !! k = None ∨ cache b1 !! k = cache b !! k.
Proof.
  unfold makeRoom. intros H. case_decide.
  - destruct (Updater.Evict (updater b)) as [[[v|] u]|]; simplify_eq/=.
    + destruct (heap b !! v) as [itv|]; simplify_eq/=. split_and!; try done.
      intros k. destruct (decide (k = key itv)) as [->|Hne].
      * left. apply lookup_delete_eq.
      * right. by apply lookup_delete_ne.
    + same_table.
  - simplify_eq. same_table.
Qed.

Lemma Bring_shrink zero id now b r b' :
  Bring zero id now b = Some (r, b') →
  heap b' = heap b ∧ closed b' = closed b ∧
  ∀ k, cache b' !! k = None ∨ cache b' !! k = cache b !! k.
Proof.
  unfold Bring, isClosed. intros H.
  destruct (closed b) eqn:Hcl; [simplify_eq; same_table|].
  destruct (cache b !! id) as [p|]; [|simplify_eq; same_table].
  destruct (heap b !! p) as [it|]; simplify_eq/=.
  destruct (after now (expiredAt it)).
  - destruct (Updater.Remove p (updater b)); simplify_eq/=. split_and!; try done.
    intros k. destruct (decide (k = id)) as [->|Hne].
    + left. apply lookup_delete_eq.
    + right. by apply lookup_delete_ne.
  - destruct (Updater.Access p (updater b)); simplify_eq/=. same_table.
Qed.

Lemma deleteExpired_shrink keys b b' :
  deleteExpired keys b = Some b' →
  heap b' = heap b ∧ closed b' = closed b ∧
  ∀ k, cache b' !! k = None ∨ cache b' !! k = cache b !! k.
Proof.
  revert b. induction keys as [|k0 rest IH]; intros b H; simpl in H.
  - simplify_eq. same_table.
  - destruct (cache b !! k0) as [p0|] eqn:Hk0; [|by apply IH].
    destruct (Updater.Remove _ _); [|done]. simpl in H.
    apply IH in H as (Hh & Hcl & Hc). simpl in *. split_and!; try done.
    intros k. destruct (Hc k) as [?|Heq]; [by left|].
    destruct (decide (k = k0)) as [->|Hne].
    + left. by rewrite Heq, lookup_delete_eq.
    + right. by rewrite Heq, lookup_delete_ne.
Qed.

Lemma tick_shrink now order b b' :
  tick now order b = Some b' →
  heap b' = heap b ∧ closed b' = closed b ∧
  ∀ k, cache b' !! k = None ∨ cache b' !! k = cache b !! k.
Proof.
  unfold tick, cleanupExpired, isClosed. intros H.
  destruct (closed b) eqn:Hcl; [simplify_eq; same_table|].
  destruct (collectExpired _ _ _); [|done]. simpl in H.
  apply deleteExpired_shrink in H as (? & ? & ?). split_and!; [done|congruence|done].
Qed.

(** A [Nail] of another key leaves what [id] holds: its item is not
    written, and its entry stays or is evicted. *)
Lemma Nail_keeps id' data now b e b' id it :
  inv b → key it = id → id' ≠ id →
  Nail id' data now b = Some (e, b') →
  keeps b id it → keeps b' id it.
Proof.
  intros Hinv Hkey Hne Hn Hk. destruct (closed b) eqn:Hcl.
  { unfold Nail, isClosed in Hn. rewrite Hcl in Hn. by simplify_eq. }
  destruct (cache b !! id') as [p'|] eqn:Hid'.
  - destruct (Nail_existing id' data now b p' Hinv Hcl Hid')
      as (old & u' & Hold & Hkold & _ & _ & Hn' & _).
    cbv zeta in Hn'. rewrite Hn in Hn'. injection Hn' as -> ->.
    destruct Hk as [Hk|[Hk|(p & Hk & Hp)]]; [congruence|by right; left|].
    right; right. exists p. simpl. split; [done|].
    rewrite lookup_insert_ne; [done|]. intros ->. by simplify_eq.
  - destruct (Nail_new id' data now b Hinv Hcl Hid')
      as (c1 & u1 & u2 & Hmr & _ & _ & _ & _ & Hn' & _).
    cbv zeta in Hn'. rewrite Hn in Hn'. injection Hn' as -> ->.
    apply makeRoom_shrink in Hmr as (_ & _ & Hc). simpl in Hc.
    destruct Hk as [Hk|[Hk|(p & Hk & Hp)]]; [congruence| |].
    + right; left. simpl. rewrite lookup_insert_ne by done.
      destruct (Hc id) as [?|?]; congruence.
    + right. simpl. rewrite lookup_insert_ne by done.
      destruct (Hc id) as [?|Heq]; [by left|]. right. exists p.
      split; [congruence|]. rewrite lookup_insert_ne; [done|].
      intros Hf. pose proof (is_fresh (dom (heap b))) as Hfr.
      rewrite Hf in Hfr. apply Hfr. apply elem_of_dom. by eexists.
Qed.

Lemma call_keeps zero (c : Call T) b b' id it :
  inv b → key it = id → (∀ d t, c ≠ CallNail id d t) →
  call zero c b = Some b' →
  keeps b id it → keeps b' id it.
Proof.
  intros Hinv Hkey Hc Hcall Hk. destruct (closed b) eqn:Hcl.
  { rewrite (call_closed zero c b Hcl) in Hcall. by simplify_eq. }
  destruct c as [id' data now|id' now| | |now order]; simpl in Hcall.
  - destruct (Nail id' data now b) as [[e b1]|] eqn:Hn; simplify_eq/=.
    eapply Nail_keeps; try done. intros ->. by eapply Hc.
  - destruct (Bring zero id' now b) as [[r b1]|] eqn:Hn; simplify_eq/=.
    apply Bring_shrink in Hn as (Hh & _ & Hsh). by eapply keeps_shrink.
  - unfold Clear, isClosed in Hcall. rewrite Hcl in Hcall. simpl in Hcall.
    destruct (Updater.Clear _); simplify_eq/=. right; left. apply lookup_empty.
  - destruct (Close_inv b Hinv) as (b1 & Hcls & _ & Hcl1). rewrite Hcls in Hcall.
    simplify_eq/=. by left.
  - apply tick_shrink in Hcall as (Hh & _ & Hsh). by eapply keeps_shrink.
Qed.

Lemma calls_keeps zero (cs : list (Call T)) b b' id it :
  inv b → key it = id → (∀ d t, CallNail id d t ∉ cs) →
  calls zero cs b = Some b' →
  keeps b id it → keeps b' id it ∧ inv b'.
Proof.
  revert b. induction cs as [|c cs IH]; intros b Hinv Hkey Hno Hrun Hk; simpl in Hrun.
  - by simplify_eq.
  - destruct (call_inv zero c b Hinv) as (b1 & Hc & Hinv1). rewrite Hc in Hrun.
    simpl in Hrun. eapply (IH b1); try done.
    + intros d t Hin. apply (Hno d t). by apply elem_of_cons; right.
    + apply (call_keeps zero c b b1 id it Hinv Hkey); [|done|done].
      intros d t Heq. subst c. apply (Hno d t).
      by apply elem_of_cons; left.
Qed.

(** X12. A read never returns a stale value and never one whose deadline
    has passed: after the last [Nail] of a key in a history, whatever else
    was called since, [Bring] of this key returns the value of that [Nail]
    or a miss, and it returns a miss if the deadline computed by that
    [Nail] has passed. No read or other call extends a deadline. *)
Theorem X12_Bring_returns_last_write zero (opts : list NewBucketOption)
    (cs1 cs2 : list (Call T)) id data t0 b now :
  Forall builtin_option opts →
  (∀ d t, CallNail id d t ∉ cs2) →
  calls zero (cs1 ++ CallNail id data t0 :: cs2) (NewBucket opts) = Some b →
  ∃ r b', Bring zero id now b = Some (r, b') ∧
          (r = (data, true) ∨ r = (zero, false)) ∧
          (after now (deadline t0 (outdated b)) = true → r = (zero, false)).
Proof.
  intros Hopts Hno Hrun. rewrite calls_app in Hrun.
  destruct (history_inv zero opts cs1 Hopts) as (b0 & Hrun0 & Hinv0).
  rewrite Hrun0 in Hrun. simpl in Hrun.
  destruct (Nail id data t0 b0) as [[e b1]|] eqn:Hn; [|done]. simpl in Hrun.
  set (it := MkItem id data (deadline t0 (outdated b0))).
  assert (keeps b1 id it ∧ inv b1) as (Hk1 & Hinv1).
  { destruct (closed b0) eqn:Hcl.
    - unfold Nail, isClosed in Hn. rewrite Hcl in Hn. simplify_eq. split; [by left|done].
    - destruct (Nail_stores id data t0 b0 Hinv0 Hcl) as (b1' & p & Hn' & ? & ? & ? & ?).
      rewrite Hn in Hn'. simplify_eq. split; [|done]. right; right. by exists p. }
  destruct (calls_keeps zero cs2 b1 b id it Hinv1 eq_refl Hno Hrun Hk1) as (Hk & Hinv).
  assert (Hout : outdated b = outdated b0).
  { apply calls_config in Hrun. apply Nail_config in Hn. unfold config in *. congruence. }
  rewrite Hout.
  destruct (closed b) eqn:Hcl.
  { unfold Bring, isClosed. rewrite Hcl. do 2 eexists. split; [done|]. by split; [right|]. }
  destruct Hk as [Hk|[Hk|(p & Hk & Hp)]]; [congruence| |].
  - rewrite (Bring_absent zero id now b Hk). do 2 eexists. split; [done|]. by split; [right|].
  - destruct (after now (expiredAt it)) eqn:Ha.
    + destruct (Bring_expired zero id now b p it Hinv Hcl Hk Hp Ha) as (u' & _ & _ & Hb & _).
      cbv zeta in Hb. rewrite Hb. do 2 eexists. split; [done|]. by split; [right|].
    + destruct (Bring_hit zero id now b p it Hinv Hcl Hk Hp Ha) as (u' & _ & _ & Hb).
      rewrite Hb. do 2 eexists. split; [done|]. split; [by left|].
      simpl in Ha. congruence.
Qed.

Lemma call_spares zero (c : Call T) b b' id p it :
  inv b → closed b = false → cache b !! id = Some p → heap b !! p = Some it →
  spares id (expiredAt it) c →
  call zero c b = Some b' →
  closed b' = false ∧ cache b' !! id = Some p ∧ heap b' !! p = Some it.
Proof.
  intros Hinv Hcl Hid Hp Hsp Hcall.
  destruct c as [id' data now|id' now| | |now order]; simpl in Hsp, Hcall; try done.
  - destruct (Bring zero id' now b) as [[r b1]|] eqn:Hb; simplify_eq/=.
    destruct (decide (id' = id)) as [->|Hne].
    + destruct Hsp as [?|Ha]; [done|].
      destruct (Bring_hit zero id now b p it Hinv Hcl Hid Hp Ha) as (u' & _ & _ & Hb').
      rewrite Hb in Hb'. by simplify_eq.
    + pose proof Hb as Hb'. apply Bring_shrink in Hb' as (Hh & Hcl' & _).
      split_and!; [congruence| |congruence].
      revert Hb. unfold Bring, isClosed. rewrite Hcl. intros Hb.
      repeat (case_match || simplify_option_eq); simpl; try done.
      by rewrite lookup_delete_ne.
  - unfold tick, cleanupExpired, isClosed in Hcall. rewrite Hcl in Hcall.
    destruct (collectExpired now b order) as [keys|] eqn:Hkeys; [|done]. simpl in Hcall.
    destruct (deleteExpired_spec keys b Hinv) as (b1 & Hd & _ & Hh & Hcl' & Hc).
    rewrite Hd in Hcall. simplify_eq. split_and!; [congruence| |congruence].
    rewrite Hc. case_decide as Hin; [|done].
    apply (collectExpired_spec now b order keys Hkeys) in Hin
      as (_ & p1 & it1 & ? & ? & Ha). simplify_eq. congruence.
Qed.

Lemma calls_spares zero (cs : list (Call T)) b id p it :
  inv b → closed b = false → cache b !! id = Some p → heap b !! p = Some it →
  Forall (spares id (expiredAt it)) cs →
  ∃ b', calls zero cs b = Some b' ∧ inv b' ∧
        closed b' = false ∧ cache b' !! id = Some p ∧ heap b' !! p = Some it.
Proof.
  revert b. induction cs as [|c cs IH]; intros b Hinv Hcl Hid Hp Hall; simpl.
  - by exists b.
  - apply Forall_cons in Hall as (Hc & Hall).
    destruct (call_inv zero c b Hinv) as (b1 & Hcall & Hinv1). rewrite Hcall. simpl.
    destruct (call_spares zero c b b1 id p it Hinv Hcl Hid Hp Hc Hcall) as (? & ? & ?).
    by apply IH.
Qed.

(** X13. An entry is not lost to reads or sweeps before its deadline:
    after a [Nail] on an open bucket, any reads of other keys, and any
    reads of this key and sweeps at times at which the deadline has not
    passed, leave the entry in place, and a read before the deadline
    returns the written value. *)
Theorem X13_entry_survives_until_deadline zero (opts : list NewBucketOption)
    (cs0 cs : list (Call T)) b id data t0 now :
  Forall builtin_option opts →
  calls zero cs0 (NewBucket opts) = Some b →
  closed b = false →
  Forall (spares id (deadline t0 (outdated b))) cs →
  after now (deadline t0 (outdated b)) = false →
  ∃ b1 b2 b3,
    Nail id data t0 b = Some (None, b1) ∧
    calls zero cs b1 = Some b2 ∧
    Bring zero id now b2 = Some ((data, true), b3).
Proof.
  intros Hopts Hrun Hcl Hall Ha.
  destruct (history_inv zero opts cs0 Hopts) as (b0 & Hrun0 & Hinv).
  rewrite Hrun in Hrun0. injection Hrun0 as <-.
  destruct (Nail_stores id data t0 b Hinv Hcl) as (b1 & p & Hn & Hinv1 & Hcl1 & Hid & Hp).
  destruct (calls_spares zero cs b1 id p _ Hinv1 Hcl1 Hid Hp Hall)
    as (b2 & Hrun2 & Hinv2 & Hcl2 & Hid2 & Hp2).
  destruct (Bring_hit zero id now b2 p _ Hinv2 Hcl2 Hid2 Hp2 Ha) as (u' & _ & _ & Hb).
  by exists b1, b2, (set_updater u' b2).
Qed.

(** X14. [Nail] keeps the other entries: the items of other keys are not
    written; when the key is present already or the updater is below
    [maxSize] every other key keeps its entry and a new key makes [Size()]
    grow by one; in any case at most one other key loses its entry. *)
Theorem X14_Nail_keeps_other_entries zero (opts : list NewBucketOption)
    (cs : list (Call T)) b id data now :
  Forall builtin_option opts →
  calls zero cs (NewBucket opts) = Some b →
  closed b = false →
  ∃ b', Nail id data now b = Some (None, b') ∧
        (∀ p it, heap b !! p = Some it → key it ≠ id → heap b' !! p = Some it) ∧
        (is_Some (cache b !! id) ∨ Updater.Size (updater b) < maxSize b →
           ∀ k, k ≠ id → cache b' !! k = cache b !! k) ∧
        (cache b !! id = None → Updater.Size (updater b) < maxSize b →
           Size b' = Size b + 1) ∧
        ∃ victim : option string,
          ∀ k, k ≠ id → Some k ≠ victim → cache b' !! k = cache b !! k.
Proof.
  intros Hopts Hrun Hcl.
  destruct (history_inv zero opts cs Hopts) as (b0 & Hrun0 & Hinv).
  rewrite Hrun in Hrun0. injection Hrun0 as <-.
  destruct (cache b !! id) as [p0|] eqn:Hid.
  - destruct (Nail_existing id data now b p0 Hinv Hcl Hid)
      as (old & u' & Hold & Hkold & _ & _ & Hn & _).
    cbv zeta in Hn. eexists. split; [exact Hn|]. simpl. split_and!.
    + intros p it Hp Hkey. rewrite lookup_insert_ne; [done|].
      intros <-. by simplify_eq.
    + done.
    + done.
    + by exists None.
  - destruct (Nail_new id data now b Hinv Hcl Hid)
      as (c1 & u1 & u2 & Hmr & Hadd & Hsz2 & Hsz1 & _ & Hn & _).
    cbv zeta in Hn. eexists. split; [exact Hn|]. simpl.
    pose proof Hmr as Hmr'. unfold makeRoom in Hmr'.
    split_and!.
    + intros p it Hp Hkey. rewrite lookup_insert_ne; [done|].
      intros Hf. pose proof (is_fresh (dom (heap b))) as Hfr.
      rewrite Hf in Hfr. apply Hfr. apply elem_of_dom. by eexists.
    + intros [[? ?]|Hlt]; [done|]. intros k Hne.
      rewrite decide_False in Hmr' by lia. injection Hmr' as Hb.
      apply (f_equal cache) in Hb. simpl in Hb.
      rewrite lookup_insert_ne by done. by rewrite <- Hb.
    + intros _ Hlt. unfold Size, isClosed. simpl. rewrite Hcl.
      rewrite decide_False in Hmr' by lia. injection Hmr' as Hb.
      apply (f_equal updater) in Hb. simpl in Hb. rewrite Hsz2. by rewrite <- Hb.
    + case_decide as Hfull.
      * destruct (Updater.Evict (updater b)) as [[[v|] u]|]; simplify_eq/=.
        -- destruct (heap b !! v) as [itv|]; simplify_eq/=.
           exists (Some (key itv)). intros k Hne Hv.
           rewrite lookup_insert_ne by done. rewrite lookup_delete_ne; [done|].
           congruence.
        -- apply (f_equal cache) in Hmr'. simpl in Hmr'. subst c1.
           exists None. intros k Hne _. by rewrite lookup_insert_ne.
      * injection Hmr' as Hb. apply (f_equal cache) in Hb. simpl in Hb. subst c1.
        exists None. intros k Hne _. by rewrite lookup_insert_ne.
Qed.

Lemma call_closed_flag zero (c : Call T) b b' :
  call zero c b = Some b' → closed b = false →
  closed b' = match c with CallClose => true | _ => false end ∧
  (closed b' = true → cache b' = ∅).
Proof.
  intros Hcall Hcl.
  destruct c as [id data now|id now| | |now order]; simpl in Hcall.
  - destruct (Nail id data now b) as [[e b1]|] eqn:Hn; simplify_eq/=.
    assert (closed b' = false); [|split; congruence].
    destruct (cache b !! id) as [p|] eqn:Hid.
    + revert Hn. unfold Nail, isClosed. rewrite Hcl, Hid.
      destruct (heap b !! p); [|done]. simpl.
      destruct (Updater.Access _ _); intros; by simplify_eq/=.
    + revert Hn. unfold Nail, isClosed. rewrite Hcl, Hid.
      destruct (makeRoom b) as [b1|] eqn:Hmr; [|done]. simpl.
      apply makeRoom_shrink in Hmr as (_ & Hcl1 & _).
      destruct (Updater.Add _ _); intros; simplify_eq/=. congruence.
  - destruct (Bring zero id now b) as [[r b1]|] eqn:Hn; simplify_eq/=.
    apply Bring_shrink in Hn as (_ & ? & _). split; congruence.
  - unfold Clear, isClosed in Hcall. rewrite Hcl in Hcall. simpl in Hcall.
    destruct (Updater.Clear _); simplify_eq/=. split; congruence.
  - unfold Close in Hcall. rewrite Hcl in Hcall. simpl in Hcall.
    destruct (Chan.try_send _); [|done]. simpl in Hcall.
    destruct (Chan.close _); [|done]. simpl in Hcall.
    destruct (Updater.Clear _); by simplify_eq/=.
  - apply tick_shrink in Hcall as (_ & ? & _). split; congruence.
Qed.

Lemma apply_options_open (opts : list NewBucketOption) b :
  closed (fold_left (λ b opt, apply_option opt b) opts b) = closed b.
Proof.
  revert b. induction opts as [|o opts IH]; intros b; simpl; [done|].
  rewrite IH. by destruct o.
Qed.

Lemma calls_closed_flag zero (cs : list (Call T)) b b' :
  calls zero cs b = Some b' → closed b = false →
  (closed b' = true ↔ CallClose ∈ cs) ∧ (closed b' = true → cache b' = ∅).
Proof.
  revert b. induction cs as [|c cs IH]; intros b Hrun Hcl; simpl in Hrun.
  - simplify_eq. rewrite Hcl. split; [|done]. split; [done|by intros ?%elem_of_nil].
  - destruct (call zero c b) as [b1|] eqn:Hc; [|done]. simpl in Hrun.
    destruct (call_closed_flag zero c b b1 Hc Hcl) as (Hcl1 & Hemp).
    rewrite elem_of_cons. destruct (closed b1) eqn:Hb1.
    + rewrite (calls_closed zero cs b1 Hb1) in Hrun. simplify_eq.
      split; [|intros _; by apply Hemp]. split; [|done]. intros _. left. by destruct c.
    + destruct (IH b1 Hrun Hb1) as (Hiff & Hemp'). split; [|done].
      rewrite Hiff. split; [by right|].
      intros [Heq|?]; [subst c; simpl in Hcl1; congruence|done].
Qed.

(** X15. [IsClosed] says whether [Close] was called: in any history of a
    new bucket, with any options and any updater, the bucket is closed
    afterwards if and only if the history contains a call of [Close]. No
    other call closes a bucket and no call reopens one. *)
Theorem X15_closed_iff_Close_called zero (opts : list NewBucketOption)
    (cs : list (Call T)) b :
  calls zero cs (NewBucket opts) = Some b →
  (IsClosed b = true ↔ CallClose ∈ cs).
Proof.
  intros Hrun. unfold IsClosed, isClosed.
  apply (calls_closed_flag zero cs (NewBucket opts) b Hrun).
  unfold NewBucket. by rewrite apply_options_open.
Qed.

(** X16. [Clear] drops every entry and nothing else: the bucket stays
    open with its configuration, [Size()] is 0, every read is a miss that
    changes nothing, and the next [Nail] stores its entry as the only one. *)
Theorem X16_Clear_empties_open_bucket zero (opts : list NewBucketOption)
    (cs : list (Call T)) b :
  Forall builtin_option opts →
  calls zero cs (NewBucket opts) = Some b →
  closed b = false →
  ∃ b', Clear b = Some b' ∧ closed b' = false ∧ cache b' = ∅ ∧ Size b' = 0 ∧
        config b' = config b ∧ heap b' = heap b ∧
        (∀ id now, Bring zero id now b' = Some ((zero, false), b')) ∧
        (∀ id data now,
           ∃ b'' p, Nail id data now b' = Some (None, b'') ∧
                    cache b'' = {[ id := p ]} ∧ Size b'' = 1 ∧
                    ∀ now', after now' (deadline now (outdated b)) = false →
                            fst <$> Bring zero id now' b'' = Some (data, true)).
Proof.
  intros Hopts Hrun Hcl.
  destruct (history_inv zero opts cs Hopts) as (b0 & Hrun0 & Hinv).
  rewrite Hrun in Hrun0. injection Hrun0 as <-.
  destruct (Clear_inv b Hinv) as (b' & Hclr & Hinv').
  pose proof (Clear_config b b' Hclr) as Hcfg.
  assert (closed b' = false ∧ cache b' = ∅ ∧ heap b' = heap b) as (Hcl' & Hc' & Hh').
  { revert Hclr. unfold Clear, isClosed. rewrite Hcl. simpl.
    destruct (Updater.Clear _); intros; by simplify_eq/=. }
  assert (Hsz' : Updater.Size (updater b') = 0).
  { destruct Hinv' as (its & Htr & _ & Hsz & _). rewrite (tracks_Size _ _ Htr).
    rewrite Hc', map_size_empty in Hsz. lia. }
  exists b'. split_and!; try done.
  - unfold Size, isClosed. by rewrite Hcl'.
  - intros id now. apply Bring_absent. by rewrite Hc', lookup_empty.
  - intros id data now.
    assert (Hid : cache b' !! id = None) by (by rewrite Hc', lookup_empty).
    destruct (Nail_new id data now b' Hinv' Hcl' Hid)
      as (c1 & u1 & u2 & Hmr & Hadd & Hsz2 & Hsz1 & _ & Hn & Hinv'').
    cbv zeta in Hn, Hinv''.
    apply makeRoom_shrink in Hmr as (_ & _ & Hc1). simpl in Hc1.
    assert (c1 = ∅) as ->.
    { apply map_eq. intros k. rewrite lookup_empty.
      destruct (Hc1 k) as [?|Heq]; [done|]. by rewrite Heq, Hc', lookup_empty. }
    rewrite map_size_empty in Hsz1.
    eexists _, (fresh (dom (heap b'))). split; [exact Hn|]. simpl. split_and!.
    + by rewrite insert_empty.
    + unfold Size, isClosed. simpl. rewrite Hcl'. lia.
    + intros now' Ha.
      match type of Hn with _ = Some (_, ?x) => set (b2 := x) in * end.
      destruct (Bring_hit zero id now' b2 (fresh (dom (heap b')))
                  (MkItem id data (deadline now (outdated b'))) Hinv'')
        as (u' & _ & _ & Hb);
        [done|subst b2; simpl; apply lookup_insert_eq
        |subst b2; simpl; apply lookup_insert_eq| |].
      * simpl. unfold config in Hcfg. congruence.
      * by rewrite Hb.
Qed.

(** X17. With the FIFO updater as with the LRU list, after every history
    the table and the updater hold the same number of items, [Size()] is
    this number while the bucket is open, and it stays between 0 and
    [maxSize], or 1 where [maxSize] is below 1. *)
Theorem X17_Size_counts_keys zero (opts : list NewBucketOption) (cs : list (Call T)) :
  Forall builtin_option opts →
  ∃ b, calls zero cs (NewBucket opts) = Some b ∧
       maxSize b = maxSize (NewBucket (T:=T) opts) ∧
       Z.of_nat (size (cache b)) = Updater.Size (updater b) ∧
       (closed b = false → Size b = Z.of_nat (size (cache b))) ∧
       (closed b = true → Size b = 0 ∧ cache b = ∅) ∧
       0 ≤ Size b ≤ Z.max (maxSize b) 1.
Proof.
  intros Hopts.
  destruct (history_inv zero opts cs Hopts) as (b & Hrun & Hinv).
  exists b. pose proof (calls_config zero cs _ _ Hrun) as Hcfg.
  pose proof Hinv as (its & Htr & Hls & Hsz & Hcap & _).
  assert (Hpar : Z.of_nat (size (cache b)) = Updater.Size (updater b)).
  { rewrite (tracks_Size _ _ Htr). lia. }
  split; [done|]. split; [unfold config in Hcfg; congruence|]. split; [done|].
  split; [intros Hcl; unfold Size, isClosed; by rewrite Hcl|]. split.
  - intros Hcl. split; [unfold Size, isClosed; by rewrite Hcl|].
    apply (calls_closed_flag zero cs (NewBucket opts) b Hrun); [|done].
    unfold NewBucket. by rewrite apply_options_open.
  - unfold Size, isClosed. destruct (closed b); lia.
Qed.

End bucket_more.

(** * The further theorems at concrete inputs *)

Section more_witnesses.
Import Heatwave Invariant.

Local Abbreviation nail := (@CallNail go_time nat).
Local Abbreviation bring := (@CallBring go_time nat).
Local Abbreviation sweep := (@CallTick go_time nat).

Lemma ten_builtin : Forall builtin_option [WithBucketOutdated 10].
Proof. repeat constructor. Defined.

(** Two writes, at the times 0 and 5, with a TTL of 10. *)
Lemma two_writes :
  ∃ b, calls (E:=go_time) 0%nat [nail "k" 1%nat 0; nail "j" 2%nat 5]
             (NewBucket [WithBucketOutdated 10]) = Some b ∧
       closed b = false ∧
       @map_to_list string loc _ _ (cache b) = [("k", 1%positive); ("j", 2%positive)].
Proof.
  assert (F :
    (b ← calls (E:=go_time) 0%nat [nail "k" 1%nat 0; nail "j" 2%nat 5]
               (NewBucket [WithBucketOutdated 10]);
     Some (closed b, map_to_list (cache b)))
    = Some (false, [("k", 1%positive); ("j", 2%positive)])) by (vm_compute; reflexivity).
  destruct (calls (E:=go_time) 0%nat [nail "k" 1%nat 0; nail "j" 2%nat 5]
                  (NewBucket [WithBucketOutdated 10])) as [b|] eqn:Hrun;
    [|discriminate F].
  change (Some (closed b, @map_to_list string loc _ _ (cache b))
          = Some (false, [("k", 1%positive); ("j", 2%positive)])) in F.
  injection F as Hcl Hl.
  exists b. split; [reflexivity|]. split; [exact Hcl|exact Hl].
Defined.

Lemma X11_witness :
  ∃ b b',
    calls (E:=go_time) 0%nat [nail "k" 1%nat 0; nail "j" 2%nat 5]
          (NewBucket [WithBucketOutdated 10]) = Some b ∧
    cleanupExpired (E:=go_time) 12 ["j"; "k"] b = Some b' ∧
    heap b' = heap b ∧
    Z.of_nat (size (cache b')) = Updater.Size (updater b').
Proof.
  destruct two_writes as (b & Hrun & Hcl & Hl).
  destruct (X11_sweep_removes_exactly_expired (E:=go_time) 0%nat
              [WithBucketOutdated 10] _ b 12 ["j"; "k"] ten_builtin Hrun Hcl)
    as (b' & Hsw & Hh & _ & _ & _ & Hsz).
  - intros k [p Hk]. rewrite <- elem_of_map_to_list in Hk. rewrite Hl in Hk.
    apply elem_of_cons in Hk as [Hk|Hk].
    + injection Hk as -> _. apply elem_of_cons. right. apply elem_of_cons. by left.
    + apply elem_of_cons in Hk as [Hk|Hk]; [|destruct (not_elem_of_nil _ Hk)].
      injection Hk as -> _. apply elem_of_cons. by left.
  - exists b, b'. split; [exact Hrun|]. split; [exact Hsw|]. split; [exact Hh|exact Hsz].
Defined.

Lemma X12_witness :
  ∃ b r b',
    calls (E:=go_time) 0%nat ([] ++ nail "k" 1%nat 0 :: [bring "k" 3; nail "j" 2%nat 4])
          (NewBucket [WithBucketOutdated 10]) = Some b ∧
    Bring (E:=go_time) 0%nat "k" 20 b = Some (r, b') ∧
    (r = (1%nat, true) ∨ r = (0%nat, false)).
Proof.
  destruct (history_inv (E:=go_time) 0%nat [WithBucketOutdated 10]
              ([] ++ nail "k" 1%nat 0 :: [bring "k" 3; nail "j" 2%nat 4]) ten_builtin)
    as (b & Hrun & _).
  destruct (X12_Bring_returns_last_write (E:=go_time) 0%nat [WithBucketOutdated 10]
              [] [bring "k" 3; nail "j" 2%nat 4] "k" 1%nat 0 b 20 ten_builtin)
    as (r & b' & Hb & Hr & _).
  - intros d t Hin. apply elem_of_cons in Hin as [Hin|Hin]; [discriminate Hin|].
    apply elem_of_cons in Hin as [Hin|Hin]; [discriminate Hin|].
    destruct (not_elem_of_nil _ Hin).
  - exact Hrun.
  - exists b, r, b'. split; [exact Hrun|]. split; [exact Hb|exact Hr].
Defined.

Lemma X13_witness :
  ∃ b1 b2 b3,
    Nail (E:=go_time) "k" 1%nat 0 (NewBucket [WithBucketOutdated 10]) = Some (None, b1) ∧
    calls (E:=go_time) 0%nat [bring "k" 3; sweep 5 ["k"]; bring "z" 100] b1 = Some b2 ∧
    Bring (E:=go_time) 0%nat "k" 10 b2 = Some ((1%nat, true), b3).
Proof.
  apply (X13_entry_survives_until_deadline (E:=go_time) 0%nat [WithBucketOutdated 10] []
           [bring "k" 3; sweep 5 ["k"]; bring "z" 100]
           (NewBucket [WithBucketOutdated 10]) "k" 1%nat 0 10 ten_builtin eq_refl eq_refl).
  - constructor; [right; reflexivity|]. constructor; [reflexivity|].
    constructor; [left; discriminate|constructor].
  - reflexivity.
Defined.

Lemma X14_witness :
  ∃ b',
    Nail (E:=go_time) "k" 1%nat 0 (NewBucket []) = Some (None, b') ∧
    Size b' = Size (NewBucket (E:=go_time) (T:=nat) []) + 1.
Proof.
  destruct (X14_Nail_keeps_other_entries (E:=go_time) 0%nat [] [] (NewBucket [])
              "k" 1%nat 0 (Forall_nil_2 _) eq_refl eq_refl)
    as (b' & Hn & _ & _ & Hsz & _).
  exists b'. split; [exact Hn|]. apply Hsz; [reflexivity|]. vm_compute. reflexivity.
Defined.

Lemma X15_witness :
  ∃ b,
    calls (E:=go_time) 0%nat [nail "k" 1%nat 0; CallClose; nail "j" 2%nat 1]
          (NewBucket []) = Some b ∧
    IsClosed b = true.
Proof.
  destruct (history_inv (E:=go_time) 0%nat []
              [nail "k" 1%nat 0; CallClose; nail "j" 2%nat 1] (Forall_nil_2 _))
    as (b & Hrun & _).
  exists b. split; [exact Hrun|].
  apply (X15_closed_iff_Close_called (E:=go_time) 0%nat [] _ b Hrun).
  apply elem_of_cons. right. apply elem_of_cons. by left.
Defined.

Lemma X16_witness :
  ∃ b b',
    calls (E:=go_time) 0%nat [nail "k" 1%nat 0; nail "j" 2%nat 5]
          (NewBucket [WithBucketOutdated 10]) = Some b ∧
    Clear b = Some b' ∧ Size b' = 0 ∧
    Bring (E:=go_time) 0%nat "k" 1 b' = Some ((0%nat, false), b').
Proof.
  destruct two_writes as (b & Hrun & Hcl & _).
  destruct (X16_Clear_empties_open_bucket (E:=go_time) 0%nat [WithBucketOutdated 10]
              _ b ten_builtin Hrun Hcl)
    as (b' & Hclr & _ & _ & Hsz & _ & _ & Hb & _).
  exists b, b'. split; [exact Hrun|]. split; [exact Hclr|]. split; [exact Hsz|apply Hb].
Defined.

Lemma X17_witness :
  Forall builtin_option [WithMaxSize 2; WithFIFOUpdater] ∧
  ∃ b, calls (E:=go_time) 0%nat [nail "a" 1%nat 0; nail "b" 2%nat 1; nail "c" 3%nat 2]
             (NewBucket [WithMaxSize 2; WithFIFOUpdater]) = Some b ∧
       0 ≤ Size b ≤ Z.max (maxSize b) 1.
Proof.
  assert (Hopts : Forall builtin_option [WithMaxSize 2; WithFIFOUpdater]).
  { repeat constructor; apply in_range_small; lia. }
  split; [exact Hopts|].
  destruct (X17_Size_counts_keys (E:=go_time) 0%nat [WithMaxSize 2; WithFIFOUpdater]
              [nail "a" 1%nat 0; nail "b" 2%nat 1; nail "c" 3%nat 2] Hopts)
    as (b & Hrun & _ & _ & _ & _ & Hsz).
  exists b. split; [exact Hrun|exact Hsz].
Defined.

End more_witnesses.

(** * The older revision, src/heatwave.go *)

Section older.
Import Heatwave.
Context {E : Expiration} {T : Type}.
Implicit Types (b : Bucket T) (lb : Older.Bucket T) (zero : T) (c : Chan.chan).

Lemma Older_makeRoom_of_newer c b :
  Older.makeRoom (Older.of_newer c b) = Older.of_newer c <$> makeRoom b.
Proof.
  unfold Older.makeRoom, makeRoom. simpl. case_decide; [|done].
  destruct (Updater.Evict (updater b)) as [[[v|] u]|]; simpl; try done.
  by destruct (heap b !! v).
Qed.

Lemma Older_Nail_of_newer c id data now b :
  closed b = false →
  Older.Nail id data now (Older.of_newer c b)
  = prod_map Datatypes.id (Older.of_newer c) <$> Nail id data now b.
Proof.
  intros Hcl. unfold Older.Nail, Nail, isClosed. rewrite Hcl. simpl.
  destruct (cache b !! id) as [p|].
  - destruct (heap b !! p) as [it|]; simpl; [|done].
    by destruct (Updater.Access p (updater b)).
  - rewrite Older_makeRoom_of_newer. destruct (makeRoom b) as [b1|]; simpl; [|done].
    by destruct (Updater.Add _ (updater b1)).
Qed.

Lemma Older_Bring_of_newer c zero id now b :
  closed b = false →
  Older.Bring zero id now (Older.of_newer c b)
  = prod_map Datatypes.id (Older.of_newer c) <$> Bring zero id now b.
Proof.
  intros Hcl. unfold Older.Bring, Bring, isClosed. rewrite Hcl. simpl.
  destruct (cache b !! id) as [p|]; [|done].
  destruct (heap b !! p) as [it|]; simpl; [|done].
  destruct (after now (expiredAt it)).
  - by destruct (Updater.Remove p (updater b)).
  - by destruct (Updater.Access p (updater b)).
Qed.

Lemma Older_collectExpired_of_newer c now order b :
  Older.collectExpired now (Older.of_newer c b) order = collectExpired now b order.
Proof.
  induction order as [|k rest IH]; simpl; [done|].
  destruct (cache b !! k) as [p|]; [|done]. by rewrite IH.
Qed.

Lemma Older_deleteExpired_of_newer c keys b :
  Older.deleteExpired keys (Older.of_newer c b) = Older.of_newer c <$> deleteExpired keys b.
Proof.
  revert b. induction keys as [|k rest IH]; intros b; simpl; [done|].
  destruct (cache b !! k) as [p|]; [|apply IH].
  destruct (Updater.Remove p (updater b)) as [u|]; simpl; [|done].
  exact (IH (set_cache (delete k (cache b)) (set_updater u b))).
Qed.

Lemma Older_call_of_newer c zero (x : Call T) b :
  closed b = false → (∀ b', x = CallClose → False) →
  Older.call zero x (Older.of_newer c b) = Older.of_newer c <$> call zero x b.
Proof.
  intros Hcl Hx. destruct x as [id data now|id now| | |now order]; simpl.
  - rewrite (Older_Nail_of_newer c id data now b Hcl).
    by destruct (Nail id data now b) as [[e b1]|].
  - rewrite (Older_Bring_of_newer c zero id now b Hcl).
    by destruct (Bring zero id now b) as [[r b1]|].
  - unfold Older.Clear, Clear, isClosed. rewrite Hcl. simpl.
    by destruct (Updater.Clear (updater b)).
  - by destruct (Hx b).
  - unfold Older.cleanupExpired, tick, cleanupExpired, isClosed. rewrite Hcl.
    rewrite Older_collectExpired_of_newer.
    destruct (collectExpired now b order) as [keys|]; simpl; [|done].
    apply Older_deleteExpired_of_newer.
Qed.

Lemma Older_calls_of_newer c zero (cs : list (Call T)) b :
  closed b = false → CallClose ∉ cs →
  Older.calls zero cs (Older.of_newer c b) = Older.of_newer c <$> calls zero cs b.
Proof.
  revert b. induction cs as [|x cs IH]; intros b Hcl Hno; simpl; [done|].
  rewrite (Older_call_of_newer c zero x b Hcl).
  2:{ intros _ ->. apply Hno. by apply elem_of_cons; left. }
  destruct (call zero x b) as [b1|] eqn:Hx; simpl; [|done].
  apply IH.
  - destruct (call_closed_flag zero x b b1 Hx Hcl) as (Hcl1 & _). rewrite Hcl1.
    destruct x; try done. exfalso. apply Hno. by apply elem_of_cons; left.
  - intros Hin. apply Hno. by apply elem_of_cons; right.
Qed.

Lemma Older_apply_options (opts : list NewBucketOption) lb b :
  Older.name lb = name b → Older.maxSize lb = maxSize b →
  Older.cleanupInterval lb = cleanupInterval b → Older.cache lb = cache b →
  Older.updater lb = updater b → Older.heap lb = heap b →
  default (ttl defaultOutdated) (Older.outdated lb) = outdated b →
  let lb' := fold_left (λ x opt, Older.apply_option opt x) opts lb in
  let b' := fold_left (λ b opt, apply_option opt b) opts b in
  Older.name lb' = name b' ∧ Older.maxSize lb' = maxSize b' ∧
  Older.cleanupInterval lb' = cleanupInterval b' ∧ Older.cache lb' = cache b' ∧
  Older.updater lb' = updater b' ∧ Older.heap lb' = heap b' ∧
  default (ttl defaultOutdated) (Older.outdated lb') = outdated b' ∧
  Older.stopCleanup lb' = Older.stopCleanup lb.
Proof.
  revert lb b. induction opts as [|o opts IH]; intros lb b H1 H2 H3 H4 H5 H6 H7; simpl.
  - done.
  - destruct (IH (Older.apply_option o lb) (apply_option o b)) as (?&?&?&?&?&?&?&Hc);
      by destruct o.
Qed.

Lemma Older_NewBucket_of_newer (opts : list NewBucketOption) :
  Older.NewBucket (T:=T) opts = Older.of_newer (Chan.make 0) (NewBucket opts).
Proof.
  unfold Older.NewBucket, NewBucket.
  match goal with |- context [fold_left _ opts ?x] =>
    match type of x with Older.Bucket T => set (lb0 := x) end end.
  match goal with |- context [fold_left (λ b opt, apply_option opt b) opts ?x] =>
    set (b0 := x) end.
  destruct (Older_apply_options opts lb0 b0) as (H1&H2&H3&H4&H5&H6&H7&H8); try done.
  cbv zeta in *. 
  destruct (fold_left (λ x opt, Older.apply_option opt x) opts lb0) as [n m o ci ca u ch h].
  simpl in *. subst. unfold Older.of_newer, Older.set_outdated.
  destruct o; simpl in *; by rewrite <- H7.
Qed.

(** X18. The older revision (src/heatwave.go) and the revision with the
    [closed] flag agree as long as [Close] is not called: the same options
    and the same history of [Nail], [Bring], [Clear] and sweeper ticks
    give the same table, updater, items and settings, or panic in both,
    and afterwards [Bring] returns the same and [Size] is the same. *)
Theorem X18_older_revision_agrees zero (opts : list NewBucketOption) (cs : list (Call T)) :
  CallClose ∉ cs →
  Older.calls zero cs (Older.NewBucket opts)
  = Older.of_newer (Chan.make 0) <$> calls zero cs (NewBucket opts) ∧
  ∀ b, calls zero cs (NewBucket opts) = Some b →
    Older.Size (Older.of_newer (Chan.make 0) b) = Size b ∧
    (∀ id data now,
       fst <$> Older.Nail id data now (Older.of_newer (Chan.make 0) b)
       = fst <$> Nail id data now b) ∧
    (∀ id now,
       fst <$> Older.Bring zero id now (Older.of_newer (Chan.make 0) b)
       = fst <$> Bring zero id now b).
Proof.
  intros Hno.
  assert (Hopen : closed (NewBucket (T:=T) opts) = false).
  { unfold NewBucket. by rewrite apply_options_open. }
  split.
  - rewrite Older_NewBucket_of_newer. by apply Older_calls_of_newer.
  - intros b Hrun.
    assert (Hcl : closed b = false).
    { destruct (calls_closed_flag zero cs _ b Hrun Hopen) as (Hiff & _).
      destruct (closed b); [|done]. by destruct Hno; apply Hiff. }
    split_and!.
    + unfold Older.Size, Size, isClosed. by rewrite Hcl.
    + intros id data now. rewrite (Older_Nail_of_newer _ id data now b Hcl).
      by destruct (Nail id data now b) as [[e b1]|].
    + intros id now. rewrite (Older_Bring_of_newer _ zero id now b Hcl).
      by destruct (Bring zero id now b) as [[r b1]|].
Qed.

(** *** [Close] in the older revision *)

Lemma Older_makeRoom_chan c lb :
  Older.makeRoom (Older.set_stopCleanup c lb)
  = Older.set_stopCleanup c <$> Older.makeRoom lb.
Proof.
  unfold Older.makeRoom. simpl. case_decide; [|done].
  destruct (Updater.Evict (Older.updater lb)) as [[[v|] u]|]; simpl; try done.
  by destruct (Older.heap lb !! v).
Qed.

Lemma Older_Nail_chan c id data now lb :
  Older.Nail id data now (Older.set_stopCleanup c lb)
  = prod_map Datatypes.id (Older.set_stopCleanup c) <$> Older.Nail id data now lb.
Proof.
  unfold Older.Nail. simpl. destruct (Older.outdated lb) as [od|]; simpl; [|done].
  destruct (Older.cache lb !! id) as [p|].
  - destruct (Older.heap lb !! p) as [it|]; simpl; [|done].
    by destruct (Updater.Access p (Older.updater lb)).
  - rewrite Older_makeRoom_chan. destruct (Older.makeRoom lb) as [b1|]; simpl; [|done].
    by destruct (Updater.Add _ (Older.updater b1)).
Qed.

Lemma Older_Bring_chan c zero id now lb :
  Older.Bring zero id now (Older.set_stopCleanup c lb)
  = prod_map Datatypes.id (Older.set_stopCleanup c) <$> Older.Bring zero id now lb.
Proof.
  unfold Older.Bring. simpl.
  destruct (Older.cache lb !! id) as [p|]; [|done].
  destruct (Older.heap lb !! p) as [it|]; simpl; [|done].
  destruct (after now (expiredAt it)).
  - by destruct (Updater.Remove p (Older.updater lb)).
  - by destruct (Updater.Access p (Older.updater lb)).
Qed.

Lemma Older_deleteExpired_stop keys lb lb1 :
  Older.deleteExpired keys lb = Some lb1 → Older.stopCleanup lb1 = Older.stopCleanup lb.
Proof.
  revert lb. induction keys as [|k rest IH]; intros lb H; simpl in H; [by simplify_eq|].
  destruct (Older.cache lb !! k) as [p|]; [|by apply IH].
  destruct (Updater.Remove p (Older.updater lb)) as [u|]; [|done]. simpl in H.
  by apply IH in H.
Qed.

(** Only [Close] touches the channel. *)
Lemma Older_call_stop zero (x : Call T) lb lb1 :
  Older.call zero x lb = Some lb1 →
  match x with
  | CallClose => Chan.closed (Older.stopCleanup lb) = false
  | _ => Older.stopCleanup lb1 = Older.stopCleanup lb
  end.
Proof.
  destruct x as [id data now|id now| | |now order]; simpl; intros H.
  - destruct (Older.Nail id data now lb) as [[e l1]|] eqn:Hn; simplify_eq/=.
    revert Hn. unfold Older.Nail, Older.makeRoom.
    destruct (Older.outdated lb) as [od|]; simpl; [|done].
    destruct (Older.cache lb !! id) as [p|].
    + destruct (Older.heap lb !! p) as [it|]; simpl; [|done].
      destruct (Updater.Access _ _); simpl; intros; by simplify_eq/=.
    + case_decide.
      * destruct (Updater.Evict _) as [[[v|] u]|]; simpl; [|..|done].
        -- destruct (Older.heap lb !! v); simpl; [|done].
           destruct (Updater.Add _ _); simpl; intros; by simplify_eq/=.
        -- destruct (Updater.Add _ _); simpl; intros; by simplify_eq/=.
      * simpl. destruct (Updater.Add _ _); simpl; intros; by simplify_eq/=.
  - destruct (Older.Bring zero id now lb) as [[r l1]|] eqn:Hn; simplify_eq/=.
    revert Hn. unfold Older.Bring.
    destruct (Older.cache lb !! id) as [p|]; [|intros; by simplify_eq/=].
    destruct (Older.heap lb !! p) as [it|]; simpl; [|done].
    destruct (after now (expiredAt it)).
    + destruct (Updater.Remove _ _); simpl; intros; by simplify_eq/=.
    + destruct (Updater.Access _ _); simpl; intros; by simplify_eq/=.
  - revert H. unfold Older.Clear. simpl.
    destruct (Updater.Clear _); simpl; intros; by simplify_eq/=.
  - revert H. unfold Older.Close, Chan.close.
    by destruct (Chan.closed (Older.stopCleanup lb)).
  - revert H. unfold Older.cleanupExpired.
    destruct (Older.collectExpired now lb order) as [keys|]; simpl; [|done].
    apply Older_deleteExpired_stop.
Qed.

Lemma Older_second_Close zero (cs : list (Call T)) lb :
  Chan.closed (Older.stopCleanup lb) = true → CallClose ∈ cs →
  Older.calls zero cs lb = None.
Proof.
  revert lb. induction cs as [|x cs IH]; intros lb Hcl Hin.
  - by apply elem_of_nil in Hin.
  - simpl. destruct (Older.call zero x lb) as [lb1|] eqn:Hx; [|done]. simpl.
    pose proof (Older_call_stop zero x lb lb1 Hx) as Hst.
    apply elem_of_cons in Hin as [<-|Hin]; [simpl in Hst; congruence|].
    apply IH; [|done]. destruct x; simpl in Hst; congruence.
Qed.

(** X19. In the older revision [Close] only closes the channel of the
    sweeper: the bucket keeps its entries and settings, [Nail] and [Bring]
    go on as if [Close] had not been called (no [ErrBucketClosed], no
    miss), and any later [Close] panics on the closed channel, whatever
    is called in between. *)
Theorem X19_older_Close_only_stops_sweeper zero lb lb' :
  Older.Close lb = Some lb' →
  Older.content lb' = Older.content lb ∧
  Older.Size lb' = Older.Size lb ∧
  (∀ id data now,
     Older.Nail id data now lb'
     = prod_map Datatypes.id (Older.set_stopCleanup (Older.stopCleanup lb'))
         <$> Older.Nail id data now lb) ∧
  (∀ id now,
     Older.Bring zero id now lb'
     = prod_map Datatypes.id (Older.set_stopCleanup (Older.stopCleanup lb'))
         <$> Older.Bring zero id now lb) ∧
  Older.Close lb' = None ∧
  (∀ cs : list (Call T), CallClose ∈ cs → Older.calls zero cs lb' = None).
Proof.
  unfold Older.Close, Chan.close.
  destruct (Chan.closed (Older.stopCleanup lb)) eqn:Hcl; [done|]. simpl.
  intros [= <-]. split_and!; try done.
  - intros id data now. apply Older_Nail_chan.
  - intros id now. apply Older_Bring_chan.
  - intros cs Hin. by apply Older_second_Close.
Qed.

End older.

(** * The updaters of src/example/custom_strategies.go *)

Section strategies.
Implicit Types (it x : loc) (its : list loc).

Lemma random_Evict_snoc its x :
  Random.Evict (Random.MkRandom (its ++ [x])) = Some (Some x, Random.MkRandom its).
Proof.
  unfold Random.Evict. simpl. rewrite length_app, Nat.add_1_r.
  rewrite decide_False by done. simpl. rewrite Nat.sub_0_r.
  rewrite list_lookup_middle by done. simpl. by rewrite take_app_length.
Qed.

(** X20. The strategy called random is a stack: items added one after
    the other to a new [randomStrategy] come out of [Evict] newest first,
    and after as many calls of [Evict] as there were items it is empty. *)
Theorem X20_random_evicts_newest_first (added : list loc) :
  ∃ u, foldl (λ o it, o ≫= Updater.Add it)
             (Some (Random.updater Random.newRandomStrategy)) added = Some u ∧
       Updater.Size u = Z.of_nat (length added) ∧
       evict_n (length added) u
       = Some (reverse added, Random.updater (Random.MkRandom [])).
Proof.
  assert (Hadd : ∀ added its,
    foldl (λ o it, o ≫= Updater.Add it) (Some (Random.updater (Random.MkRandom its))) added
    = Some (Random.updater (Random.MkRandom (its ++ added)))).
  { clear. induction added as [|x added IH]; intros its; simpl.
    - by rewrite app_nil_r.
    - unfold Updater.Add at 2. simpl.
      change (Updater.Pack Random.randomStrategy Random.methods (Random.MkRandom (its ++ [x])))
        with (Random.updater (Random.MkRandom (its ++ [x]))).
      rewrite IH. by rewrite <- app_assoc. }
  assert (Hdrain : ∀ l, evict_n (length l) (Random.updater (Random.MkRandom l))
                        = Some (reverse l, Random.updater (Random.MkRandom []))).
  { clear. induction l as [|x l IH] using rev_ind; [done|].
    rewrite length_app, Nat.add_1_r. cbn [evict_n].
    unfold Updater.Evict at 1.
    cbn [Updater.impl Updater.self Updater.carrier Random.updater Random.methods
         Updater.mEvict].
    rewrite random_Evict_snoc.
    cbn [fmap option_fmap option_map prod_map mbind option_bind id fst snd].
    change (Updater.Pack Random.randomStrategy Random.methods (Random.MkRandom l))
      with (Random.updater (Random.MkRandom l)).
    rewrite IH. cbn [mbind option_bind]. by rewrite reverse_snoc. }
  exists (Random.updater (Random.MkRandom added)). split_and!.
  - apply (Hadd added []).
  - done.
  - apply Hdrain.
Qed.

(** The loop of [frequencyStrategy.Evict]: it keeps its state, or ends
    on the first item of least frequency. *)
Lemma scan_spec (fq : gmap loc Z) (l : list loc) (i : Z) (st : Z * option loc * Z) :
  (Frequency.scan fq l i st = st ∧
   ∀ y fy, y ∈ l → fq !! y = Some fy → st.1.1 ≤ fy) ∨
  (∃ l1 x l2 fr,
     l = l1 ++ x :: l2 ∧ fq !! x = Some fr ∧ fr < st.1.1 ∧
     Frequency.scan fq l i st = (fr, Some x, i + Z.of_nat (length l1)) ∧
     (∀ y fy, y ∈ l1 → fq !! y = Some fy → fr < fy) ∧
     (∀ y fy, y ∈ l2 → fq !! y = Some fy → fr ≤ fy)).
Proof.
  revert i st. induction l as [|item rest IH]; intros i st.
  - left. split; [done|]. by intros y fy ?%elem_of_nil.
  - cbn [Frequency.scan].
    destruct (fq !! item) as [fr0|] eqn:Hitem; [destruct (decide (fr0 < st.1.1)) as [Hlt|Hge]|].
    + destruct (IH (i + 1) (fr0, Some item, i)) as [(Heq & Hmin)|Hfound].
      * right. exists [], item, rest, fr0. simpl. split_and!; try done.
        -- rewrite Heq. f_equal. lia.
        -- by intros y fy ?%elem_of_nil.
      * destruct Hfound as (l1 & x & l2 & fr & -> & Hx & Hlt' & Hscan & Hl1 & Hl2).
        simpl in Hlt'. right. exists (item :: l1), x, l2, fr. split_and!; try done.
        -- lia.
        -- rewrite Hscan. f_equal. simpl length. lia.
        -- intros y fy [->|Hy]%elem_of_cons Hfy; [|by eapply Hl1].
           rewrite Hitem in Hfy. injection Hfy as <-. done.
    + destruct (IH (i + 1) st) as [(Heq & Hmin)|Hfound].
      * left. split; [done|]. intros y fy [->|Hy]%elem_of_cons Hfy; [|by eapply Hmin].
        rewrite Hitem in Hfy. injection Hfy as <-. lia.
      * destruct Hfound as (l1 & x & l2 & fr & -> & Hx & Hlt' & Hscan & Hl1 & Hl2).
        right. exists (item :: l1), x, l2, fr. split_and!; try done.
        -- rewrite Hscan. f_equal. simpl length. lia.
        -- intros y fy [->|Hy]%elem_of_cons Hfy; [|by eapply Hl1].
           rewrite Hitem in Hfy. injection Hfy as <-. lia.
    + destruct (IH (i + 1) st) as [(Heq & Hmin)|Hfound].
      * left. split; [done|]. intros y fy [->|Hy]%elem_of_cons Hfy; [|by eapply Hmin].
        by rewrite Hitem in Hfy.
      * destruct Hfound as (l1 & x & l2 & fr & -> & Hx & Hlt' & Hscan & Hl1 & Hl2).
        right. exists (item :: l1), x, l2, fr. split_and!; try done.
        -- rewrite Hscan. f_equal. simpl length. lia.
        -- intros y fy [->|Hy]%elem_of_cons Hfy; [|by eapply Hl1].
           by rewrite Hitem in Hfy.
Qed.

(** The two outcomes of [frequencyStrategy.Evict]. *)
Lemma frequency_Evict_shape (f : Frequency.frequencyStrategy) :
  Frequency.Evict f = Some (None, f) ∨
  ∃ l1 x l2,
    Frequency.items f = l1 ++ x :: l2 ∧
    Frequency.Evict f
    = Some (Some x, Frequency.MkFrequency (l1 ++ l2) (delete x (Frequency.frequency f))).
Proof.
  destruct f as [l fq]. unfold Frequency.Evict. simpl.
  destruct (scan_spec fq l 0 (GoInt.max_int, None, -1)) as [(Heq & Hmin)|Hfound].
  - left. case_decide; [done|]. rewrite Heq. by rewrite decide_False by lia.
  - destruct Hfound as (l1 & x & l2 & fr & -> & Hx & Hlt & Hscan & Hl1 & Hl2).
    right. exists l1, x, l2. split; [done|].
    rewrite decide_False.
    2:{ rewrite length_app. simpl. lia. }
    rewrite Hscan. rewrite decide_True by lia.
    replace (Z.to_nat (0 + Z.of_nat (length l1))) with (length l1) by lia.
    rewrite take_app_length.
    assert (Hdrop : drop (S (length l1)) (l1 ++ x :: l2) = l2).
    { clear. induction l1 as [|y l1 IH]; simpl; [by rewrite drop_0|done]. }
    by rewrite Hdrop.
Qed.

(** X21. [frequencyStrategy.Evict] gives up the first item of least
    frequency: the item it returns has a frequency below every item
    before it in the slice and at most that of every item after it, and it
    is taken out of the slice and of the frequency map. It returns [nil]
    and changes nothing when the slice is empty, and also when no item has
    a frequency below the largest [int]. *)
Theorem X21_frequency_evicts_least_frequent (f : Frequency.frequencyStrategy) :
  (Frequency.Evict f = Some (None, f) ∧
   ∀ y fy, y ∈ Frequency.items f → Frequency.frequency f !! y = Some fy →
           GoInt.max_int ≤ fy) ∨
  (∃ l1 x l2 fr,
     Frequency.items f = l1 ++ x :: l2 ∧
     Frequency.frequency f !! x = Some fr ∧ fr < GoInt.max_int ∧
     Frequency.Evict f
     = Some (Some x, Frequency.MkFrequency (l1 ++ l2) (delete x (Frequency.frequency f))) ∧
     (∀ y fy, y ∈ l1 → Frequency.frequency f !! y = Some fy → fr < fy) ∧
     (∀ y fy, y ∈ l2 → Frequency.frequency f !! y = Some fy → fr ≤ fy)).
Proof.
  destruct f as [l fq]. unfold Frequency.Evict. simpl.
  destruct (scan_spec fq l 0 (GoInt.max_int, None, -1)) as [(Heq & Hmin)|Hfound].
  - left. split; [|done]. case_decide; [done|]. rewrite Heq.
    by rewrite decide_False by lia.
  - destruct Hfound as (l1 & x & l2 & fr & -> & Hx & Hlt & Hscan & Hl1 & Hl2).
    right. exists l1, x, l2, fr. split_and!; try done.
    rewrite decide_False.
    2:{ rewrite length_app. simpl. lia. }
    rewrite Hscan. rewrite decide_True by lia.
    replace (Z.to_nat (0 + Z.of_nat (length l1))) with (length l1) by lia.
    rewrite take_app_length.
    assert (Hdrop : drop (S (length l1)) (l1 ++ x :: l2) = l2).
    { clear. induction l1 as [|y l1 IH]; simpl; [by rewrite drop_0|done]. }
    by rewrite Hdrop.
Qed.


(** *** The two updaters keep the contract *)

Lemma random_lawful : Contract.lawful tracks_random.
Proof.
  split.
  - by intros u its (-> & Hnd).
  - by intros u its (-> & Hnd).
  - intros u its it (-> & Hnd) Hnin.
    exists (Random.updater (Random.MkRandom (its ++ [it]))), (its ++ [it]).
    split_and!; [done| |by rewrite Permutation_app_comm].
    split; [done|]. apply NoDup_app. split_and!; [done| |apply NoDup_singleton].
    intros y Hy Hy'%list_elem_of_singleton. by subst.
  - intros u its it (-> & Hnd). by exists (Random.updater (Random.MkRandom its)), its.
  - intros u its it (-> & Hnd) Hin.
    apply list_elem_of_split_l in Hin as (l1 & l2 & -> & Hnin).
    exists (Random.updater (Random.MkRandom (l1 ++ l2))), (l1 ++ l2).
    split_and!; [|split; [done|]|by rewrite Permutation_middle].
    + unfold Updater.Remove, Random.Remove. simpl. by rewrite splice_app.
    + apply NoDup_app in Hnd as (? & Hdisj & Hnd'). apply NoDup_cons in Hnd' as (? & ?).
      apply NoDup_app. split_and!; [done| |done].
      intros y Hy Hy'. apply (Hdisj y Hy). by apply elem_of_cons; right.
  - intros u its (-> & Hnd). destruct its as [|x0 its0 _] using rev_ind.
    + exists None, (Random.updater (Random.MkRandom [])). by split.
    + exists (Some x0), (Random.updater (Random.MkRandom its0)). split.
      * unfold Updater.Evict. simpl. by rewrite random_Evict_snoc.
      * exists its0. split; [|by rewrite Permutation_app_comm].
        split; [done|]. by apply NoDup_app in Hnd as (? & _).
  - intros u its (-> & Hnd). exists (Random.updater (Random.MkRandom [])).
    split; [done|]. split; [done|apply NoDup_nil_2].
Qed.

Lemma random_evicting : Contract.evicting tracks_random.
Proof.
  intros u its (-> & Hnd) Hne. destruct its as [|x0 its0 _] using rev_ind; [done|].
  exists x0, (Random.updater (Random.MkRandom its0)).
  unfold Updater.Evict. simpl. by rewrite random_Evict_snoc.
Qed.

Lemma frequency_lawful : Contract.lawful tracks_frequency.
Proof.
  split.
  - by intros u its (fq & -> & Hnd & Hfq).
  - by intros u its (fq & -> & Hnd & Hfq).
  - intros u its it (fq & -> & Hnd & Hfq) Hnin.
    exists (Frequency.updater (Frequency.MkFrequency (its ++ [it]) (<[it := 0]> fq))),
           (its ++ [it]).
    split_and!; [done| |by rewrite Permutation_app_comm].
    exists (<[it := 0]> fq). split_and!; [done| |].
    + apply NoDup_app. split_and!; [done| |apply NoDup_singleton].
      intros y Hy Hy'%list_elem_of_singleton. by subst.
    + intros y Hy. apply lookup_insert_is_Some.
      destruct (decide (it = y)) as [|Hne]; [by left|right]. split; [done|].
      apply Hfq. apply elem_of_app in Hy as [Hy|Hy%list_elem_of_singleton]; [done|].
      by subst.
  - intros u its it (fq & -> & Hnd & Hfq).
    destruct (fq !! it) as [fr|] eqn:Hit.
    + exists (Frequency.updater
                (Frequency.MkFrequency its (<[it := GoInt.wrap (fr + 1)]> fq))), its.
      split; [|split; [|done]].
      * unfold Updater.Access. simpl. unfold Frequency.Access. simpl. by rewrite Hit.
      * exists (<[it := GoInt.wrap (fr + 1)]> fq). split; [done|]. split; [done|].
        intros y Hy. apply lookup_insert_is_Some.
        destruct (decide (it = y)) as [|Hne]; [by left|right]. split; [done|by apply Hfq].
    + exists (Frequency.updater (Frequency.MkFrequency its fq)), its.
      split; [|split; [|done]].
      * unfold Updater.Access. simpl. unfold Frequency.Access. simpl. by rewrite Hit.
      * by exists fq.
  - intros u its it (fq & -> & Hnd & Hfq) Hin.
    apply list_elem_of_split_l in Hin as (l1 & l2 & -> & Hnin).
    exists (Frequency.updater (Frequency.MkFrequency (l1 ++ l2) (delete it fq))), (l1 ++ l2).
    split_and!; [| |by rewrite Permutation_middle].
    + unfold Updater.Remove, Frequency.Remove. simpl. by rewrite splice_app.
    + exists (delete it fq). split_and!; [done| |].
      * apply NoDup_app in Hnd as (? & Hdisj & Hnd'). apply NoDup_cons in Hnd' as (? & ?).
        apply NoDup_app. split_and!; [done| |done].
        intros y Hy Hy'. apply (Hdisj y Hy). by apply elem_of_cons; right.
      * intros y Hy. rewrite lookup_delete_ne.
        -- apply Hfq. apply elem_of_app in Hy as [?|?]; apply elem_of_app; [by left|].
           right. by apply elem_of_cons; right.
        -- intros <-. apply elem_of_app in Hy as [Hy|Hy]; [done|].
           apply NoDup_app in Hnd as (_ & _ & Hnd'). by apply NoDup_cons in Hnd' as (? & _).
  - intros u its (fq & -> & Hnd & Hfq).
    destruct (frequency_Evict_shape (Frequency.MkFrequency its fq)) as [Hev|Hfound].
    + exists None, (Frequency.updater (Frequency.MkFrequency its fq)). split.
      * unfold Updater.Evict. simpl. by rewrite Hev.
      * by exists fq.
    + destruct Hfound as (l1 & x & l2 & Hl & Hev). simpl in Hl. subst its.
      exists (Some x), (Frequency.updater (Frequency.MkFrequency (l1 ++ l2) (delete x fq))).
      split.
      * unfold Updater.Evict. simpl. simpl in Hev. by rewrite Hev.
      * exists (l1 ++ l2). split; [|by rewrite Permutation_middle].
        exists (delete x fq).
        apply NoDup_app in Hnd as (Hnd1 & Hdisj & Hnd'). apply NoDup_cons in Hnd' as (Hx2 & Hnd2).
        split_and!; [done| |].
        -- apply NoDup_app. split_and!; [done| |done].
           intros y Hy Hy'. apply (Hdisj y Hy). by apply elem_of_cons; right.
        -- intros y Hy. rewrite lookup_delete_ne.
           ++ apply Hfq. apply elem_of_app in Hy as [?|?]; apply elem_of_app; [by left|].
              right. by apply elem_of_cons; right.
           ++ intros <-. apply elem_of_app in Hy as [Hy|Hy]; [|done].
              apply (Hdisj x Hy). by apply elem_of_cons; left.
  - intros u its (fq & -> & Hnd & Hfq).
    exists (Frequency.updater (Frequency.MkFrequency [] ∅)). split; [done|].
    exists ∅. split_and!; [done|apply NoDup_nil_2|]. by intros y ?%elem_of_nil.
Qed.

End strategies.

(** * A bucket with an updater that keeps the contract *)

Section contract_inv.
Import Heatwave Invariant.
Context {E : Expiration} {T : Type}.
Variable tr : Updater.Updater → list loc → Prop.
Hypothesis Hlaw : Contract.lawful tr.
Implicit Types (b : Bucket T) (its : list loc) (p : loc) (k id : string).

Local Abbreviation cinv := (Contract.inv tr).

Lemma contract_remove_entry b k p :
  cinv b → cache b !! k = Some p →
  ∃ u', Updater.Remove p (updater b) = Some u' ∧
        cinv (set_cache (delete k (cache b)) (set_updater u' b)).
Proof.
  intros (its & Htr & Hls & Hsz & Hch & Hcap) Hk.
  destruct (proj1 Hls k p Hk) as (Hin & _).
  destruct (Contract.law_Remove tr Hlaw _ _ p Htr Hin) as (u' & its' & Hrem & Htr' & Hperm).
  exists u'. split; [done|].
  destruct (lockstep_delete _ _ _ _ _ _ Hls (Contract.law_NoDup tr Hlaw _ _ Htr) Hk Hperm)
    as (Hls' & Hsz').
  pose proof (Permutation_length Hperm) as Hlen. simpl in Hlen.
  exists its'. simpl. split_and!; try done; [lia|].
  intros Hev. specialize (Hcap Hev). lia.
Qed.

Lemma contract_makeRoom b :
  cinv b →
  ∃ c1 u1 its1,
    makeRoom b = Some (set_cache c1 (set_updater u1 b)) ∧
    tr u1 its1 ∧
    lockstep c1 (heap b) its1 ∧
    size c1 = length its1 ∧
    (∀ k, cache b !! k = None → c1 !! k = None) ∧
    (Contract.evicting tr → Z.of_nat (length its1) < Z.max (maxSize b) 1).
Proof.
  intros (its & Htr & Hls & Hsz & Hch & Hcap).
  unfold makeRoom. rewrite (Contract.law_Size tr Hlaw _ _ Htr). case_decide as Hfull.
  - destruct (Contract.law_Evict tr Hlaw _ _ Htr) as (v & u' & Hev & Hv).
    rewrite Hev. simpl. destruct v as [v|].
    + destruct Hv as (its' & Htr' & Hperm).
      destruct (proj2 Hls v) as (kv & Hkv & Hcv); [rewrite Hperm; set_solver|].
      destruct (heap b !! v) as [itv|] eqn:Hv; [|done]. simpl in *.
      injection Hkv as <-.
      destruct (lockstep_delete _ _ _ _ _ _ Hls (Contract.law_NoDup tr Hlaw _ _ Htr) Hcv Hperm)
        as (Hls' & Hsz').
      pose proof (Permutation_length Hperm) as Hlen. simpl in Hlen.
      exists (delete (key itv) (cache b)), u', its'.
      split_and!; try done; try lia.
      * intros k Hk. rewrite lookup_delete. by case_decide.
      * intros Hevi. specialize (Hcap Hevi). lia.
    + exists (cache b), u', its. split_and!; try done; try (by destruct b).
      intros Hevi. destruct its as [|x its0]; [simpl; lia|].
      destruct (Hevi _ _ Htr) as (x' & u'' & Hev'); [done|]. congruence.
  - exists (cache b), (updater b), its. split_and!; try done; try (by destruct b).
    intros _. lia.
Qed.

Lemma contract_Nail id data now b :
  cinv b → ∃ e b', Nail id data now b = Some (e, b') ∧ cinv b'.
Proof.
  intros Hinv. destruct (closed b) eqn:Hcl.
  { unfold Nail, isClosed. rewrite Hcl. eauto. }
  destruct (cache b !! id) as [p|] eqn:Hid.
  - destruct Hinv as (its & Htr & Hls & Hsz & Hch & Hcap).
    destruct (proj1 Hls id p Hid) as (Hin & Hkey).
    destruct (heap b !! p) as [old|] eqn:Hp; [|done]. simpl in Hkey.
    injection Hkey as Hkey.
    destruct (Contract.law_Access tr Hlaw _ _ p Htr) as (u' & its' & Hacc & Htr' & Hperm).
    unfold Nail, isClosed. rewrite Hcl, Hid. simpl. rewrite Hp. simpl.
    rewrite Hacc. simpl. do 2 eexists. split; [done|].
    exists its'. simpl. split_and!; try done.
    + eapply lockstep_perm; [by symmetry|]. by eapply lockstep_update.
    + by rewrite (Permutation_length Hperm).
    + intros Hevi. rewrite (Permutation_length Hperm). by apply Hcap.
  - destruct (contract_makeRoom b Hinv)
      as (c1 & u1 & its1 & Hmr & Htr1 & Hls1 & Hsz1 & Hnone & Hroom).
    destruct Hinv as (its & Htr & Hls & Hsz & Hch & Hcap).
    set (p := fresh (dom (heap b))).
    assert (Hp : heap b !! p = None) by (apply not_elem_of_dom, is_fresh).
    assert (Hnin : p ∉ its1).
    { intros Hin. destruct (proj2 Hls1 p Hin) as (? & Hk & _). by rewrite Hp in Hk. }
    destruct (Contract.law_Add tr Hlaw u1 its1 p Htr1 Hnin) as (u2 & its2 & Hadd & Htr2 & Hperm).
    pose proof (Permutation_length Hperm) as Hlen. simpl in Hlen.
    unfold Nail, isClosed. rewrite Hcl, Hid, Hmr. simpl. fold p. rewrite Hadd. simpl.
    do 2 eexists. split; [done|]. exists its2. simpl.
    destruct (lockstep_insert c1 (heap b) its1 its2 id p
                (MkItem id data (deadline now (outdated b))) Hls1) as (Hls2 & Hsz2);
      [by apply Hnone|done|done|done|].
    split_and!; try done; [lia|].
    intros Hevi. specialize (Hroom Hevi). lia.
Qed.

Lemma contract_Bring zero id now b :
  cinv b → ∃ r b', Bring zero id now b = Some (r, b') ∧ cinv b'.
Proof.
  intros Hinv. unfold Bring, isClosed. destruct (closed b) eqn:Hcl; [by eauto|].
  destruct (cache b !! id) as [p|] eqn:Hid; [|by eauto].
  pose proof Hinv as (its & Htr & Hls & Hsz & Hch & Hcap).
  destruct (proj1 Hls id p Hid) as (Hin & Hkey).
  destruct (heap b !! p) as [it|] eqn:Hp; [|done]. simpl.
  destruct (after now (expiredAt it)).
  - destruct (contract_remove_entry b id p Hinv Hid) as (u' & -> & Hinv'). simpl. eauto.
  - destruct (Contract.law_Access tr Hlaw _ _ p Htr) as (u' & its' & -> & Htr' & Hperm). simpl.
    do 2 eexists. split; [done|]. exists its'. simpl. split_and!; try done.
    + eapply lockstep_perm; [by symmetry|done].
    + by rewrite (Permutation_length Hperm).
    + intros Hevi. rewrite (Permutation_length Hperm). by apply Hcap.
Qed.

Lemma contract_collectExpired now b order :
  cinv b → is_Some (collectExpired now b order).
Proof.
  intros (its & Htr & Hls & _). induction order as [|k rest IH]; simpl; [done|].
  destruct (cache b !! k) as [p|] eqn:Hk; [|done].
  destruct (proj1 Hls k p Hk) as (_ & Hkey).
  destruct (heap b !! p); [|done]. simpl. destruct IH as [ks ->]. simpl. eauto.
Qed.

Lemma contract_deleteExpired keys b :
  cinv b → ∃ b', deleteExpired keys b = Some b' ∧ cinv b'.
Proof.
  revert b. induction keys as [|k rest IH]; intros b Hinv; simpl; [by eauto|].
  destruct (cache b !! k) as [p|] eqn:Hk; [|by apply IH].
  destruct (contract_remove_entry b k p Hinv Hk) as (u' & -> & Hinv'). simpl.
  by apply IH.
Qed.

Lemma contract_tick now order b :
  cinv b → ∃ b', tick now order b = Some b' ∧ cinv b'.
Proof.
  intros Hinv. unfold tick, cleanupExpired, isClosed. destruct (closed b); [by eauto|].
  destruct (contract_collectExpired now b order Hinv) as [ks ->]. simpl.
  by apply contract_deleteExpired.
Qed.

Lemma contract_Clear b : cinv b → ∃ b', Clear b = Some b' ∧ cinv b'.
Proof.
  intros Hinv. unfold Clear, isClosed. destruct (closed b) eqn:Hcl; [by eauto|].
  destruct Hinv as (its & Htr & Hls & Hsz & Hch & Hcap).
  destruct (Contract.law_Clear tr Hlaw _ _ Htr) as (u' & Hclr & Htr'). simpl.
  rewrite Hclr. simpl. eexists. split; [done|]. exists []. simpl.
  split_and!; try done; [apply lockstep_empty|]. intros _. lia.
Qed.

Lemma contract_Close b : cinv b → ∃ b', Close b = Some (None, b') ∧ cinv b'.
Proof.
  intros Hinv. unfold Close. destruct (closed b) eqn:Hcl; [by eauto|].
  destruct Hinv as (its & Htr & Hls & Hsz & Hch & Hcap).
  simpl. unfold Chan.try_send, Chan.close. rewrite (Hch Hcl).
  destruct (Contract.law_Clear tr Hlaw _ _ Htr) as (u' & Hclr & Htr').
  case_decide; simpl; rewrite ?(Hch Hcl); simpl; rewrite Hclr; simpl.
  all: eexists; split; [done|].
  all: exists []; simpl; split_and!; try done; try apply lockstep_empty; intros _; lia.
Qed.

Lemma contract_call zero (c : Call T) b :
  cinv b → ∃ b', call zero c b = Some b' ∧ cinv b'.
Proof.
  intros Hinv. destruct c as [id data now|id now| | |now order]; simpl.
  - destruct (contract_Nail id data now b Hinv) as (e & b' & -> & ?). simpl. eauto.
  - destruct (contract_Bring zero id now b Hinv) as (r & b' & -> & ?). simpl. eauto.
  - by apply contract_Clear.
  - destruct (contract_Close b Hinv) as (b' & -> & ?). simpl. eauto.
  - by apply contract_tick.
Qed.

Lemma contract_calls zero (cs : list (Call T)) b :
  cinv b → ∃ b', calls zero cs b = Some b' ∧ cinv b'.
Proof.
  revert b. induction cs as [|c cs IH]; intros b Hinv; simpl; [by eauto|].
  destruct (contract_call zero c b Hinv) as (b1 & -> & Hinv1). simpl. by apply IH.
Qed.

End contract_inv.

Section custom_updater.
Import Heatwave Invariant.
Context {E : Expiration} {T : Type}.
Implicit Types (b : Bucket T) (zero : T).

(** The options do not touch the table, the items, the flag and the
    channel, and the last [WithUpdater] decides the updater. *)
Lemma apply_options_state (opts : list NewBucketOption) b :
  let b' := fold_left (λ b opt, apply_option opt b) opts b in
  cache b' = cache b ∧ heap b' = heap b ∧ closed b' = closed b ∧
  stopCleanup b' = stopCleanup b.
Proof.
  revert b. induction opts as [|o opts IH]; intros b; simpl; [done|].
  destruct (IH (apply_option o b)) as (-> & -> & -> & ->). by destruct o.
Qed.

Lemma NewBucket_WithUpdater (opts : list NewBucketOption) u0 :
  let b := NewBucket (T:=T) (opts ++ [WithUpdater u0]) in
  cache b = ∅ ∧ heap b = ∅ ∧ closed b = false ∧
  Chan.closed (stopCleanup b) = false ∧ updater b = u0 ∧
  maxSize b = maxSize (NewBucket (T:=T) opts).
Proof.
  unfold NewBucket. rewrite fold_left_app. simpl.
  match goal with |- context [fold_left _ opts ?x] => set (b0 := x) end.
  destruct (apply_options_state opts b0) as (-> & -> & -> & ->). done.
Qed.

Lemma contract_initial tr (opts : list NewBucketOption) u0 :
  tr u0 [] → Contract.inv tr (NewBucket (T:=T) (opts ++ [WithUpdater u0])).
Proof.
  intros Htr. destruct (NewBucket_WithUpdater opts u0) as (Hc & Hh & Hcl & Hch & Hu & _).
  exists []. rewrite Hc, Hu. split_and!; try done; [apply lockstep_empty|]. simpl. lia.
Qed.

(** X22. What the bucket needs of a custom updater. If the updater given
    to [WithUpdater] keeps the contract [Contract.lawful] (no method
    panics, [Add], [Remove] and [Evict] change the tracked items by the
    one item, [Access] keeps them, [Size] counts them), then no history
    panics, and after every history the table and the updater hold the
    same items, each stored under its own key; if moreover [Evict] never
    returns [nil] while an item is tracked, [Size()] stays within
    [maxSize], or 1 where [maxSize] is below 1. *)
Theorem X22_lawful_updater_keeps_bucket_consistent tr u0 zero
    (opts : list NewBucketOption) (cs : list (Call T)) :
  Contract.lawful tr → tr u0 [] →
  ∃ b its,
    calls zero cs (NewBucket (opts ++ [WithUpdater u0])) = Some b ∧
    tr (updater b) its ∧
    Z.of_nat (size (cache b)) = Updater.Size (updater b) ∧
    (∀ p, p ∈ its ↔ ∃ k, cache b !! k = Some p) ∧
    (∀ k p, cache b !! k = Some p → key <$> heap b !! p = Some k) ∧
    (Contract.evicting tr → Updater.Size (updater b) ≤ Z.max (maxSize b) 1).
Proof.
  intros Hlaw Htr.
  destruct (contract_calls tr Hlaw zero cs _ (contract_initial tr opts u0 Htr))
    as (b & Hrun & its & Htr' & (Hl1 & Hl2) & Hsz & _ & Hcap).
  exists b, its. split_and!; try done.
  - rewrite (Contract.law_Size tr Hlaw _ _ Htr'). lia.
  - intros p. split.
    + intros Hin. destruct (Hl2 p Hin) as (k & _ & Hk). by exists k.
    + intros (k & Hk). by destruct (Hl1 k p Hk).
  - intros k p Hk. by destruct (Hl1 k p Hk).
  - intros Hev. rewrite (Contract.law_Size tr Hlaw _ _ Htr'). by apply Hcap.
Qed.

(** *** The two updaters of the example in a bucket *)

Lemma random_Nail_full b its0 x itx id data now :
  closed b = false → cache b !! id = None →
  maxSize b ≤ Updater.Size (updater b) →
  updater b = Random.updater (Random.MkRandom (its0 ++ [x])) →
  heap b !! x = Some itx →
  ∃ b', Nail id data now b = Some (None, b') ∧
        cache b' = <[id := fresh (dom (heap b))]> (delete (key itx) (cache b)).
Proof.
  intros Hcl Hid Hfull Hu Hx. unfold Nail, makeRoom, isClosed.
  rewrite Hcl, Hid. rewrite decide_True by done. rewrite Hu.
  unfold Updater.Evict. cbn [Updater.impl Updater.self Updater.carrier Random.updater
    Random.methods Updater.mEvict].
  rewrite random_Evict_snoc. simpl. rewrite Hx. simpl. eauto.
Qed.

Lemma random_Nail_new b id data now :
  Contract.inv tracks_random b → closed b = false → cache b !! id = None →
  ∃ its' b',
    Nail id data now b = Some (None, b') ∧
    Contract.inv tracks_random b' ∧ closed b' = false ∧
    updater b' = Random.updater (Random.MkRandom (its' ++ [fresh (dom (heap b))])) ∧
    heap b' !! fresh (dom (heap b)) = Some (MkItem id data (deadline now (outdated b))) ∧
    (∀ k, k ≠ id → cache b !! k = None → cache b' !! k = None) ∧
    maxSize b' = maxSize b ∧
    (maxSize b ≤ Updater.Size (updater b) → maxSize b' ≤ Updater.Size (updater b')).
Proof.
  intros Hinv Hcl Hid.
  destruct (contract_Nail tracks_random random_lawful id data now b Hinv)
    as (e & b' & Hn & Hinv').
  pose proof Hinv as (its & (Hu & Hnd) & Hls & Hsz & _).
  pose proof Hn as Hn0.
  unfold Nail, makeRoom, isClosed in Hn. rewrite Hcl, Hid, Hu in Hn.
  change (Updater.Size (Random.updater (Random.MkRandom its)))
    with (Z.of_nat (length its)) in Hn.
  rewrite Hu. change (Updater.Size (Random.updater (Random.MkRandom its)))
    with (Z.of_nat (length its)).
  destruct (decide (maxSize b ≤ Z.of_nat (length its))) as [Hfull|Hroom].
  - destruct its as [|x its0 _] using rev_ind.
    + simpl in Hn. injection Hn as <- <-. eexists [], _. split; [exact Hn0|]. simpl.
      split_and!; try done.
      * apply lookup_insert_eq.
      * intros k Hne Hk. by rewrite lookup_insert_ne.
      * intros _. simpl in Hfull. unfold Updater.Size. simpl. unfold Random.Size. simpl. lia.
    + unfold Updater.Evict in Hn.
      cbn [Updater.impl Updater.self Updater.carrier Random.updater
           Random.methods Updater.mEvict] in Hn.
      rewrite random_Evict_snoc in Hn. simpl in Hn.
      destruct (heap b !! x) as [itx|] eqn:Hx; [|done]. simpl in Hn.
      injection Hn as <- <-. eexists its0, _. split; [exact Hn0|]. simpl.
      split_and!; try done.
      * apply lookup_insert_eq.
      * intros k Hne Hk. rewrite lookup_insert_ne by done.
        rewrite lookup_delete. by case_decide.
      * intros _. unfold Updater.Size. simpl. unfold Random.Size. simpl.
        rewrite !length_app in *. simpl in *. lia.
  - simpl in Hn. rewrite Hu in Hn. simpl in Hn.
    injection Hn as <- <-. eexists its, _. split; [exact Hn0|]. simpl.
    split_and!; try done.
    + apply lookup_insert_eq.
    + intros k Hne Hk. by rewrite lookup_insert_ne.
Qed.

(** X23. The example's [randomStrategy] as the updater of a bucket: no
    history panics, table and updater hold the same items, and [Size()]
    stays within [maxSize] (1 where [maxSize] is below 1). But a full
    bucket gives up its newest entry: of two new keys written one after
    the other to a full bucket, the first is gone after the second write. *)
Theorem X23_random_bucket_drops_newest zero (opts : list NewBucketOption)
    (cs : list (Call T)) :
  ∃ b its,
    calls zero cs (NewBucket (opts ++ [WithUpdater (Random.updater Random.newRandomStrategy)]))
    = Some b ∧
    tracks_random (updater b) its ∧
    Z.of_nat (size (cache b)) = Updater.Size (updater b) ∧
    Updater.Size (updater b) ≤ Z.max (maxSize b) 1 ∧
    ∀ id1 d1 t1 id2 d2 t2,
      closed b = false → maxSize b ≤ Updater.Size (updater b) →
      cache b !! id1 = None → cache b !! id2 = None → id1 ≠ id2 →
      ∃ b1 b2,
        Nail id1 d1 t1 b = Some (None, b1) ∧
        Nail id2 d2 t2 b1 = Some (None, b2) ∧
        cache b2 !! id1 = None ∧ is_Some (cache b2 !! id2).
Proof.
  assert (Htr0 : tracks_random (Random.updater Random.newRandomStrategy) []).
  { split; [done|apply NoDup_nil_2]. }
  destruct (contract_calls tracks_random random_lawful zero cs _
              (contract_initial tracks_random opts _ Htr0)) as (b & Hrun & Hinv).
  pose proof Hinv as (its & Htr & Hls & Hsz & _ & Hcap).
  exists b, its. split_and!; try done.
  - rewrite (Contract.law_Size _ random_lawful _ _ Htr). lia.
  - rewrite (Contract.law_Size _ random_lawful _ _ Htr). apply Hcap, random_evicting.
  - intros id1 d1 t1 id2 d2 t2 Hcl Hfull Hid1 Hid2 Hne.
    destruct (random_Nail_new b id1 d1 t1 Hinv Hcl Hid1)
      as (its' & b1 & Hn1 & Hinv1 & Hcl1 & Hu1 & Hp1 & Hc1 & Hm1 & Hfull1).
    destruct (random_Nail_full b1 its' (fresh (dom (heap b)))
                (MkItem id1 d1 (deadline t1 (outdated b))) id2 d2 t2 Hcl1)
      as (b2 & Hn2 & Hc2); [by apply Hc1|by apply Hfull1|done|done|].
    exists b1, b2. split_and!; try done.
    + rewrite Hc2. rewrite lookup_insert_ne by done. simpl. apply lookup_delete_eq.
    + rewrite Hc2. rewrite lookup_insert_eq. by eexists.
Qed.

(** X24. The example's [frequencyStrategy] as the updater of a bucket:
    no history panics, and after every history the table and the updater
    hold the same items, every tracked item with a frequency count. *)
Theorem X24_frequency_bucket_consistent zero (opts : list NewBucketOption)
    (cs : list (Call T)) :
  ∃ b its,
    calls zero cs
          (NewBucket (opts ++ [WithUpdater (Frequency.updater Frequency.newFrequencyStrategy)]))
    = Some b ∧
    tracks_frequency (updater b) its ∧
    Z.of_nat (size (cache b)) = Updater.Size (updater b) ∧
    (∀ p, p ∈ its ↔ ∃ k, cache b !! k = Some p) ∧
    (∀ k p, cache b !! k = Some p → key <$> heap b !! p = Some k).
Proof.
  assert (Htr0 : tracks_frequency (Frequency.updater Frequency.newFrequencyStrategy) []).
  { exists ∅. split_and!; [done|apply NoDup_nil_2|]. by intros y ?%elem_of_nil. }
  destruct (contract_calls tracks_frequency frequency_lawful zero cs _
              (contract_initial tracks_frequency opts _ Htr0))
    as (b & Hrun & its & Htr & (Hl1 & Hl2) & Hsz & _).
  exists b, its. split_and!; try done.
  - rewrite (Contract.law_Size _ frequency_lawful _ _ Htr). lia.
  - intros p. split.
    + intros Hin. destruct (Hl2 p Hin) as (k & _ & Hk). by exists k.
    + intros (k & Hk). by destruct (Hl1 k p Hk).
  - intros k p Hk. by destruct (Hl1 k p Hk).
Qed.

End custom_updater.

(** * The theorems on the older revision and on custom updaters at concrete inputs *)

Section revision_witnesses.
Import Heatwave Invariant.

Local Abbreviation nail := (@CallNail go_time nat).
Local Abbreviation bring := (@CallBring go_time nat).

Lemma X18_witness :
  Older.calls (E:=go_time) 0%nat [nail "k" 1%nat 0; bring "k" 1] (Older.NewBucket [])
  = Older.of_newer (Chan.make 0)
      <$> calls (E:=go_time) 0%nat [nail "k" 1%nat 0; bring "k" 1] (NewBucket []).
Proof.
  refine (proj1 (X18_older_revision_agrees (E:=go_time) 0%nat []
                   [nail "k" 1%nat 0; bring "k" 1] _)).
  intros Hin. apply elem_of_cons in Hin as [Hin|Hin]; [discriminate Hin|].
  apply elem_of_cons in Hin as [Hin|Hin]; [discriminate Hin|].
  destruct (not_elem_of_nil _ Hin).
Defined.

Lemma X19_witness :
  ∃ lb',
    Older.Close (Older.NewBucket (E:=go_time) (T:=nat) []) = Some lb' ∧
    Older.Close lb' = None ∧
    Older.calls (E:=go_time) 0%nat [nail "k" 1%nat 0; CallClose] lb' = None.
Proof.
  eexists. split; [reflexivity|].
  destruct (X19_older_Close_only_stops_sweeper (E:=go_time) 0%nat
              (Older.NewBucket []) _ eq_refl) as (_ & _ & _ & _ & Hc & Hcs).
  split; [exact Hc|]. apply Hcs.
  apply elem_of_cons. right. apply elem_of_cons. by left.
Defined.

Lemma X22_witness :
  ∃ b its,
    calls (E:=go_time) 0%nat [nail "a" 1%nat 0; nail "b" 2%nat 1; nail "c" 3%nat 2]
          (NewBucket ([WithMaxSize 2]
                      ++ [WithUpdater (Random.updater Random.newRandomStrategy)])) = Some b ∧
    tracks_random (updater b) its ∧
    Z.of_nat (size (cache b)) = Updater.Size (updater b).
Proof.
  destruct (X22_lawful_updater_keeps_bucket_consistent (E:=go_time) tracks_random
              (Random.updater Random.newRandomStrategy) 0%nat [WithMaxSize 2]
              [nail "a" 1%nat 0; nail "b" 2%nat 1; nail "c" 3%nat 2]
              random_lawful (conj eq_refl (NoDup_nil_2 (A:=loc))))
    as (b & its & Hrun & Htr & Hpar & _).
  exists b, its. split; [exact Hrun|]. split; [exact Htr|exact Hpar].
Defined.

End revision_witnesses.

(** * The order of eviction in a bucket *)

Section lru_bucket.
Import Heatwave Invariant.
Context {E : Expiration} {T : Type}.
Implicit Types (b : Bucket T) (zero : T) (its : list loc) (p : loc) (k id : string).

(** Enough calls of [Evict] show all the items of an updater. *)
Lemma evict_n_lru_all l its n :
  LruRepr.repr l its → (length its ≤ n)%nat →
  fst <$> evict_n n (Updater.of_lru l) = Some (reverse its).
Proof.
  revert l n. induction its as [|x its0 IH] using rev_ind; intros l n Hr Hn.
  - destruct n; [done|]. cbn [evict_n]. unfold Updater.Evict. simpl.
    by rewrite (Evict_repr_nil l Hr).
  - rewrite length_app in Hn. simpl in Hn. destruct n as [|n]; [lia|].
    destruct (Evict_repr l its0 x Hr) as (l1 & Hev & Hr1).
    cbn [evict_n]. unfold Updater.Evict at 1.
    cbn [Updater.impl Updater.self Updater.of_lru Updater.lru_methods Updater.mEvict
         Updater.carrier].
    rewrite Hev. cbn [fmap option_fmap option_map prod_map mbind option_bind id fst snd].
    change (Updater.Pack Lru.lru Updater.lru_methods l1) with (Updater.of_lru l1).
    assert (Hn' : (length its0 ≤ n)%nat) by lia.
    specialize (IH l1 n Hr1 Hn').
    destruct (evict_n n (Updater.of_lru l1)) as [[ps u2]|]; simpl in *; [|done].
    injection IH as ->. by rewrite reverse_snoc.
Qed.

Lemma evict_n_fifo_all its n :
  (length its ≤ n)%nat →
  fst <$> evict_n n (Updater.of_fifo (Fifo.MkFifo its)) = Some its.
Proof.
  revert n. induction its as [|x its0 IH]; intros n Hn.
  - by destruct n.
  - simpl in Hn. destruct n as [|n]; [lia|].
    cbn [evict_n]. unfold Updater.Evict at 1. simpl.
    change (Updater.Pack Fifo.fifo Updater.fifo_methods (Fifo.MkFifo its0))
      with (Updater.of_fifo (Fifo.MkFifo its0)).
    assert (Hn' : (length its0 ≤ n)%nat) by lia.
    specialize (IH n Hn').
    destruct (evict_n n (Updater.of_fifo (Fifo.MkFifo its0))) as [[ps u2]|]; simpl in *;
      [|done].
    by injection IH as ->.
Qed.

(** The items that the invariant tracks are those of the list. *)
Lemma tracks_repr_perm l its its' :
  tracks (Updater.of_lru l) its' → LruRepr.repr l its → its' ≡ₚ its.
Proof.
  intros Htr Hr. remember (Updater.of_lru l) as u eqn:Hu.
  assert (H1 : fst <$> evict_n (length its + length its') u = Some (reverse its)).
  { rewrite Hu. apply evict_n_lru_all; [done|lia]. }
  clear Hu. destruct Htr as [l0 its0 Hr0|f Hnd].
  - rewrite (evict_n_lru_all l0 its0) in H1; [|done|lia].
    injection H1 as H1. apply (inj reverse) in H1. by rewrite H1.
  - destruct f as [its0]. simpl in *.
    rewrite (evict_n_fifo_all its0) in H1; [|lia].
    injection H1 as ->. by rewrite reverse_Permutation.
Qed.

Lemma tracks_fifo_perm its its' :
  tracks (Updater.of_fifo (Fifo.MkFifo its)) its' → its' ≡ₚ its.
Proof.
  intros Htr. remember (Updater.of_fifo (Fifo.MkFifo its)) as u eqn:Hu.
  assert (H1 : fst <$> evict_n (length its + length its') u = Some its).
  { rewrite Hu. apply evict_n_fifo_all. lia. }
  clear Hu. destruct Htr as [l0 its0 Hr0|f Hnd].
  - rewrite (evict_n_lru_all l0 its0) in H1; [|done|lia].
    injection H1 as <-. by rewrite reverse_Permutation.
  - destruct f as [its0]. simpl in *.
    rewrite (evict_n_fifo_all its0) in H1; [|lia].
    by injection H1 as ->.
Qed.

(** *** The methods keep an LRU list an LRU list *)

Lemma lru_Access_kind l its p u' :
  LruRepr.repr l its → Updater.Access p (Updater.of_lru l) = Some u' →
  ∃ l' its', u' = Updater.of_lru l' ∧ LruRepr.repr l' its' ∧ its' ≡ₚ its ∧
             (p ∈ its → ∃ rest, its' = p :: rest).
Proof.
  intros Hr. unfold Updater.Access. simpl. destruct (decide (p ∈ its)) as [Hin|Hnin].
  - apply list_elem_of_split in Hin as (its1 & its2 & ->).
    destruct (Access_repr l its1 p its2 Hr) as (l' & -> & Hr'). simpl. intros [= <-].
    exists l', (p :: its1 ++ its2). split_and!; [done|done|by rewrite Permutation_middle|].
    intros _. by eexists.
  - rewrite (Access_untracked l its p Hr Hnin). simpl. intros [= <-].
    exists l, its. by split_and!.
Qed.

Lemma lru_Remove_kind l its p u' :
  LruRepr.repr l its → Updater.Remove p (Updater.of_lru l) = Some u' →
  ∃ l' its', u' = Updater.of_lru l' ∧ LruRepr.repr l' its'.
Proof.
  intros Hr. unfold Updater.Remove. simpl. destruct (decide (p ∈ its)) as [Hin|Hnin].
  - apply list_elem_of_split in Hin as (its1 & its2 & ->).
    destruct (Remove_repr l its1 p its2 Hr) as (l' & -> & Hr'). simpl. intros [= <-].
    by exists l', (its1 ++ its2).
  - rewrite (Remove_untracked l its p Hr Hnin). simpl. intros [= <-]. by exists l, its.
Qed.

Lemma lru_Evict_kind l its v u' :
  LruRepr.repr l its → Updater.Evict (Updater.of_lru l) = Some (v, u') →
  ∃ l' its', u' = Updater.of_lru l' ∧ LruRepr.repr l' its' ∧
             match v with
             | None => its = [] ∧ its' = []
             | Some x => its = its' ++ [x]
             end.
Proof.
  intros Hr. unfold Updater.Evict. simpl. destruct its as [|x its0 _] using rev_ind.
  - rewrite (Evict_repr_nil l Hr). simpl. intros [= <- <-]. by exists l, [].
  - destruct (Evict_repr l its0 x Hr) as (l' & -> & Hr'). simpl. intros [= <- <-].
    by exists l', its0.
Qed.

Lemma lru_Clear_kind l u' :
  Updater.Clear (Updater.of_lru l) = Some u' →
  ∃ l', u' = Updater.of_lru l' ∧ LruRepr.repr l' [].
Proof.
  intros H. destruct (Clear_repr l) as (l' & Hc & Hr'). unfold Updater.Clear in H.
  cbn [Updater.impl Updater.self Updater.carrier Updater.of_lru Updater.lru_methods
       Updater.mClear] in H.
  rewrite Hc in H. simpl in H. injection H as <-. by exists l'.
Qed.

Lemma lru_Add_kind l its p u' :
  LruRepr.repr l its → p ∉ its → Z.of_nat (length its) < GoInt.max_int →
  Updater.Add p (Updater.of_lru l) = Some u' →
  ∃ l', u' = Updater.of_lru l' ∧ LruRepr.repr l' (p :: its).
Proof.
  intros Hr Hnin Hlt. unfold Updater.Add. simpl.
  destruct (Add_repr l its p Hr Hnin Hlt) as (l' & -> & Hr'). simpl. intros [= <-].
  by exists l'.
Qed.

(** *** The calls keep the kind of the updater *)

Lemma makeRoom_lru b b1 its :
  lru_kind b its → makeRoom b = Some b1 →
  heap b1 = heap b ∧ closed b1 = closed b ∧ maxSize b1 = maxSize b ∧
  outdated b1 = outdated b ∧
  ((Updater.Size (updater b) < maxSize b ∧ b1 = b) ∨
   (maxSize b ≤ Updater.Size (updater b) ∧ its = [] ∧ cache b1 = cache b ∧ lru_kind b1 []) ∨
   (maxSize b ≤ Updater.Size (updater b) ∧
    ∃ its1 x itx, its = its1 ++ [x] ∧ heap b !! x = Some itx ∧
                  cache b1 = delete (key itx) (cache b) ∧ lru_kind b1 its1)).
Proof.
  intros (l & Hu & Hr). unfold makeRoom. case_decide as Hfull.
  - destruct (Updater.Evict (updater b)) as [[v u']|] eqn:Hev; [|done]. simpl.
    rewrite Hu in Hev. destruct (lru_Evict_kind l its v u' Hr Hev) as (l' & its' & -> & Hr' & Hv).
    destruct v as [x|].
    + destruct (heap b !! x) as [itx|] eqn:Hx; [|done]. simpl. intros [= <-]. simpl.
      split_and!; try done. right; right. split; [done|].
      exists its', x, itx. split_and!; try done. by exists l'.
    + intros [= <-]. simpl. destruct Hv as (-> & ->).
      split_and!; try done. right; left. split_and!; try done. by exists l'.
  - intros [= <-]. split_and!; try done. left. split; [lia|done].
Qed.

Lemma Nail_lru id data now b e b' its :
  inv b → lru_kind b its → Nail id data now b = Some (e, b') →
  ∃ its', lru_kind b' its'.
Proof.
  intros Hinv Hk Hn. pose proof Hk as (l & Hu & Hr).
  pose proof Hinv as (its0 & Htr & Hls & Hsz & Hcap & Hrange & Hch).
  rewrite Hu in Htr. pose proof (tracks_repr_perm l its its0 Htr Hr) as Hperm.
  revert Hn. unfold Nail, isClosed. destruct (closed b) eqn:Hcl.
  { intros [= <- <-]. by exists its. }
  destruct (cache b !! id) as [p|] eqn:Hid.
  - destruct (heap b !! p) as [old|]; [|done]. simpl.
    destruct (Updater.Access p (updater b)) as [u'|] eqn:Hacc; [|done]. simpl.
    intros [= <- <-]. rewrite Hu in Hacc.
    destruct (lru_Access_kind l its p u' Hr Hacc) as (l' & its' & -> & Hr' & _).
    exists its'. by exists l'.
  - destruct (makeRoom b) as [b1|] eqn:Hmr; [|done]. simpl.
    destruct (makeRoom_lru b b1 its Hk Hmr) as (Hh & _ & _ & _ & Hcases).
    destruct (Updater.Add _ (updater b1)) as [u2|] eqn:Hadd; [|done]. simpl.
    intros [= <- <-]. rewrite Hh in Hadd.
    assert (Hfresh : ∀ x, x ∈ its → x ≠ fresh (dom (heap b))).
    { intros x Hx ->. rewrite <- Hperm in Hx.
      destruct (proj2 Hls _ Hx) as (kx & Hkx & _).
      destruct (heap b !! fresh (dom (heap b))) eqn:Hf; [|done].
      apply (is_fresh (dom (heap b))). apply elem_of_dom. by eexists. }
    assert (Hlen : Z.of_nat (length its) ≤ Z.max (maxSize b) 1).
    { by rewrite <- (Permutation_length Hperm). }
    assert (Hmax : Z.max (maxSize b) 1 ≤ GoInt.max_int).
    { unfold GoInt.in_range, GoInt.max_int in *. lia. }
    destruct Hcases as [(Hlt & ->)|[(Hfull & -> & Hc & Hk1)|(Hfull & its1 & x & itx & -> & Hx & Hc & Hk1)]].
    + rewrite Hu in Hadd, Hlt.
      change (Updater.Size (Updater.of_lru l)) with (Lru.Size l) in Hlt.
      rewrite (Size_repr l its Hr) in Hlt.
      destruct (lru_Add_kind l its (fresh (dom (heap b))) u2 Hr)
        as (l' & -> & Hr'); [|lia|done|].
      { intros Hin. by apply (Hfresh _ Hin). }
      eexists. by exists l'.
    + destruct Hk1 as (l1 & Hu1 & Hr1). rewrite Hu1 in Hadd.
      destruct (lru_Add_kind l1 [] (fresh (dom (heap b))) u2 Hr1) as (l' & -> & Hr');
        [by intros ?%elem_of_nil|simpl; unfold GoInt.max_int; lia|done|].
      eexists. by exists l'.
    + destruct Hk1 as (l1 & Hu1 & Hr1). rewrite Hu1 in Hadd.
      destruct (lru_Add_kind l1 its1 (fresh (dom (heap b))) u2 Hr1) as (l' & -> & Hr');
        [| |done|].
      { intros Hin. apply (Hfresh (fresh (dom (heap b)))); [|done].
        apply elem_of_app. by left. }
      { rewrite length_app in Hlen. simpl in Hlen. lia. }
      eexists. by exists l'.
Qed.

Lemma Bring_lru zero id now b r b' its :
  lru_kind b its → Bring zero id now b = Some (r, b') → ∃ its', lru_kind b' its'.
Proof.
  intros (l & Hu & Hr). unfold Bring, isClosed.
  destruct (closed b); [intros [= <- <-]; exists its; by exists l|].
  destruct (cache b !! id) as [p|]; [|intros [= <- <-]; exists its; by exists l].
  destruct (heap b !! p) as [it|]; [|done]. simpl.
  destruct (after now (expiredAt it)).
  - destruct (Updater.Remove p (updater b)) as [u'|] eqn:Hrem; [|done]. simpl.
    intros [= <- <-]. rewrite Hu in Hrem.
    destruct (lru_Remove_kind l its p u' Hr Hrem) as (l' & its' & -> & Hr').
    exists its'. by exists l'.
  - destruct (Updater.Access p (updater b)) as [u'|] eqn:Hacc; [|done]. simpl.
    intros [= <- <-]. rewrite Hu in Hacc.
    destruct (lru_Access_kind l its p u' Hr Hacc) as (l' & its' & -> & Hr' & _).
    exists its'. by exists l'.
Qed.

Lemma deleteExpired_lru keys b b' its :
  lru_kind b its → deleteExpired keys b = Some b' → ∃ its', lru_kind b' its'.
Proof.
  revert b its. induction keys as [|k rest IH]; intros b its Hk; simpl.
  - intros [= <-]. by exists its.
  - destruct (cache b !! k) as [p|]; [|by apply (IH b its)].
    destruct Hk as (l & Hu & Hr).
    destruct (Updater.Remove p (updater b)) as [u'|] eqn:Hrem; [|done]. simpl.
    rewrite Hu in Hrem.
    destruct (lru_Remove_kind l its p u' Hr Hrem) as (l' & its' & -> & Hr').
    apply (IH _ its'). by exists l'.
Qed.

Lemma call_lru zero (c : Call T) b b' its :
  inv b → lru_kind b its → call zero c b = Some b' → ∃ its', lru_kind b' its'.
Proof.
  intros Hinv Hk. destruct c as [id data now|id now| | |now order]; simpl.
  - destruct (Nail id data now b) as [[e b1]|] eqn:Hn; [|done]. simpl. intros [= <-].
    by eapply Nail_lru.
  - destruct (Bring zero id now b) as [[r b1]|] eqn:Hb; [|done]. simpl. intros [= <-].
    by eapply Bring_lru.
  - unfold Clear, isClosed. destruct (closed b); [intros [= <-]; by exists its|]. simpl.
    destruct Hk as (l & Hu & Hr).
    destruct (Updater.Clear (updater b)) as [u'|] eqn:Hclr; [|done]. simpl.
    intros [= <-]. rewrite Hu in Hclr. destruct (lru_Clear_kind l u' Hclr) as (l' & -> & Hr').
    exists []. by exists l'.
  - unfold Close. destruct (closed b); [intros [= <-]; by exists its|]. simpl.
    destruct (Chan.try_send _) as [ch|]; [|done]. simpl.
    destruct (Chan.close ch) as [ch'|]; [|done]. simpl.
    destruct Hk as (l & Hu & Hr).
    destruct (Updater.Clear (updater b)) as [u'|] eqn:Hclr; [|done]. simpl.
    intros [= <-]. rewrite Hu in Hclr. destruct (lru_Clear_kind l u' Hclr) as (l' & -> & Hr').
    exists []. by exists l'.
  - unfold tick, cleanupExpired, isClosed. destruct (closed b); [intros [= <-]; by exists its|].
    destruct (collectExpired now b order) as [keys|]; [|done]. simpl.
    by apply (deleteExpired_lru keys b b' its).
Qed.

Lemma calls_lru zero (cs : list (Call T)) b b' its :
  inv b → lru_kind b its → calls zero cs b = Some b' → ∃ its', lru_kind b' its'.
Proof.
  revert b its. induction cs as [|c cs IH]; intros b its Hinv Hk; simpl.
  - intros [= <-]. by exists its.
  - destruct (call_inv zero c b Hinv) as (b1 & Hc & Hinv1). rewrite Hc. simpl.
    destruct (call_lru zero c b b1 its Hinv Hk Hc) as (its1 & Hk1).
    by apply (IH b1 its1).
Qed.

Lemma apply_options_lru (opts : list NewBucketOption) b :
  Forall lru_option opts →
  updater (fold_left (λ b opt, apply_option opt b) opts b) = updater b.
Proof.
  intros Hopts. revert b. induction Hopts as [|o opts Ho Hopts IH]; intros b; simpl; [done|].
  rewrite IH. by destruct o.
Qed.

Lemma NewBucket_lru (opts : list NewBucketOption) :
  Forall lru_option opts → lru_kind (NewBucket (T:=T) opts) [].
Proof.
  intros Hopts. exists Lru.newLRUUpdater. split; [|apply newLRUUpdater_repr].
  unfold NewBucket. by rewrite apply_options_lru.
Qed.

(** X25. With the LRU updater the entry used last is not the next
    victim: in any reachable open bucket with [maxSize] at least 2, after
    a read that hits key [k], the [Nail] of a new key leaves the entry of
    [k] in the table with its item unchanged, whether or not the bucket was
    full. *)
Theorem X25_lru_read_protects_entry zero (opts : list NewBucketOption)
    (cs : list (Call T)) b k p it now id data now' :
  Forall lru_option opts →
  calls zero cs (NewBucket opts) = Some b →
  closed b = false →
  cache b !! k = Some p → heap b !! p = Some it →
  after now (expiredAt it) = false →
  cache b !! id = None →
  2 ≤ maxSize b →
  ∃ b1 b2,
    Bring zero k now b = Some ((value it, true), b1) ∧
    Nail id data now' b1 = Some (None, b2) ∧
    cache b2 !! k = Some p ∧ heap b2 !! p = Some it ∧
    is_Some (cache b2 !! id).
Proof.
  intros Hopts Hrun Hcl Hk Hp Ha Hid Hmax.
  destruct (history_inv zero opts cs (lru_option_builtin opts Hopts)) as (b0 & Hrun0 & Hinv).
  rewrite Hrun in Hrun0. injection Hrun0 as <-.
  destruct (calls_lru zero cs _ b [] (NewBucket_inv opts (lru_option_builtin opts Hopts))
              (NewBucket_lru opts Hopts) Hrun) as (its & l & Hu & Hr).
  pose proof Hinv as (its0 & Htr & Hls & _).
  rewrite Hu in Htr. pose proof (tracks_repr_perm l its its0 Htr Hr) as Hperm.
  assert (Hin : p ∈ its).
  { rewrite <- Hperm. by destruct (proj1 Hls k p Hk). }
  destruct (Bring_hit zero k now b p it Hinv Hcl Hk Hp Ha) as (u' & Hacc & _ & Hb).
  rewrite Hu in Hacc.
  destruct (lru_Access_kind l its p u' Hr Hacc) as (l1 & its1 & -> & Hr1 & Hperm1 & Hfront).
  destruct (Hfront Hin) as (rest & ->).
  set (b1 := set_updater (Updater.of_lru l1) b) in *.
  assert (Hinv1 : inv b1).
  { destruct (Bring_inv zero k now b Hinv) as (r & b1' & Hb' & Hinv1).
    rewrite Hb in Hb'. by injection Hb' as _ <-. }
  assert (Hk1 : lru_kind b1 (p :: rest)) by (by exists l1).
  destruct (Nail_new id data now' b1 Hinv1 Hcl Hid)
    as (c1 & u1 & u2 & Hmr & _ & _ & _ & _ & Hn & _).
  cbv zeta in Hn. exists b1. eexists. split; [exact Hb|]. split; [exact Hn|]. simpl.
  assert (Hpf : p ≠ fresh (dom (heap b))).
  { intros ->. apply (is_fresh (dom (heap b))). apply elem_of_dom. by eexists. }
  assert (Hkid : k ≠ id) by (intros ->; congruence).
  split_and!.
  - rewrite lookup_insert_ne by done.
    destruct (makeRoom_lru b1 _ (p :: rest) Hk1 Hmr) as (_ & _ & _ & _ & Hcases).
    simpl in Hcases.
    destruct Hcases as [(_ & Heq)|[(_ & Hnil & _)|(Hfull & its2 & x & itx & Hsplit & Hx & Hc & _)]].
    + apply (f_equal cache) in Heq. simpl in Heq. by rewrite Heq.
    + done.
    + rewrite Hc. rewrite lookup_delete_ne; [done|]. intros Hkey.
      assert (Hxin : x ∈ p :: rest) by (rewrite Hsplit; set_solver).
      assert (Hxp : x ≠ p).
      { intros ->. destruct its2 as [|y its2].
        - simpl in Hsplit. injection Hsplit as ->.
          change (Updater.Size (Updater.of_lru l1)) with (Lru.Size l1) in Hfull.
          rewrite (Size_repr l1 [p] Hr1) in Hfull. simpl in Hfull. lia.
        - simpl in Hsplit. injection Hsplit as -> ->.
          pose proof (repr_NoDup l1 _ Hr1) as Hnd. apply NoDup_cons in Hnd as (Hnin & _).
          apply Hnin. set_solver. }
      pose proof Hinv1 as (its0' & Htr' & Hls' & _).
      simpl in Htr'. pose proof (tracks_repr_perm l1 _ its0' Htr' Hr1) as Hperm'.
      destruct (proj2 Hls' x) as (kx & Hkx & Hcx); [by rewrite Hperm'|].
      simpl in Hkx, Hcx, Hx. rewrite Hx in Hkx. simpl in Hkx. injection Hkx as Hkx.
      rewrite <- Hkx, Hkey, Hk in Hcx. congruence.
  - by rewrite lookup_insert_ne.
  - rewrite lookup_insert_eq. by eexists.
Qed.

(** *** The calls keep a FIFO slice a FIFO slice *)

Lemma makeRoom_fifo b b1 its :
  fifo_kind b its → makeRoom b = Some b1 → ∃ its1, fifo_kind b1 its1.
Proof.
  unfold fifo_kind, makeRoom. intros Hu. rewrite Hu. case_decide; [|intros [= <-]; eauto].
  unfold Updater.Evict. simpl. destruct its as [|x its0]; simpl.
  - intros [= <-]. simpl. eauto.
  - destruct (heap b !! x); [|done]. simpl. intros [= <-]. simpl. eauto.
Qed.

Lemma Nail_fifo id data now b e b' its :
  fifo_kind b its → Nail id data now b = Some (e, b') → ∃ its', fifo_kind b' its'.
Proof.
  intros Hk. unfold Nail, isClosed. destruct (closed b); [intros [= <- <-]; eauto|].
  destruct (cache b !! id) as [p|].
  - destruct (heap b !! p); [|done]. simpl. unfold fifo_kind in Hk. rewrite Hk.
    simpl. intros [= <- <-]. unfold fifo_kind. simpl. eauto.
  - destruct (makeRoom b) as [b1|] eqn:Hmr; [|done]. simpl.
    destruct (makeRoom_fifo b b1 its Hk Hmr) as (its1 & Hk1). unfold fifo_kind in Hk1.
    rewrite Hk1. simpl. intros [= <- <-]. unfold fifo_kind. simpl. eauto.
Qed.

Lemma Bring_fifo zero id now b r b' its :
  fifo_kind b its → Bring zero id now b = Some (r, b') →
  (∃ its', fifo_kind b' its') ∧ (r.2 = true → b' = b).
Proof.
  unfold fifo_kind. intros Hk. unfold Bring, isClosed.
  destruct (closed b); [intros [= <- <-]; split; [eauto|done]|].
  destruct (cache b !! id) as [p|]; [|intros [= <- <-]; split; [eauto|done]].
  destruct (heap b !! p) as [it|]; [|done]. simpl. rewrite Hk.
  destruct (after now (expiredAt it)); simpl; intros [= <- <-]; simpl.
  - split; [eauto|done].
  - split; [eauto|]. intros _.
    change (set_updater (Updater.of_fifo (Fifo.MkFifo its)) b = b).
    rewrite <- Hk. by destruct b.
Qed.

Lemma deleteExpired_fifo keys b b' its :
  fifo_kind b its → deleteExpired keys b = Some b' → ∃ its', fifo_kind b' its'.
Proof.
  revert b its. induction keys as [|k rest IH]; intros b its Hk; simpl.
  - intros [= <-]. eauto.
  - destruct (cache b !! k) as [p|]; [|by apply (IH b its)].
    unfold fifo_kind in Hk. rewrite Hk. simpl. by apply (IH _ (Fifo.splice p its)).
Qed.

Lemma call_fifo zero (c : Call T) b b' its :
  fifo_kind b its → call zero c b = Some b' → ∃ its', fifo_kind b' its'.
Proof.
  intros Hk. destruct c as [id data now|id now| | |now order]; simpl.
  - destruct (Nail id data now b) as [[e b1]|] eqn:Hn; [|done]. simpl. intros [= <-].
    by eapply Nail_fifo.
  - destruct (Bring zero id now b) as [[r b1]|] eqn:Hb; [|done]. simpl. intros [= <-].
    by destruct (Bring_fifo zero id now b r b1 its Hk Hb).
  - unfold Clear, isClosed. destruct (closed b); [intros [= <-]; eauto|]. simpl.
    unfold fifo_kind in Hk. rewrite Hk. simpl. intros [= <-]. unfold fifo_kind. simpl. eauto.
  - unfold Close. destruct (closed b); [intros [= <-]; eauto|]. simpl.
    destruct (Chan.try_send _) as [ch|]; [|done]. simpl.
    destruct (Chan.close ch) as [ch'|]; [|done]. simpl.
    unfold fifo_kind in Hk. rewrite Hk. simpl. intros [= <-]. unfold fifo_kind. simpl. eauto.
  - unfold tick, cleanupExpired, isClosed. destruct (closed b); [intros [= <-]; eauto|].
    destruct (collectExpired now b order) as [keys|]; [|done]. simpl.
    by apply (deleteExpired_fifo keys b b' its).
Qed.

Lemma calls_fifo zero (cs : list (Call T)) b b' its :
  fifo_kind b its → calls zero cs b = Some b' → ∃ its', fifo_kind b' its'.
Proof.
  revert b its. induction cs as [|c cs IH]; intros b its Hk; simpl.
  - intros [= <-]. eauto.
  - destruct (call zero c b) as [b1|] eqn:Hc; [|done]. simpl.
    destruct (call_fifo zero c b b1 its Hk Hc) as (its1 & Hk1). by apply (IH b1 its1).
Qed.

(** X26. With the FIFO updater a read cannot change the order of
    eviction: in any reachable bucket a [Bring] that hits leaves the whole
    bucket as it was, the updater included. (With the LRU list it moves the
    entry to the front.) *)
Theorem X26_fifo_read_changes_nothing zero (opts1 opts2 : list NewBucketOption)
    (cs : list (Call T)) b k now v b1 :
  Forall lru_option opts2 →
  calls zero cs (NewBucket (opts1 ++ WithFIFOUpdater :: opts2)) = Some b →
  Bring zero k now b = Some ((v, true), b1) →
  b1 = b ∧ ∃ its, updater b = Updater.of_fifo (Fifo.MkFifo its).
Proof.
  intros Hopts Hrun Hb.
  assert (Hk0 : fifo_kind (NewBucket (T:=T) (opts1 ++ WithFIFOUpdater :: opts2)) []).
  { unfold fifo_kind, NewBucket. rewrite fold_left_app. simpl.
    by rewrite apply_options_lru. }
  destruct (calls_fifo zero cs _ b [] Hk0 Hrun) as (its & Hk).
  destruct (Bring_fifo zero k now b _ b1 its Hk Hb) as (_ & Heq).
  split; [by apply Heq|]. by exists its.
Qed.

End lru_bucket.

(** * The theorems on the order of eviction at concrete inputs *)

Section order_witnesses.
Import Heatwave Invariant.

Local Abbreviation nail := (@CallNail go_time nat).
Local Abbreviation bring := (@CallBring go_time nat).

Lemma X25_witness :
  ∃ b b1 b2,
    calls (E:=go_time) 0%nat [nail "k" 1%nat 0; nail "j" 2%nat 5]
          (NewBucket [WithBucketOutdated 10; WithMaxSize 2]) = Some b ∧
    Bring (E:=go_time) 0%nat "k" 6 b = Some ((1%nat, true), b1) ∧
    Nail (E:=go_time) "z" 3%nat 7 b1 = Some (None, b2) ∧
    cache b2 !! "k" = Some 1%positive.
Proof.
  assert (Hopts : Forall lru_option [WithBucketOutdated 10; WithMaxSize 2]).
  { repeat constructor; apply in_range_small; lia. }
  assert (F :
    (b ← calls (E:=go_time) 0%nat [nail "k" 1%nat 0; nail "j" 2%nat 5]
               (NewBucket [WithBucketOutdated 10; WithMaxSize 2]);
     Some (closed b, cache b !! "k", heap b !! 1%positive, cache b !! "z", maxSize b))
    = Some (false, Some 1%positive, Some (MkItem (E:=go_time) "k" 1%nat 10), None, 2))
    by (vm_compute; reflexivity).
  destruct (calls (E:=go_time) 0%nat [nail "k" 1%nat 0; nail "j" 2%nat 5]
                  (NewBucket [WithBucketOutdated 10; WithMaxSize 2])) as [b|] eqn:Hrun;
    [|discriminate F].
  simpl in F. injection F as Hcl Hk Hp Hz Hm.
  destruct (X25_lru_read_protects_entry (E:=go_time) 0%nat
              [WithBucketOutdated 10; WithMaxSize 2] _ b "k" 1%positive
              (MkItem (E:=go_time) "k" 1%nat 10) 6 "z" 3%nat 7 Hopts Hrun Hcl Hk Hp)
    as (b1 & b2 & Hb & Hn & Hk2 & _); [reflexivity|exact Hz|rewrite Hm; lia|].
  exists b, b1, b2. split; [reflexivity|]. split; [exact Hb|]. split; [exact Hn|exact Hk2].
Defined.

Lemma X26_witness :
  ∃ b,
    calls (E:=go_time) 0%nat [nail "k" 1%nat 0; nail "j" 2%nat 5]
          (NewBucket ([WithBucketOutdated 10] ++ WithFIFOUpdater :: [])) = Some b ∧
    Bring (E:=go_time) 0%nat "k" 6 b = Some ((1%nat, true), b).
Proof.
  assert (F :
    (b ← calls (E:=go_time) 0%nat [nail "k" 1%nat 0; nail "j" 2%nat 5]
               (NewBucket ([WithBucketOutdated 10] ++ WithFIFOUpdater :: []));
     '(r, _) ← Bring (E:=go_time) 0%nat "k" 6 b; Some r)
    = Some (1%nat, true)) by (vm_compute; reflexivity).
  destruct (calls (E:=go_time) 0%nat [nail "k" 1%nat 0; nail "j" 2%nat 5]
                  (NewBucket ([WithBucketOutdated 10] ++ WithFIFOUpdater :: [])))
    as [b|] eqn:Hrun; [|discriminate F].
  simpl in F.
  destruct (Bring (E:=go_time) 0%nat "k" 6 b) as [[r b1]|] eqn:Hb; [|discriminate F].
  simpl in F. injection F as ->.
  destruct (X26_fifo_read_changes_nothing (E:=go_time) 0%nat [WithBucketOutdated 10] []
              _ b "k" 6 1%nat b1 (Forall_nil_2 _) Hrun Hb) as (Heq & _).
  exists b. split; [reflexivity|]. rewrite Heq in Hb. exact Hb.
Defined.

End order_witnesses.

(** * The order in which the methods take the locks *)

Section lock_order.
Import Locks.

(** A goroutine that waits for a lock held by a goroutine that makes no
    step makes no step either. *)
Lemma exec_other i j st st' :
  exec j st = Some st' → i ≠ j → threads st' !! i = threads st !! i.
Proof.
  unfold exec. intros H Hne.
  destruct (threads st !! j) as [[|o rest]|]; try done.
  destruct o; case_decide; simplify_eq/=; by rewrite list_lookup_insert_ne.
Qed.

Lemma exec_held m st st' i j :
  exec j st = Some st' → i ≠ j →
  (writer (locks st m) = Some i → writer (locks st' m) = Some i) ∧
  (i ∈ readers (locks st m) → i ∈ readers (locks st' m)).
Proof.
  unfold exec. intros H Hne.
  destruct (threads st !! j) as [[|o rest]|]; try done.
  destruct o as [m'|m'|m'|m']; case_decide as Hd; simplify_eq/=; unfold upd;
    destruct (decide (m = m')) as [->|Hm]; simpl; split; try done.
  - destruct Hd as (Hw & _). congruence.
  - destruct Hd as (_ & Hr). rewrite Hr. by intros ?%elem_of_nil.
  - intros. congruence.
  - congruence.
  - intros Hin. by apply elem_of_cons; right.
  - intros Hin. apply list_elem_of_filter. by split.
Qed.

(** X27. [Close] takes [closeMutex] and then [mutex]; [Nail], [Bring],
    [Clear] and [Size] take [mutex] and then, in [isClosed], [closeMutex].
    So a [Close] of an open bucket that runs beside one of them can
    deadlock: when the method has taken [mutex] and [Close] has taken
    [closeMutex], each waits for the lock of the other, and neither makes
    a step again, whatever the other goroutines of the program do. *)
Theorem X27_Close_can_deadlock (method : list op) (others : list (list op)) :
  method ∈ [Nail; Bring; Clear; Size] →
  ∃ st,
    run [0%nat; 1%nat] (init (method :: Close :: others)) = Some st ∧
    waits st 0 ∧ waits st 1 ∧
    ∀ sched st',
      run sched st = Some st' →
      threads st' !! 0%nat = threads st !! 0%nat ∧
      threads st' !! 1%nat = threads st !! 1%nat ∧
      waits st' 0 ∧ waits st' 1.
Proof.
  intros Hm.
  assert (Hcases : method = Lock mutex :: isClosed ++ [Unlock mutex] ∨ method = Size).
  { repeat (apply elem_of_cons in Hm as [->|Hm]); try (by left); try (by right).
    by apply elem_of_nil in Hm. }
  assert (Hgen : ∀ st : state,
    (writer (locks st mutex) = Some 0%nat ∨ 0%nat ∈ readers (locks st mutex)) →
    writer (locks st closeMutex) = Some 1%nat →
    (∃ rest, threads st !! 0%nat = Some (Lock closeMutex :: rest)) →
    (∃ rest, threads st !! 1%nat = Some (Lock mutex :: rest)) →
    waits st 0 ∧ waits st 1 ∧
    ∀ sched st',
      run sched st = Some st' →
      threads st' !! 0%nat = threads st !! 0%nat ∧
      threads st' !! 1%nat = threads st !! 1%nat ∧
      waits st' 0 ∧ waits st' 1).
  { assert (Hw : ∀ st : state,
      (writer (locks st mutex) = Some 0%nat ∨ 0%nat ∈ readers (locks st mutex)) →
      writer (locks st closeMutex) = Some 1%nat →
      (∃ rest, threads st !! 0%nat = Some (Lock closeMutex :: rest)) →
      (∃ rest, threads st !! 1%nat = Some (Lock mutex :: rest)) →
      waits st 0 ∧ waits st 1).
    { intros st H0 H1 (r0 & Ht0) (r1 & Ht1). split.
      - exists closeMutex, r0, 1%nat. split; [done|]. left. split; [done|by left].
      - exists mutex, r1, 0%nat. split; [done|]. left. by split. }
    intros st H0 H1 Ht0 Ht1. destruct (Hw st H0 H1 Ht0 Ht1) as (Hw0 & Hw1).
    split; [done|]. split; [done|].
    intros sched. revert st H0 H1 Ht0 Ht1 Hw0 Hw1.
    induction sched as [|j sched IH]; intros st H0 H1 Ht0 Ht1 Hw0 Hw1 st' Hrun;
      simpl in Hrun.
    { by simplify_eq. }
    destruct (exec j st) as [st1|] eqn:Hex; [|done]. simpl in Hrun.
    assert (Hj0 : j ≠ 0%nat).
    { intros ->. destruct Ht0 as (r0 & Ht0). unfold exec in Hex. rewrite Ht0 in Hex.
      rewrite decide_False in Hex; [done|]. intros (Hx & _). congruence. }
    assert (Hj1 : j ≠ 1%nat).
    { intros ->. destruct Ht1 as (r1 & Ht1). unfold exec in Hex. rewrite Ht1 in Hex.
      rewrite decide_False in Hex; [done|]. intros (Hx & Hy).
      destruct H0 as [H0|H0]; [congruence|]. rewrite Hy in H0. by apply elem_of_nil in H0. }
    pose proof (exec_other 0 j st st1 Hex (not_eq_sym Hj0)) as E0.
    pose proof (exec_other 1 j st st1 Hex (not_eq_sym Hj1)) as E1.
    destruct (exec_held mutex st st1 0 j Hex (not_eq_sym Hj0)) as (Hm1 & Hm2).
    destruct (exec_held closeMutex st st1 1 j Hex (not_eq_sym Hj1)) as (Hc1 & _).
    assert (H0' : writer (locks st1 mutex) = Some 0%nat ∨ 0%nat ∈ readers (locks st1 mutex)).
    { destruct H0; [left; auto|right; auto]. }
    assert (Ht0' : ∃ rest, threads st1 !! 0%nat = Some (Lock closeMutex :: rest)).
    { by rewrite E0. }
    assert (Ht1' : ∃ rest, threads st1 !! 1%nat = Some (Lock mutex :: rest)).
    { by rewrite E1. }
    destruct (Hw st1 H0' (Hc1 H1) Ht0' Ht1') as (Hw0' & Hw1').
    destruct (IH st1 H0' (Hc1 H1) Ht0' Ht1' Hw0' Hw1' st' Hrun) as (? & ? & ? & ?).
    split_and!; try done; congruence. }
  destruct Hcases as [->| ->].
  - eexists. split; [reflexivity|]. apply Hgen; simpl.
    + by left.
    + done.
    + by eexists.
    + by eexists.
  - eexists. split; [reflexivity|]. apply Hgen; simpl.
    + right. by apply elem_of_cons; left.
    + done.
    + by eexists.
    + by eexists.
Qed.

Lemma X27_witness :
  ∃ st,
    run [0%nat; 1%nat] (init [Nail; Close]) = Some st ∧
    waits st 0 ∧ waits st 1 ∧
    exec 0 st = None ∧ exec 1 st = None.
Proof.
  destruct (X27_Close_can_deadlock Nail []) as (st & Hrun & Hw0 & Hw1 & _).
  - apply elem_of_cons. by left.
  - exists st. split; [exact Hrun|]. split; [exact Hw0|]. split; [exact Hw1|].
    simpl in Hrun. injection Hrun as <-. split; reflexivity.
Defined.

End lock_order.

(** * Without [Close] the locks are taken in one order *)

Section lock_progress.
Import Locks LockOrder.
Implicit Types (st : state) (r : list op) (m : lock) (i j : nat).

Lemma allowed_well_ordered r : r ∈ allowed → well_ordered r = true.
Proof.
  intros Hin.
  assert (H : Forall (λ r, well_ordered r = true) allowed).
  { apply (bool_decide_unpack _). vm_compute. reflexivity. }
  by apply (proj1 (Forall_forall _ _) H).
Qed.

Lemma methods_allowed r : r ∈ methods → r ∈ allowed ∧ ∀ m, holds m r = false ∧ rholds m r = false.
Proof.
  intros Hin.
  assert (H : Forall (λ r, r ∈ allowed ∧ ∀ m, holds m r = false ∧ rholds m r = false) methods).
  { repeat constructor; try (vm_compute; apply bool_decide_unpack; vm_compute; reflexivity);
      by destruct m. }
  by apply (proj1 (Forall_forall _ _) H).
Qed.

Lemma holds_other o r m :
  lock_of o ≠ m → holds m (o :: r) = holds m r ∧ rholds m (o :: r) = rholds m r.
Proof. intros Hm. simpl. by rewrite !decide_False by done. Qed.

Lemma holds_same o r :
  holds (lock_of o) (o :: r) = match o with Unlock _ => true | _ => false end ∧
  rholds (lock_of o) (o :: r) = match o with RUnlock _ => true | _ => false end.
Proof. simpl. by rewrite !decide_True by done. Qed.

Local Ltac unbool H :=
  repeat (rewrite ?andb_true_iff, ?orb_true_iff, ?negb_true_iff, ?bool_decide_eq_true in H).

(** What [well_ordered] says of the step. *)
Lemma well_ordered_step o r :
  well_ordered (o :: r) = true →
  r ∈ allowed ∧
  holds (lock_of o) r = match o with Lock _ => true | _ => false end ∧
  rholds (lock_of o) r = match o with RLock _ => true | _ => false end.
Proof.
  unfold well_ordered. intros H. apply andb_true_iff in H as (_ & H).
  apply andb_true_iff in H as (Hin & Ho). apply bool_decide_eq_true in Hin.
  split; [done|].
  destruct o as [m|m|m|m]; cbn [lock_of]; unbool Ho; destruct_and?; by split.
Qed.

(** What it says of the order of the locks. *)
Lemma well_ordered_close r :
  well_ordered r = true → holds closeMutex r = true →
  ∃ r', r = Unlock closeMutex :: r'.
Proof.
  destruct r as [|o r']; [done|]. unfold well_ordered. intros H Hh.
  apply andb_true_iff in H as (_ & H). apply andb_true_iff in H as (_ & Ho).
  destruct o as [m|m|m|m]; unbool Ho; destruct_and?; destruct_or?; destruct_and?;
    simplify_eq; try congruence; by eexists.
Qed.

Lemma well_ordered_mutex r :
  well_ordered r = true → holds closeMutex r = false →
  holds mutex r = true ∨ rholds mutex r = true →
  ∃ r', r = Lock closeMutex :: r' ∨
        (r = Unlock mutex :: r' ∧ holds mutex r = true) ∨
        (r = RUnlock mutex :: r' ∧ rholds mutex r = true).
Proof.
  destruct r as [|o r']; [by intros _ _ [?|?]|]. unfold well_ordered. intros H Hc Hm.
  apply andb_true_iff in H as (Hrc & H). apply negb_true_iff in Hrc.
  apply andb_true_iff in H as (_ & Ho). exists r'.
  destruct (holds_same o r') as (Hsw & Hsr).
  destruct o as [m|m|m|m]; cbn [lock_of] in *; unbool Ho; destruct_and?.
  - destruct_or?; destruct_and?; simplify_eq; try (by left); congruence.
  - destruct m; [right; left; by split|congruence].
  - destruct Hm; congruence.
  - destruct m; [right; right; by split|congruence].
Qed.

Lemma nothing_held r :
  (∀ m, holds m r = false ∧ rholds m r = false) →
  r = [] ∨ ∃ m r', r = Lock m :: r' ∨ r = RLock m :: r'.
Proof.
  intros H. destruct r as [|o r']; [by left|right].
  destruct (holds_same o r') as (Hx & Hy). destruct (H (lock_of o)) as (Hx' & Hy').
  destruct o as [m|m|m|m]; cbn [lock_of] in *; try congruence; exists m, r'; auto.
Qed.

Lemma lookup_change (ths : list (list op)) j r' (P : list op → Prop) i :
  (j < length ths)%nat →
  (∃ r, <[j := r']> ths !! i = Some r ∧ P r) ↔
  (i = j ∧ P r') ∨ (i ≠ j ∧ ∃ r, ths !! i = Some r ∧ P r).
Proof.
  intros Hlen. destruct (decide (i = j)) as [->|Hne].
  - rewrite list_lookup_insert_eq by done. naive_solver.
  - rewrite list_lookup_insert_ne by done. naive_solver.
Qed.

(** Every step keeps the locks consistent with the goroutines. *)
Lemma exec_consistent j st st' : consistent st → exec j st = Some st' → consistent st'.
Proof.
  intros (Ha & Hb & Hc) Hex. unfold exec in Hex.
  destruct (threads st !! j) as [[|o r']|] eqn:Hj; try done.
  destruct (well_ordered_step o r' (allowed_well_ordered _ (Ha j _ Hj))) as (Hin & Hh & Hr).
  assert (Hlen : (j < length (threads st))%nat) by (by eapply lookup_lt_Some).
  assert (Hbj : ∀ m, writer (locks st m) = Some j ↔ holds m (o :: r') = true).
  { intros m. rewrite Hb. split; [intros (r & Hr' & ?); congruence|by eexists]. }
  assert (Hcj : ∀ m, j ∈ readers (locks st m) ↔ rholds m (o :: r') = true).
  { intros m. rewrite Hc. split; [intros (r & Hr' & ?); congruence|by eexists]. }
  assert (Hgoal : ∀ (lk : lock → held),
    (∀ m, lock_of o ≠ m → lk m = locks st m) →
    (∀ i, writer (lk (lock_of o)) = Some i ↔
          (i = j ∧ holds (lock_of o) r' = true) ∨
          (i ≠ j ∧ writer (locks st (lock_of o)) = Some i)) →
    (∀ i, i ∈ readers (lk (lock_of o)) ↔
          (i = j ∧ rholds (lock_of o) r' = true) ∨
          (i ≠ j ∧ i ∈ readers (locks st (lock_of o)))) →
    consistent (MkState lk (<[j := r']> (threads st)))).
  { intros lk Hoth Hw Hrd. split_and!; simpl.
    - intros i r. destruct (decide (i = j)) as [->|Hne].
      + rewrite list_lookup_insert_eq by done. by intros [= <-].
      + rewrite list_lookup_insert_ne by done. apply Ha.
    - intros m i. rewrite lookup_change by done.
      destruct (decide (lock_of o = m)) as [<-|Hm].
      + rewrite Hw. by rewrite <- Hb.
      + rewrite (Hoth m Hm). destruct (holds_other o r' m Hm) as (Hx & _).
        rewrite <- Hx, <- Hbj, <- Hb. destruct (decide (i = j)); naive_solver.
    - intros m i. rewrite lookup_change by done.
      destruct (decide (lock_of o = m)) as [<-|Hm].
      + rewrite Hrd. by rewrite <- Hc.
      + rewrite (Hoth m Hm). destruct (holds_other o r' m Hm) as (_ & Hy).
        rewrite <- Hy, <- Hcj, <- Hc. destruct (decide (i = j)); naive_solver. }
  destruct (holds_same o r') as (Hsw & Hsr).
  pose proof (Hbj (lock_of o)) as Hbjo. pose proof (Hcj (lock_of o)) as Hcjo.
  rewrite Hsw in Hbjo. rewrite Hsr in Hcjo.
  destruct o as [m|m|m|m]; cbn [lock_of] in *; case_decide as Hen; simplify_eq/=;
    apply Hgoal; unfold upd; cbn [lock_of].
  - intros m' Hm. by rewrite decide_False.
  - intros i. rewrite decide_True by done. simpl. destruct Hen as (Hw0 & _).
    rewrite Hw0, Hh. naive_solver.
  - intros i. rewrite decide_True by done. simpl. destruct Hen as (_ & Hr0).
    rewrite Hr0, Hr. split; [by intros ?%elem_of_nil|]. intros [(_ & ?)|(_ & ?%elem_of_nil)]; done.
  - intros m' Hm. by rewrite decide_False.
  - intros i. rewrite decide_True by done. simpl. rewrite Hen, Hh. naive_solver.
  - intros i. rewrite decide_True by done. simpl. rewrite Hr.
    split; [|naive_solver]. intros Hi. right. split; [|done]. intros ->.
    apply Hcjo in Hi. done.
  - intros m' Hm. by rewrite decide_False.
  - intros i. rewrite decide_True by done. simpl. rewrite Hen, Hh. naive_solver.
  - intros i. rewrite decide_True by done. simpl. rewrite Hr, elem_of_cons.
    destruct (decide (i = j)); naive_solver.
  - intros m' Hm. by rewrite decide_False.
  - intros i. rewrite decide_True by done. simpl. rewrite Hh.
    split; [|naive_solver]. intros Hi. right. split; [|done]. intros ->.
    apply Hbjo in Hi. done.
  - intros i. rewrite decide_True by done. simpl. rewrite Hr, list_elem_of_filter.
    naive_solver.
Qed.

Lemma run_consistent sched st st' : consistent st → run sched st = Some st' → consistent st'.
Proof.
  revert st. induction sched as [|j sched IH]; intros st Hc Hrun; simpl in Hrun.
  - by simplify_eq.
  - destruct (exec j st) as [st1|] eqn:Hex; [|done]. simpl in Hrun.
    eapply IH; [|done]. by eapply exec_consistent.
Qed.

Lemma init_consistent (ths : list (list op)) :
  Forall (λ r, r ∈ methods) ths → consistent (init ths).
Proof.
  intros Hall. assert (Hm : ∀ i r, ths !! i = Some r → r ∈ methods).
  { intros i r Hi. by apply (proj1 (Forall_lookup _ _) Hall i r). }
  split_and!; simpl.
  - intros i r Hi. by apply methods_allowed, (Hm i).
  - intros m i. split; [done|]. intros (r & Hi & Hh).
    destruct (methods_allowed r (Hm i r Hi)) as (_ & Hf). destruct (Hf m). congruence.
  - intros m i. split; [by intros ?%elem_of_nil|]. intros (r & Hi & Hh).
    destruct (methods_allowed r (Hm i r Hi)) as (_ & Hf). destruct (Hf m). congruence.
Qed.

(** Where the locks are consistent, a goroutine that has not finished
    can make a step. *)
Lemma consistent_progress st :
  consistent st →
  (∀ i r, threads st !! i = Some r → r = []) ∨ ∃ i, ready st i.
Proof.
  intros (Ha & Hb & Hc).
  assert (Hwo : ∀ i r, threads st !! i = Some r → well_ordered r = true).
  { intros i r Hi. by apply allowed_well_ordered, (Ha i). }
  assert (Hrc : readers (locks st closeMutex) = []).
  { destruct (readers (locks st closeMutex)) as [|i rs] eqn:Hrs; [done|].
    destruct (proj1 (Hc closeMutex i)) as (r & Hi & Hr); [rewrite Hrs; by left|].
    pose proof (Hwo i r Hi) as Hw. unfold well_ordered in Hw.
    apply andb_true_iff in Hw as (Hw & _). apply negb_true_iff in Hw. congruence. }
  assert (Hstep : ∀ i o r, threads st !! i = Some (o :: r) →
            match o with RLock _ => False | _ => True end →
            is_Some (exec i st) → ready st i).
  { intros i o r Hi Ho Hex. split; [done|]. intros m rest Hi'. rewrite Hi in Hi'.
    injection Hi' as -> _. done. }
  destruct (writer (locks st closeMutex)) as [i|] eqn:Hwc.
  { right. exists i. destruct (proj1 (Hb closeMutex i) Hwc) as (r & Hi & Hh).
    destruct (well_ordered_close r (Hwo i r Hi) Hh) as (r' & ->).
    apply (Hstep i _ _ Hi I). unfold exec. rewrite Hi. by rewrite decide_True. }
  assert (Hnc : ∀ i r, threads st !! i = Some r → holds closeMutex r = false).
  { intros i r Hi. destruct (holds closeMutex r) eqn:Hh; [|done].
    assert (writer (locks st closeMutex) = Some i) by (apply Hb; by eexists). congruence. }
  assert (Hheld : ∀ i r, threads st !! i = Some r →
            holds mutex r = true ∨ rholds mutex r = true → ready st i).
  { intros i r Hi Hm.
    destruct (well_ordered_mutex r (Hwo i r Hi) (Hnc i r Hi) Hm)
      as (r' & [->|[(-> & Hh)|(-> & Hh)]]).
    - apply (Hstep i _ _ Hi I). unfold exec. rewrite Hi. by rewrite decide_True.
    - apply (Hstep i _ _ Hi I). unfold exec. rewrite Hi. rewrite decide_True; [done|].
      apply Hb. by eexists.
    - apply (Hstep i _ _ Hi I). unfold exec. rewrite Hi. rewrite decide_True; [done|].
      apply Hc. by eexists. }
  destruct (writer (locks st mutex)) as [i|] eqn:Hwm.
  { right. exists i. destruct (proj1 (Hb mutex i) Hwm) as (r & Hi & Hh).
    apply (Hheld i r Hi). by left. }
  destruct (readers (locks st mutex)) as [|i rs] eqn:Hrm.
  2:{ right. exists i. destruct (proj1 (Hc mutex i)) as (r & Hi & Hh); [rewrite Hrm; by left|].
      apply (Hheld i r Hi). by right. }
  assert (Hfree : ∀ m, writer (locks st m) = None ∧ readers (locks st m) = []).
  { by intros []. }
  assert (Hnone : ∀ i r, threads st !! i = Some r →
            ∀ m, holds m r = false ∧ rholds m r = false).
  { intros i r Hi m. split.
    - destruct (holds m r) eqn:Hh; [|done].
      assert (writer (locks st m) = Some i) by (apply Hb; by eexists).
      destruct (Hfree m). congruence.
    - destruct (rholds m r) eqn:Hh; [|done].
      assert (Hin : i ∈ readers (locks st m)) by (apply Hc; by eexists).
      destruct (Hfree m) as (_ & Hr). rewrite Hr in Hin. by apply elem_of_nil in Hin. }
  destruct (decide (Exists (λ r, next_is_lock r = true) (threads st))) as [Hex|Hnex].
  { right. apply Exists_exists in Hex as (r & Hin & Hr).
    apply list_elem_of_lookup in Hin as (i & Hi). exists i.
    destruct r as [|[m| | |] r']; try done.
    apply (Hstep i _ _ Hi I). unfold exec. rewrite Hi. destruct (Hfree m).
    by rewrite decide_True. }
  destruct (decide (Forall (λ r, r = []) (threads st))) as [Hfin|Hnfin].
  { left. intros i r Hi. by apply (proj1 (Forall_lookup _ _) Hfin i r). }
  right. apply not_Forall_Exists in Hnfin; [|apply _].
  apply Exists_exists in Hnfin as (r & Hin & Hr).
  apply list_elem_of_lookup in Hin as (i & Hi). exists i.
  destruct (nothing_held r (Hnone i r Hi)) as [->|(m & r' & [->| ->])];
    [by destruct Hr| |].
  - exfalso. apply Hnex. apply Exists_exists. exists (Lock m :: r'). split; [|done].
    by eapply list_elem_of_lookup_2.
  - split.
    + unfold exec. rewrite Hi. destruct (Hfree m) as (Hw & _). by rewrite decide_True.
    + intros m0 rest Hi0 j rest' Hj. apply Hnex. apply Exists_exists.
      exists (Lock m0 :: rest'). split; [|done]. by eapply list_elem_of_lookup_2.
Qed.

(** X28. Without the [Close] of an open bucket there is no deadlock on
    the two locks: however many goroutines run [Nail], [Bring], [Clear],
    [Size], [IsClosed], the sweeper or the [Close] of a closed bucket,
    and however they are scheduled, either all have finished or one of
    them can make its next step. All these take [mutex] before
    [closeMutex]. *)
Theorem X28_no_deadlock_without_Close (ths : list (list op)) (sched : list nat) st :
  Forall (λ r, r ∈ methods) ths →
  run sched (init ths) = Some st →
  (∀ i r, threads st !! i = Some r → r = []) ∨ ∃ i, ready st i.
Proof.
  intros Hall Hrun. apply consistent_progress.
  eapply run_consistent; [|exact Hrun]. by apply init_consistent.
Qed.

Lemma X28_witness :
  ∃ st,
    run [0%nat; 1%nat; 1%nat] (init [Nail; tick; Size]) = Some st ∧
    ((∀ i r, threads st !! i = Some r → r = []) ∨ ∃ i, ready st i).
Proof.
  eexists. split; [reflexivity|].
  apply (X28_no_deadlock_without_Close [Nail; tick; Size] [0%nat; 1%nat; 1%nat]).
  - unfold methods.
    constructor; [apply elem_of_cons; by left|].
    constructor; [do 6 (apply elem_of_cons; right); apply elem_of_cons; by left|].
    constructor; [do 3 (apply elem_of_cons; right); apply elem_of_cons; by left|].
    constructor.
  - reflexivity.
Defined.

End lock_progress.
